(** * The GRR thread pool (grr_response_server/threadpool.py)

    A shallow embedding of [_WorkerThread], [ThreadPool] and
    [BatchConverter], and the properties of the pool's specification
    settled against it.

    Python objects live in a store ([World]): pools and worker threads are
    referred to by reference, so that the registry, a pool's two worker
    dictionaries and a worker's back pointer alias the same objects as in
    the source.  Methods are state transformers in a small state and
    exception monad.  What other threads and the operating system
    decide (the clock, the CPU probe, whether a thread can be created, and
    which worker runs when) is read from oracles kept in the world. *)

From Stdlib Require Import ZArith List Lia Bool.
From stdpp Require Import base option list gmap fin_maps strings pretty.

Set Default Proof Using "Type".

(** ** Exceptions and results *)

Inductive exn :=
| Full                                   (* threadpool.Full *)
| DuplicateThreadpoolError (name : string)
| ThreadError                            (* threading.ThreadError / RuntimeError of Thread.start *)
| ValueError                             (* Queue.task_done called too many times *)
| ZeroDivisionError
| NotImplementedError
| Exception (msg : string)               (* any other subclass of Exception a task raises *)
| ExceptionU (msg : string)              (* an Exception whose message is unicode text that ASCII cannot encode *)
| UnicodeEncodeError                     (* what str(e) raises for such a message (Python 2) *)
| SystemExit                             (* BaseException, outside Exception *)
| KeyboardInterrupt                      (* BaseException, outside Exception *)
| InvalidReference.                      (* no object under that reference: outside Python's reach *)

(** The result of running a method: it returns, it raises, or the calling
    thread is still blocked (or still looping) when the model's patience,
    the [fuel] of the waiting loops, has run out. *)
Inductive result (R : Type) :=
| Returns (r : R)
| Raises (e : exn)
| Blocked.
Arguments Returns {R} r.
Arguments Raises {R} e.
Arguments Blocked {R}.

Abbreviation ref := nat (only parsing).   (* identity of a ThreadPool object *)
Abbreviation tid := nat (only parsing).   (* identity of a Thread object *)

Record Env := mk_Env {
  clock : list Z;              (* successive values of time.time() *)
  cpu : list Z;                (* successive values of process.cpu_percent(0) *)
  spawn : list bool;           (* does the next Thread.start succeed *)
  sched : list (list tid)      (* the workers that take a step each time the running thread lets go *)
}.

Inductive who := Caller | Worker (t : tid).

Inductive gauge_callback :=
| GaugeQsize (p : ref) | GaugeLen (p : ref) | GaugeCPUUsage (p : ref).

(** stats.STATS, as far as the pool uses it. *)
Record Stats := mk_Stats {
  gauges : gmap string gauge_callback;
  counters : gmap string Z;
  event_metrics : gmap string (list Z)
}.

Inductive log_record :=
| LogException (task_name : string) (e : exn)   (* logging.exception("Caught exception in worker thread (%s): %s") *)
| LogError (msg : string)
| LogWarning (msg : string)
| LogDebug (batch_index : nat) (total_batch_count : Z).

Section Pool.

(** The type of a task's argument tuple. A callable is a function from the
    arguments to what the call does: [None] when it returns, [Some e]
    when it raises [e]. *)
Context {A : Type}.

Record task := mk_task {
  t_target : A → option exn;
  t_args : A;
  t_name : string;
  t_queueing_time : Z
}.

Inductive message :=
| STOP_MESSAGE
| Task (t : task).

(** Queue.Queue (Python 2.7): a FIFO with a capacity and the count of
    messages put but not yet acknowledged by task_done. *)
Record Queue := mk_Queue {
  maxsize : Z;
  queue : list message;
  unfinished_tasks : Z
}.

Definition qsize (q : Queue) : nat := length (queue q).

(** Queue.put refuses when [maxsize > 0] and [qsize == maxsize]. *)
Definition full (q : Queue) : bool :=
  (0 <? maxsize q)%Z && (Z.of_nat (qsize q) =? maxsize q)%Z.

Definition put_nowait (m : message) (q : Queue) : option Queue :=
  if full q then None
  else Some {| maxsize := maxsize q;
               queue := queue q ++ [m];
               unfinished_tasks := (unfinished_tasks q + 1)%Z |}.

Definition get_nowait (q : Queue) : option (message * Queue) :=
  match queue q with
  | [] => None
  | m :: rest => Some (m, {| maxsize := maxsize q; queue := rest;
                             unfinished_tasks := unfinished_tasks q |})
  end.

(** Queue.task_done: one unit less outstanding; ValueError below zero. *)
Definition task_done (q : Queue) : option Queue :=
  let unfinished := (unfinished_tasks q - 1)%Z in
  if (unfinished <? 0)%Z then None
  else Some {| maxsize := maxsize q; queue := queue q;
               unfinished_tasks := unfinished |}.

(** Where a worker thread stands in [run]. *)
Inductive pc :=
| AtGet                    (* waiting in self._queue.get(timeout=60) *)
| Holding (m : message)    (* [task] is bound, the inner try not yet entered *)
| AtRemoveIdle             (* in except Queue.Empty, about to call _RemoveFromPool *)
| AtRemoveAged             (* older than 600 s, about to call _RemoveFromPool *)
| Exited.                  (* run has returned, or died *)

Record WorkerThread := mk_WorkerThread {
  w_name : string;
  w_pool : ref;
  w_idle : bool;
  w_started : Z;
  w_pc : pc
}.

Record ThreadPool := mk_ThreadPool {
  min_threads : Z;
  max_threads : Z;
  cpu_check : bool;
  _queue : Queue;
  name : string;
  started : bool;
  _workers : gmap string tid;
  _workers_ro_copy : gmap string tid
}.

(** What the file's theorems observe of a run. *)
Inductive event :=
| EvCall (by_ : who) (task_name : string) (args : A) (raised : option exn)   (* target( *args ) *)
| EvTaskDone (t : tid) (m : message)                                         (* self._queue.task_done() *)
| EvAddTask (p : ref) (target : A → option exn) (args : A) (task_name : string)
            (blocking inline : bool)                                         (* entry of AddTask *)
| EvStart (p : ref)
| EvStop (p : ref).

Record World := mk_World {
  POOLS : gmap string ref;             (* ThreadPool.POOLS *)
  objects : gmap ref ThreadPool;       (* the ThreadPool objects *)
  next_ref : ref;
  threads : gmap tid WorkerThread;     (* the Thread objects *)
  thread_counter : nat;                (* threading's counter behind "Thread-N" *)
  STATS : Stats;
  logging : list log_record;
  trace : list event;
  env : Env
}.

(** ** The monad *)

Definition M (R : Type) : Type := World → result R * World.

Definition ret {R} (r : R) : M R := λ w, (Returns r, w).
Definition raise {R} (e : exn) : M R := λ w, (Raises e, w).
Definition blocked {R} : M R := λ w, (Blocked, w).

Definition bind {R S} (m : M R) (k : R → M S) : M S :=
  λ w, match m w with
       | (Returns r, w') => k r w'
       | (Raises e, w') => (Raises e, w')
       | (Blocked, w') => (Blocked, w')
       end.

(** try: m  except (the exceptions [catches] accepts): handler *)
Definition try_except {R} (m : M R) (catches : exn → bool) (handler : exn → M R) : M R :=
  λ w, match m w with
       | (Raises e, w') => if catches e then handler e w' else (Raises e, w')
       | rw => rw
       end.

(** try: m  finally: fin *)
Definition try_finally {R} (m : M R) (fin : M unit) : M R :=
  λ w, match m w with
       | (Blocked, w') => (Blocked, w')
       | (r, w') =>
           match fin w' with
           | (Returns _, w'') => (r, w'')
           | (Raises e, w'') => (Raises e, w'')
           | (Blocked, w'') => (Blocked, w'')
           end
       end.

Definition gets {R} (f : World → R) : M R := λ w, (Returns (f w), w).
Definition modify (f : World → World) : M unit := λ w, (Returns tt, f w).

End Pool.

Arguments task : clear implicits.
Arguments message : clear implicits.
Arguments Queue : clear implicits.
Arguments pc : clear implicits.
Arguments WorkerThread : clear implicits.
Arguments ThreadPool : clear implicits.
Arguments event : clear implicits.
Arguments World : clear implicits.
Arguments M : clear implicits.

Declare Scope pool_scope.
Delimit Scope pool_scope with pool.
Notation "'let*' x := m 'in' k" := (bind m (λ x, k))
  (at level 10, x name, m at level 100, k at level 200) : pool_scope.
Notation "m ;; k" := (bind m (λ _, k))
  (at level 100, k at level 200, right associativity) : pool_scope.
Local Open Scope pool_scope.

Section Model.

Context {A : Type}.

Local Abbreviation M := (M A).
Local Abbreviation World := (World A).
Local Abbreviation ThreadPool := (ThreadPool A).
Local Abbreviation WorkerThread := (WorkerThread A).
Local Abbreviation task := (task A).
Local Abbreviation message := (message A).

(** ** Access to the store, the sinks and the oracles *)

Definition set_objects (o : gmap ref ThreadPool) (w : World) : World :=
  mk_World (POOLS w) o (next_ref w) (threads w) (thread_counter w)
           (STATS w) (logging w) (trace w) (env w).

Definition set_threads (t : gmap tid WorkerThread) (w : World) : World :=
  mk_World (POOLS w) (objects w) (next_ref w) t (thread_counter w)
           (STATS w) (logging w) (trace w) (env w).

Definition set_STATS (s : Stats) (w : World) : World :=
  mk_World (POOLS w) (objects w) (next_ref w) (threads w) (thread_counter w)
           s (logging w) (trace w) (env w).

Definition set_env (e : Env) (w : World) : World :=
  mk_World (POOLS w) (objects w) (next_ref w) (threads w) (thread_counter w)
           (STATS w) (logging w) (trace w) e.

Definition get_pool (p : ref) : M ThreadPool :=
  λ w, match objects w !! p with
       | Some pl => (Returns pl, w)
       | None => (Raises InvalidReference, w)
       end.

Definition set_pool (p : ref) (pl : ThreadPool) : M unit :=
  modify (λ w, set_objects (<[p := pl]> (objects w)) w).

Definition get_thread (t : tid) : M WorkerThread :=
  λ w, match threads w !! t with
       | Some wk => (Returns wk, w)
       | None => (Raises InvalidReference, w)
       end.

Definition set_thread (t : tid) (wk : WorkerThread) : M unit :=
  modify (λ w, set_threads (<[t := wk]> (threads w)) w).

Definition emit (ev : event A) : M unit :=
  modify (λ w, mk_World (POOLS w) (objects w) (next_ref w) (threads w)
                        (thread_counter w) (STATS w) (logging w)
                        (trace w ++ [ev]) (env w)).

Definition log (r : log_record) : M unit :=
  modify (λ w, mk_World (POOLS w) (objects w) (next_ref w) (threads w)
                        (thread_counter w) (STATS w) (logging w ++ [r])
                        (trace w) (env w)).

(** time.time() *)
Definition time_time : M Z :=
  λ w, (Returns (hd 0%Z (clock (env w))),
        set_env (mk_Env (tl (clock (env w))) (cpu (env w)) (spawn (env w)) (sched (env w))) w).

(** self.process.cpu_percent(0) *)
Definition cpu_percent : M Z :=
  λ w, (Returns (hd 0%Z (cpu (env w))),
        set_env (mk_Env (clock (env w)) (tl (cpu (env w))) (spawn (env w)) (sched (env w))) w).

(** Thread.start(): does the operating system give us the thread. *)
Definition thread_start : M unit :=
  λ w, let w' := set_env (mk_Env (clock (env w)) (cpu (env w)) (tl (spawn (env w)))
                                 (sched (env w))) w in
       if hd true (spawn (env w)) then (Returns tt, w') else (Raises ThreadError, w').

(** stats.STATS *)
Definition RegisterGaugeMetric (n : string) (cb : gauge_callback) : M unit :=
  modify (λ w, set_STATS (mk_Stats (<[n := cb]> (gauges (STATS w)))
                                   (counters (STATS w)) (event_metrics (STATS w))) w).

Definition RegisterCounterMetric (n : string) : M unit :=
  modify (λ w, set_STATS (mk_Stats (gauges (STATS w))
                                   (<[n := 0%Z]> (counters (STATS w)))
                                   (event_metrics (STATS w))) w).

Definition RegisterEventMetric (n : string) : M unit :=
  modify (λ w, set_STATS (mk_Stats (gauges (STATS w)) (counters (STATS w))
                                   (<[n := []]> (event_metrics (STATS w)))) w).

Definition counter (n : string) (w : World) : Z :=
  default 0%Z (counters (STATS w) !! n).

Definition samples (n : string) (w : World) : list Z :=
  default [] (event_metrics (STATS w) !! n).

Definition IncrementCounter (n : string) : M unit :=
  modify (λ w, set_STATS (mk_Stats (gauges (STATS w))
                                   (<[n := (counter n w + 1)%Z]> (counters (STATS w)))
                                   (event_metrics (STATS w))) w).

Definition RecordEvent (n : string) (v : Z) : M unit :=
  modify (λ w, set_STATS (mk_Stats (gauges (STATS w)) (counters (STATS w))
                                   (<[n := samples n w ++ [v]]> (event_metrics (STATS w)))) w).

(** ** ThreadPool: the small methods *)

(** [if self.name:] *)
Definition named (pl : ThreadPool) : bool :=
  if decide (name pl = "") then false else true.

(** __len__ *)
Definition len (pl : ThreadPool) : Z := Z.of_nat (size (_workers_ro_copy pl)).

(** pending_tasks *)
Definition pending_tasks (pl : ThreadPool) : nat := qsize (_queue pl).

(** busy_threads: the workers of the read-only copy whose [idle] is false.
    The dictionary holds the worker objects themselves, so the flag is read
    from the thread store. *)
Definition is_busy (w : World) (t : tid) : bool :=
  match threads w !! t with
  | Some wk => negb (w_idle wk)
  | None => false
  end.

Definition busy_threads (w : World) (pl : ThreadPool) : nat :=
  length (filter (λ t, is_busy w t = true) (map snd (map_to_list (_workers_ro_copy pl)))).

Definition set_queue (q : Queue A) (pl : ThreadPool) : ThreadPool :=
  mk_ThreadPool (min_threads pl) (max_threads pl) (cpu_check pl) q (name pl)
                (started pl) (_workers pl) (_workers_ro_copy pl).

Definition set_started (b : bool) (pl : ThreadPool) : ThreadPool :=
  mk_ThreadPool (min_threads pl) (max_threads pl) (cpu_check pl) (_queue pl) (name pl)
                b (_workers pl) (_workers_ro_copy pl).

(** [self._workers = ws; self._workers_ro_copy = self._workers.copy()] *)
Definition set_workers (ws : gmap string tid) (pl : ThreadPool) : ThreadPool :=
  mk_ThreadPool (min_threads pl) (max_threads pl) (cpu_check pl) (_queue pl) (name pl)
                (started pl) ws ws.

(** CPUUsage *)
Definition CPUUsage (p : ref) : M Z :=
  let* pl := get_pool p in
  if cpu_check pl then cpu_percent else ret 0%Z.

(** _WorkerThread.__init__, the name: threading's "Thread-N", behind the
    pool's name when it has one. *)
Definition worker_name (pl : ThreadPool) (n : nat) : string :=
  let thread_name := "Thread-" +:+ pretty n in
  if named pl then name pl +:+ "-" +:+ thread_name else thread_name.

(** _WorkerThread.__init__ followed by worker.start(), and the two
    assignments of _AddWorker. The n-th thread of the process is stored
    under the reference n. *)
Definition _AddWorker (p : ref) : M unit :=
  let* pl := get_pool p in
  let* n := gets (λ w, S (thread_counter w)) in
  modify (λ w, mk_World (POOLS w) (objects w) (next_ref w) (threads w) n
                        (STATS w) (logging w) (trace w) (env w)) ;;
  let* now := time_time in
  let worker := mk_WorkerThread (worker_name pl n) p true now AtGet in
  thread_start ;;
  set_thread n worker ;;
  set_pool p (set_workers (<[w_name worker := n]> (_workers pl)) pl).

(** _RemoveWorker *)
Definition _RemoveWorker (p : ref) (key : string) : M unit :=
  let* pl := get_pool p in
  set_pool p (set_workers (delete key (_workers pl)) pl).

(** Start *)
Fixpoint repeat_M (n : nat) (m : M unit) : M unit :=
  match n with
  | O => ret tt
  | S n' => m ;; repeat_M n' m
  end.

Definition Start (p : ref) : M unit :=
  emit (EvStart p) ;;
  let* pl := get_pool p in
  if started pl then ret tt
  else
    set_pool p (set_started true pl) ;;
    repeat_M (Z.to_nat (min_threads pl)) (_AddWorker p).

(** ** _WorkerThread *)

Definition set_pc (t : tid) (c : pc A) : M unit :=
  let* wk := get_thread t in
  set_thread t (mk_WorkerThread (w_name wk) (w_pool wk) (w_idle wk) (w_started wk) c).

Definition set_idle (t : tid) (b : bool) : M unit :=
  let* wk := get_thread t in
  set_thread t (mk_WorkerThread (w_name wk) (w_pool wk) b (w_started wk) (w_pc wk)).

(** [target( *args )] on the thread [by_]. *)
Definition call (by_ : who) (target : A → option exn) (args : A) (task_name : string) : M unit :=
  let raised := target args in
  emit (EvCall by_ task_name args raised) ;;
  match raised with
  | Some e => raise e
  | None => ret tt
  end.

(** [except Exception]: SystemExit and KeyboardInterrupt derive from
    BaseException only, and are not caught. *)
Definition is_Exception (e : exn) : bool :=
  match e with
  | SystemExit | KeyboardInterrupt => false
  | _ => true
  end.

(** [str(e)] (Python 2): raises UnicodeEncodeError when the message of
    [e] is unicode text that ASCII cannot encode. *)
Definition str (e : exn) : M exn :=
  match e with
  | ExceptionU _ => raise UnicodeEncodeError
  | _ => ret e
  end.

(** ProcessTask *)
Definition ProcessTask (t : tid) (tk : task) : M unit :=
  let* wk := get_thread t in
  let* pl := get_pool (w_pool wk) in
  let* start_time :=
    (if named pl then
       let* now := time_time in
       RecordEvent (name pl +:+ "_queueing_time") (now - t_queueing_time tk)%Z ;;
       time_time
     else ret 0%Z) in
  try_except (call (Worker t) (t_target tk) (t_args tk) (t_name tk))
    is_Exception
    (λ e, (if named pl then IncrementCounter (name pl +:+ "_task_exceptions") else ret tt) ;;
          let* message := str e in
          log (LogException (t_name tk) message)) ;;
  if named pl then
    let* now := time_time in
    RecordEvent (name pl +:+ "_working_time") (now - start_time)%Z
  else ret tt.

(** _RemoveFromPool *)
Definition _RemoveFromPool (t : tid) : M bool :=
  let* wk := get_thread t in
  let* pl := get_pool (w_pool wk) in
  if (len pl <=? min_threads pl)%Z then ret false
  else _RemoveWorker (w_pool wk) (w_name wk) ;; ret true.

(** run, top of the loop: [if self.pool.name: self.idle = True], then the
    worker waits in get. *)
Definition loop_top (t : tid) : M unit :=
  let* wk := get_thread t in
  let* pl := get_pool (w_pool wk) in
  (if named pl then set_idle t true else ret tt) ;;
  set_pc t AtGet.

(** run, end of the loop: [if time.time() - self.started > 600 and
    self._RemoveFromPool(): return]. The right operand needs the pool lock,
    so it is a step of its own. *)
Definition age_check (t : tid) : M unit :=
  let* wk := get_thread t in
  let* now := time_time in
  if (600 <? now - w_started wk)%Z then set_pc t AtRemoveAged else loop_top t.

(** [self._queue.task_done()] in the finally clause. *)
Definition queue_task_done (t : tid) (m : message) : M unit :=
  let* wk := get_thread t in
  let* pl := get_pool (w_pool wk) in
  emit (EvTaskDone t m) ;;
  match task_done (_queue pl) with
  | Some q => set_pool (w_pool wk) (set_queue q pl)
  | None => raise ValueError
  end.

Definition lock_is_held (held : option ref) (p : ref) : bool :=
  match held with
  | Some p' => bool_decide (p' = p)
  | None => false
  end.

(** One step of run for worker [t]. [held] is the pool whose lock the
    running caller holds: a worker of that pool cannot enter
    _RemoveFromPool and stays where it is. *)
Definition run_step (held : option ref) (t : tid) : M unit :=
  let* wk := get_thread t in
  let* pl := get_pool (w_pool wk) in
  match w_pc wk with
  | AtGet =>
      match get_nowait (_queue pl) with
      | Some (m, q) =>
          set_pool (w_pool wk) (set_queue q pl) ;;
          (if named pl then set_idle t false else ret tt) ;;
          set_pc t (Holding m)
      | None => set_pc t AtRemoveIdle
      end
  | Holding m =>
      let* returned :=
        try_finally
          (match m with
           | STOP_MESSAGE => ret true
           | Task tk => ProcessTask t tk ;; ret false
           end)
          (queue_task_done t m) in
      if returned then set_pc t Exited else age_check t
  | AtRemoveIdle =>
      if lock_is_held held (w_pool wk) then ret tt
      else
        let* removed := _RemoveFromPool t in
        if removed then set_pc t Exited else age_check t
  | AtRemoveAged =>
      if lock_is_held held (w_pool wk) then ret tt
      else
        let* removed := _RemoveFromPool t in
        if removed then set_pc t Exited else loop_top t
  | Exited => ret tt
  end.

(** An exception that escapes run ends the thread, nothing else. *)
Definition kill (t : tid) (w : World) : World :=
  match threads w !! t with
  | Some wk =>
      set_threads (<[t := mk_WorkerThread (w_name wk) (w_pool wk) (w_idle wk)
                                          (w_started wk) Exited]> (threads w)) w
  | None => w
  end.

Definition worker_step (held : option ref) (t : tid) (w : World) : World :=
  match run_step held t w with
  | (Returns _, w') => w'
  | (_, w') => kill t w'
  end.

(** The running thread lets go: the workers the scheduler picks each take
    a step. *)
Definition yield (held : option ref) : M unit :=
  λ w, let w' := set_env (mk_Env (clock (env w)) (cpu (env w)) (spawn (env w))
                                 (tl (sched (env w)))) w in
       (Returns tt, foldl (λ w t, worker_step held t w) w' (hd [] (sched (env w)))).

(** A blocking wait: the condition is looked at again each time the
    workers have moved. *)
Fixpoint wait_until (fuel : nat) (held : option ref) (cond : World → bool) : M unit :=
  λ w, if cond w then (Returns tt, w)
       else match fuel with
            | O => (Blocked, w)
            | S fuel' => (yield held ;; wait_until fuel' held cond) w
            end.

(** ** ThreadPool: AddTask, Join, Stop *)

(** [self._queue.put((target, args, name, time.time()), block=False)];
    false stands for Queue.Full. *)
Definition put_task (p : ref) (target : A → option exn) (args : A) (task_name : string) : M bool :=
  let* now := time_time in
  let* pl := get_pool p in
  match put_nowait (Task (mk_task target args task_name now)) (_queue pl) with
  | Some q => set_pool p (set_queue q pl) ;; ret true
  | None => ret false
  end.

Definition is_ThreadError (e : exn) : bool :=
  match e with
  | ThreadError => true
  | _ => false
  end.

(** The growth step of AddTask: true when a worker was added (the source's
    [continue]), false when the condition fails or the spawn does. *)
Definition grow (p : ref) : M bool :=
  let* pl := get_pool p in
  let* room :=
    (if (len pl <? max_threads pl)%Z then
       let* usage := CPUUsage p in ret (usage <? 90)%Z
     else ret false) in
  if room then
    try_except (_AddWorker p ;; ret true) is_ThreadError
      (λ _, log (LogError "Threadpool exception: Could not spawn worker threads.") ;;
            ret false)
  else ret false.

(** How one pass through the body of a [while True] ends. *)
Inductive loop_exit :=
| Continue          (* continue, or the end of the body *)
| Break
| Return.

(** The body of the [while True] of AddTask, under the pool lock. *)
Definition AddTask_iteration (p : ref) (target : A → option exn) (args : A)
    (task_name : string) (blocking inline : bool) : M loop_exit :=
  yield (Some p) ;;
  let* pushed := put_task p target args task_name in
  if pushed then ret Return
  else
    let* grew := grow p in
    if grew then ret Continue
    else if inline then ret Break
    else if blocking then
      (* put(..., block=True, timeout=1) *)
      yield (Some p) ;;
      let* pushed := put_task p target args task_name in
      if pushed then ret Return else ret Continue
    else raise Full.

(** The loop: true for the source's [return], false for its [break]. *)
Fixpoint AddTask_loop (fuel : nat) (p : ref) (target : A → option exn) (args : A)
    (task_name : string) (blocking inline : bool) : M bool :=
  match fuel with
  | O => blocked
  | S fuel' =>
      let* exit := AddTask_iteration p target args task_name blocking inline in
      match exit with
      | Return => ret true
      | Break => ret false
      | Continue => AddTask_loop fuel' p target args task_name blocking inline
      end
  end.

Definition AddTask (fuel : nat) (p : ref) (target : A → option exn) (args : A)
    (task_name : string) (blocking inline : bool) : M unit :=
  emit (EvAddTask p target args task_name blocking inline) ;;
  let* pl := get_pool p in
  if (max_threads pl =? 0)%Z then call Caller target args task_name
  else
    let blocking := if inline then false else blocking in
    let* returned := AddTask_loop fuel p target args task_name blocking inline in
    if returned then ret tt
    else if inline then call Caller target args task_name
    else ret tt.

Definition outstanding (p : ref) (w : World) : Z :=
  match objects w !! p with
  | Some pl => unfinished_tasks (_queue pl)
  | None => 0%Z
  end.

(** Join: [self._queue.join()] waits until no message is outstanding. *)
Definition Join (fuel : nat) (held : option ref) (p : ref) : M unit :=
  wait_until fuel held (λ w, bool_decide (outstanding p w = 0%Z)).

Definition has_room (p : ref) (w : World) : bool :=
  match objects w !! p with
  | Some pl => negb (full (_queue pl))
  | None => true
  end.

(** [self._queue.put(STOP_MESSAGE)]: blocks while the queue is full. *)
Definition put_stop (fuel : nat) (p : ref) : M unit :=
  wait_until fuel (Some p) (has_room p) ;;
  let* pl := get_pool p in
  match put_nowait STOP_MESSAGE (_queue pl) with
  | Some q => set_pool p (set_queue q pl)
  | None => blocked
  end.

Definition is_alive (t : tid) (w : World) : bool :=
  match threads w !! t with
  | Some wk => match w_pc wk with Exited => false | _ => true end
  | None => false
  end.

(** [worker.join()] *)
Definition thread_join (fuel : nat) (held : option ref) (t : tid) : M unit :=
  wait_until fuel held (λ w, negb (is_alive t w)).

Fixpoint for_each {X} (l : list X) (body : X → M unit) : M unit :=
  match l with
  | [] => ret tt
  | x :: l' => body x ;; for_each l' body
  end.

Definition Stop (fuel : nat) (p : ref) : M unit :=
  emit (EvStop p) ;;
  let* pl := get_pool p in
  if negb (started pl) then
    log (LogWarning "Tried to stop a thread pool that was not running.")
  else
    let workers := map snd (map_to_list (_workers pl)) in
    set_pool p (set_workers ∅ pl) ;;
    for_each workers (λ _, put_stop fuel p) ;;
    let* pl := get_pool p in
    set_pool p (set_started false pl) ;;
    Join fuel (Some p) p ;;
    for_each workers (λ t, thread_join fuel (Some p) t).

(** ** ThreadPool: construction and the registry *)

(** __init__, the attribute assignments: [max_threads] is raised to
    [min_threads] when absent or smaller, and is the queue's capacity. *)
Definition new_pool (name_ : string) (min_threads_ : Z) (max_threads_ : option Z)
    (cpu_check_ : bool) : ThreadPool :=
  let max_threads_ :=
    match max_threads_ with
    | None => min_threads_
    | Some m => if (m <? min_threads_)%Z then min_threads_ else m
    end in
  mk_ThreadPool min_threads_ max_threads_ cpu_check_
                (mk_Queue max_threads_ [] 0%Z) name_ false ∅ ∅.

Definition set_POOLS (r : gmap string ref) (w : World) : World :=
  mk_World r (objects w) (next_ref w) (threads w) (thread_counter w)
           (STATS w) (logging w) (trace w) (env w).

(** The object comes into being under a fresh reference. *)
Definition allocate (self : ThreadPool) : M ref :=
  λ w, (Returns (next_ref w),
        mk_World (POOLS w) (<[next_ref w := self]> (objects w)) (S (next_ref w))
                 (threads w) (thread_counter w) (STATS w) (logging w) (trace w)
                 (env w)).

(** __init__, with the allocation of the object it initialises: the
    result is the reference to the new pool. *)
Definition ThreadPool_init (name_ : string) (min_threads_ : Z)
    (max_threads_ : option Z) (cpu_check_ : bool) : M ref :=
  let self := new_pool name_ min_threads_ max_threads_ cpu_check_ in
  let* p := gets next_ref in
  (if named self then
     let* pools := gets POOLS in
     if decide (is_Some (pools !! name_)) then raise (DuplicateThreadpoolError name_)
     else
       RegisterGaugeMetric (name_ +:+ "_outstanding_tasks") (GaugeQsize p) ;;
       RegisterGaugeMetric (name_ +:+ "_threads") (GaugeLen p) ;;
       RegisterGaugeMetric (name_ +:+ "_cpu_use") (GaugeCPUUsage p) ;;
       RegisterCounterMetric (name_ +:+ "_task_exceptions") ;;
       RegisterEventMetric (name_ +:+ "_working_time") ;;
       RegisterEventMetric (name_ +:+ "_queueing_time")
   else ret tt) ;;
  allocate self.

(** Factory *)
Definition Factory (name_ : string) (min_threads_ : Z) (max_threads_ : option Z)
    (cpu_check_ : bool) : M ref :=
  let* pools := gets POOLS in
  match pools !! name_ with
  | Some result => ret result
  | None =>
      let* result := ThreadPool_init name_ min_threads_ max_threads_ cpu_check_ in
      modify (λ w, set_POOLS (<[name_ := result]> (POOLS w)) w) ;;
      ret result
  end.

(** The process before any pool exists. *)
Definition init_world (e : Env) : World :=
  mk_World ∅ ∅ 0 ∅ 0 (mk_Stats ∅ ∅ ∅) [] [] e.

End Model.

(** ** BatchConverter *)

Section Batch.

Context {V : Type}.

(** itertools.islice(values, start, stop) *)
Definition islice (values : list V) (start : nat) (stop : option nat) : list V :=
  match stop with
  | None => drop start values
  | Some e => drop start (take e values)
  end.

(** Modelled from the spec: utils.Grouper of grr_response_core.lib.utils,
    which Convert calls and which is not among the sources. The spec has
    it "group into batches of up to batch_size (last batch may be
    shorter)", a batch being "a contiguous slice of the input sequence of
    size at most batch_size": the items are collected in order and a batch
    is handed out each time [n] of them are together, what is left at the
    end making the last batch. *)
Fixpoint Grouper_from (n : nat) (items : list V) (iterable : list V) : list (list V) :=
  match iterable with
  | [] => match items with [] => [] | _ => [items] end
  | x :: rest =>
      let items' := items ++ [x] in
      if length items' =? n then items' :: Grouper_from n [] rest
      else Grouper_from n items' rest
  end.

Definition Grouper (iterable : list V) (n : nat) : list (list V) :=
  Grouper_from n [] iterable.

Definition enumerate {X} (l : list X) : list (nat * X) := zip (seq 0 (length l)) l.

Record BatchConverter := mk_BatchConverter {
  batch_size : nat;
  threadpool_prefix : string;
  threadpool_size : Z;
  ConvertBatch : list V → option exn
}.

(** Convert *)
Definition Convert (fuel : nat) (self : BatchConverter) (values : list V)
    (start_index : nat) (end_index : option nat) : M (list V) unit :=
  match values with
  | [] => ret tt
  | _ =>
      let* total_batch_count :=
        (if batch_size self =? 0 then raise ZeroDivisionError
         else ret (Z.of_nat (length values / batch_size self))) in
      let* pool := Factory (threadpool_prefix self) (threadpool_size self) None true in
      let val_iterator := islice values start_index end_index in
      Start pool ;;
      try_finally
        (for_each (enumerate (Grouper val_iterator (batch_size self)))
           (λ ib,
              log (LogDebug (fst ib) total_batch_count) ;;
              AddTask fuel pool (ConvertBatch self) (snd ib)
                      ("batch_" +:+ pretty (fst ib)) true false))
        (Stop fuel pool)
  end.

End Batch.

Arguments BatchConverter : clear implicits.



(** * The pool as a transition system

    Every method and every step of a worker is a sequence of a few kinds of
    atomic changes to the objects.  The changes are listed once, as a
    labelled relation, and the invariants of the pool are proved against
    them. *)

Section Transitions.

Context {A : Type}.

Local Abbreviation World := (World A).
Local Abbreviation ThreadPool := (ThreadPool A).
Local Abbreviation WorkerThread := (WorkerThread A).

Definition is_api (ev : event A) : bool :=
  match ev with
  | EvAddTask _ _ _ _ _ _ | EvStart _ | EvStop _ => true
  | _ => false
  end.

(** The calls made to the pools, in order. *)
Definition api_trace (w : World) : list (event A) :=
  filter (λ ev, is_api ev = true) (trace w).

(** The part of the world the transitions speak of; the clock, the other
    oracles, the statistics and the log are left out. *)
Definition core (w : World) :=
  (POOLS w, objects w, next_ref w, threads w, thread_counter w, api_trace w).

Definition upd_pool (p : ref) (pl : ThreadPool) (w : World) : World :=
  set_objects (<[p := pl]> (objects w)) w.

Definition upd_thread (t : tid) (wk : WorkerThread) (w : World) : World :=
  set_threads (<[t := wk]> (threads w)) w.

Definition set_counter (n : nat) (w : World) : World :=
  mk_World (POOLS w) (objects w) (next_ref w) (threads w) n
           (STATS w) (logging w) (trace w) (env w).

Definition add_event (ev : event A) (w : World) : World :=
  mk_World (POOLS w) (objects w) (next_ref w) (threads w) (thread_counter w)
           (STATS w) (logging w) (trace w ++ [ev]) (env w).

Definition is_holding (c : pc A) : bool :=
  match c with
  | Holding _ => true
  | _ => false
  end.

Definition with_pc (wk : WorkerThread) (idle : bool) (c : pc A) : WorkerThread :=
  mk_WorkerThread (w_name wk) (w_pool wk) idle (w_started wk) c.

Inductive label :=
| LAux                           (* nothing of the core changes *)
| LApi (ev : event A)            (* a call to a pool is recorded *)
| LPut (p : ref)                 (* a message enters the queue of p *)
| LDequeue (t : tid)             (* worker t takes a message *)
| LHandled (t : tid)             (* worker t is done with its message: task_done *)
| LMove (t : tid)                (* worker t moves on, holding nothing *)
| LRetire (t : tid) (p : ref)    (* _RemoveFromPool succeeds *)
| LAdd (p : ref) (guarded : bool)  (* _AddWorker succeeds; guarded: under len < max_threads *)
| LCounter                       (* a thread name is used up by a failed start *)
| LStarted (p : ref) (b : bool)
| LClear (p : ref)               (* Stop empties the worker dictionaries *)
| LNewPool (p : ref)
| LRegister (n : string) (p : ref).

Inductive mut : label → World → World → Prop :=
| mut_aux w w' :
    core w' = core w → mut LAux w w'
| mut_api ev w w' :
    is_api ev = true →
    core w' = core (add_event ev w) → mut (LApi ev) w w'
| mut_put p pl m q w w' :
    objects w !! p = Some pl →
    put_nowait m (_queue pl) = Some q →
    core w' = core (upd_pool p (set_queue q pl) w) →
    mut (LPut p) w w'
| mut_dequeue t wk pl m q w w' :
    threads w !! t = Some wk →
    w_pc wk = AtGet →
    objects w !! w_pool wk = Some pl →
    get_nowait (_queue pl) = Some (m, q) →
    core w' = core (upd_thread t (with_pc wk (if named pl then false else w_idle wk) (Holding m))
                      (upd_pool (w_pool wk) (set_queue q pl) w)) →
    mut (LDequeue t) w w'
| mut_handled t wk pl m q i c w w' :
    threads w !! t = Some wk →
    w_pc wk = Holding m →
    objects w !! w_pool wk = Some pl →
    task_done (_queue pl) = Some q →
    is_holding c = false →
    (named pl = false → i = w_idle wk) →
    core w' = core (upd_thread t (with_pc wk i c)
                      (upd_pool (w_pool wk) (set_queue q pl) w)) →
    mut (LHandled t) w w'
| mut_move t wk pl i c w w' :
    threads w !! t = Some wk →
    is_holding (w_pc wk) = false →
    objects w !! w_pool wk = Some pl →
    is_holding c = false →
    (named pl = false → i = w_idle wk) →
    core w' = core (upd_thread t (with_pc wk i c) w) →
    mut (LMove t) w w'
| mut_retire t wk pl w w' :
    threads w !! t = Some wk →
    is_holding (w_pc wk) = false →
    objects w !! w_pool wk = Some pl →
    (min_threads pl < len pl)%Z →
    core w' = core (upd_thread t (with_pc wk (w_idle wk) Exited)
                      (upd_pool (w_pool wk)
                         (set_workers (delete (w_name wk) (_workers pl)) pl) w)) →
    mut (LRetire t (w_pool wk)) w w'
| mut_add p pl guarded now w w' :
    objects w !! p = Some pl →
    (guarded = true → (len pl < max_threads pl)%Z) →
    core w' = core (upd_pool p
                      (set_workers (<[worker_name pl (S (thread_counter w))
                                      := S (thread_counter w)]> (_workers pl)) pl)
                      (upd_thread (S (thread_counter w))
                         (mk_WorkerThread (worker_name pl (S (thread_counter w)))
                                          p true now AtGet)
                         (set_counter (S (thread_counter w)) w))) →
    mut (LAdd p guarded) w w'
| mut_counter w w' :
    core w' = core (set_counter (S (thread_counter w)) w) →
    mut LCounter w w'
| mut_started p pl b w w' :
    objects w !! p = Some pl →
    core w' = core (upd_pool p (set_started b pl) w) →
    mut (LStarted p b) w w'
| mut_clear p pl w w' :
    objects w !! p = Some pl →
    core w' = core (upd_pool p (set_workers ∅ pl) w) →
    mut (LClear p) w w'
| mut_new_pool name_ mn mx cc w w' :
    core w' = core (snd (allocate (new_pool name_ mn mx cc) w)) →
    mut (LNewPool (next_ref w)) w w'
| mut_register n r w w' :
    core w' = core (set_POOLS (<[n := r]> (POOLS w)) w) →
    mut (LRegister n r) w w'.

(** A run: transitions whose labels are all [allowed]. *)
Inductive steps (allowed : label → Prop) : World → World → Prop :=
| steps_refl w : steps allowed w w
| steps_cons l w1 w2 w3 :
    allowed l → mut l w1 w2 → steps allowed w2 w3 → steps allowed w1 w3.

(** The transitions of a worker thread. While a caller holds the lock of
    pool [held], no worker of that pool gets through _RemoveFromPool. *)
Definition worker_label (held : option ref) (l : label) : Prop :=
  match l with
  | LAux | LDequeue _ | LHandled _ | LMove _ => True
  | LRetire _ p => held ≠ Some p
  | _ => False
  end.

(** The transitions of the loop of AddTask on pool [p]. *)
Definition AddTask_label (p : ref) (l : label) : Prop :=
  worker_label (Some p) l ∨ l = LPut p ∨ l = LAdd p true ∨ l = LCounter.

Definition Start_label (p : ref) (l : label) : Prop :=
  l = LAux ∨ l = LStarted p true ∨ l = LAdd p false ∨ l = LCounter.

Definition Stop_label (p : ref) (l : label) : Prop :=
  worker_label (Some p) l ∨ l = LClear p ∨ l = LPut p ∨ l = LStarted p false.

(** ** Invariants *)

(** The workers of pool [p] that hold a message they have not yet
    acknowledged. *)
Definition holds_for (p : ref) (kv : tid * WorkerThread) : Prop :=
  w_pool kv.2 = p ∧ is_holding (w_pc kv.2) = true.

Global Instance holds_for_dec p kv : Decision (holds_for p kv).
Proof. unfold holds_for. apply _. Defined.

Definition holding (p : ref) (w : World) : nat :=
  size (filter (holds_for p) (threads w)).

Record wf_pool (w : World) (p : ref) (pl : ThreadPool) : Prop := {
  wf_ro_copy : _workers_ro_copy pl = _workers pl;
  wf_min_max : (min_threads pl ≤ max_threads pl)%Z;
  wf_maxsize : maxsize (_queue pl) = max_threads pl;
  wf_workers : ∀ key t, _workers pl !! key = Some t →
      key = worker_name pl t
      ∧ ∃ wk, threads w !! t = Some wk ∧ w_pool wk = p
}.

Record wf_thread (w : World) (t : tid) (wk : WorkerThread) : Prop := {
  wf_pool_exists : ∃ pl, objects w !! w_pool wk = Some pl
      ∧ w_name wk = worker_name pl t
      ∧ (named pl = false → w_idle wk = true)
}.

Record wf (w : World) : Prop := {
  wf_objects_bound : ∀ p, is_Some (objects w !! p) → p < next_ref w;
  wf_threads_bound : ∀ t, is_Some (threads w !! t) → t ≤ thread_counter w;
  wf_pools : ∀ p pl, objects w !! p = Some pl → wf_pool w p pl;
  wf_threads : ∀ t wk, threads w !! t = Some wk → wf_thread w t wk
}.

(** What task_done has not yet been called for is in the queue or in the
    hands of a worker. *)
Definition accounted (w : World) : Prop :=
  ∀ p pl, objects w !! p = Some pl →
    unfinished_tasks (_queue pl)
    = (Z.of_nat (qsize (_queue pl)) + Z.of_nat (holding p w))%Z.

Definition Inv (w : World) : Prop := wf w ∧ accounted w.

(** A pool made with [max_threads = 0] never has a worker, nor a message
    in its queue. *)
Definition zero_inv (w : World) : Prop :=
  ∀ p pl, objects w !! p = Some pl → max_threads pl = 0%Z →
    _workers pl = ∅ ∧ queue (_queue pl) = [] ∧ holding p w = 0.

(** The size band of a pool. *)
Definition size_band (pl : ThreadPool) : Prop :=
  (min_threads pl ≤ len pl ≤ max_threads pl)%Z.

(** Pool [p] is started and within its band. *)
Definition running_band (p : ref) (w : World) : Prop :=
  ∃ pl, objects w !! p = Some pl ∧ started pl = true ∧ size_band pl.

(** *** The loop of AddTask *)

(** The state in which an iteration of the loop tries its non-blocking
    put: the workers have moved since the caller last looked. *)
Definition at_put (p : ref) (w : World) : World := snd (yield (Some p) w).

(** The queue of pool [p] refuses a put. *)
Definition saturated (p : ref) (w : World) : Prop :=
  ∃ pl, objects w !! p = Some pl ∧ full (_queue pl) = true.

(** What CPUUsage returns next. *)
Definition usage (w : World) (pl : ThreadPool) : Z :=
  if cpu_check pl then hd 0%Z (cpu (env w)) else 0%Z.

(** The growth step adds no worker: the pool is at [max_threads], the CPU
    usage is 90 or more, or the thread cannot be started. *)
Definition no_spawn (p : ref) (w : World) : Prop :=
  ∃ pl, objects w !! p = Some pl
        ∧ ((max_threads pl ≤ len pl)%Z ∨ (90 ≤ usage w pl)%Z
           ∨ hd true (spawn (env w)) = false).

(** [iterations body k w w'], the loop that starts in [w] goes through its
    body [k] times without leaving it, and is in [w'] then. *)
Inductive iterations (body : M A loop_exit) : nat → World → World → Prop :=
| iterations_O w : iterations body 0 w w
| iterations_S k w w1 w2 :
    body w = (Returns Continue, w1) →
    iterations body k w1 w2 →
    iterations body (S k) w w2.

(** The transitions that put a message in a queue or add a worker. *)
Definition feeds (l : label) (p : ref) : Prop :=
  l = LPut p ∨ ∃ guarded, l = LAdd p guarded.

Definition one_if (P : Prop) `{Decision P} : nat := if decide P then 1 else 0.

(** A computation that leaves the core alone. *)
Definition aux_op {R} (m : M A R) : Prop := ∀ w, core (snd (m w)) = core w.

(** A computation that is a run of transitions of the kinds [allowed]. *)
Definition runs {R} (allowed : label → Prop) (m : M A R) : Prop :=
  ∀ w, Inv w → steps allowed w (snd (m w)).

(** A computation that neither reads nor writes the registry: with another
    registry in place it does the same, and leaves that registry as it
    found it. *)
Definition registry_blind {R} (m : M A R) : Prop :=
  ∀ P w, m (set_POOLS P w) = (fst (m w), set_POOLS P (snd (m w))).

(** ** The operations of a process *)

Inductive op :=
| OpInit (name_ : string) (min_threads_ : Z) (max_threads_ : option Z) (cpu_check_ : bool)
| OpFactory (name_ : string) (min_threads_ : Z) (max_threads_ : option Z) (cpu_check_ : bool)
| OpStart (p : ref)
| OpStop (fuel : nat) (p : ref)
| OpJoin (fuel : nat) (p : ref)
| OpAddTask (fuel : nat) (p : ref) (target : A → option exn) (args : A)
            (task_name : string) (blocking inline : bool)
| OpWorker (t : tid).       (* worker t takes a step of run *)

Definition exec (o : op) (w : World) : World :=
  match o with
  | OpInit n mn mx cc => snd (ThreadPool_init n mn mx cc w)
  | OpFactory n mn mx cc => snd (Factory n mn mx cc w)
  | OpStart p => snd (Start p w)
  | OpStop fuel p => snd (Stop fuel p w)
  | OpJoin fuel p => snd (Join fuel None p w)
  | OpAddTask fuel p target args task_name blocking inline =>
      snd (AddTask fuel p target args task_name blocking inline w)
  | OpWorker t => worker_step None t w
  end.

(** The transitions an operation is made of. *)
Definition op_label (o : op) (l : label) : Prop :=
  match o with
  | OpInit _ _ _ _ => l = LAux ∨ ∃ p, l = LNewPool p
  | OpFactory n _ _ _ => l = LAux ∨ (∃ p, l = LNewPool p) ∨ ∃ p, l = LRegister n p
  | OpStart p => l = LApi (EvStart p) ∨ Start_label p l
  | OpStop _ p => l = LApi (EvStop p) ∨ Stop_label p l
  | OpJoin _ _ => worker_label None l
  | OpAddTask _ p target args task_name blocking inline =>
      l = LApi (EvAddTask p target args task_name blocking inline) ∨ AddTask_label p l
  | OpWorker _ => worker_label None l
  end.

Definition is_Stop_of (p : ref) (o : op) : Prop :=
  match o with
  | OpStop _ q => q = p
  | _ => False
  end.

Definition run_ops (ops : list op) (w : World) : World :=
  foldl (λ w o, exec o w) w ops.

(** The states a process can be in. *)
Definition reachable (w : World) : Prop :=
  ∃ e ops, w = run_ops ops (init_world e).

End Transitions.

(** * What the transitions do to a pool *)

Section Changes.

Context {A : Type}.

Local Abbreviation World := (World A).
Local Abbreviation ThreadPool := (ThreadPool A).

(** [pool_change l p pl pl'], transition [l] rewrites pool [p], which was
    [pl], to [pl']. *)
Inductive pool_change : label (A := A) → ref → ThreadPool → ThreadPool → Prop :=
| change_put p pl m q :
    put_nowait m (_queue pl) = Some q →
    pool_change (LPut p) p pl (set_queue q pl)
| change_dequeue t p pl m q :
    get_nowait (_queue pl) = Some (m, q) →
    pool_change (LDequeue t) p pl (set_queue q pl)
| change_handled t p pl q :
    task_done (_queue pl) = Some q →
    pool_change (LHandled t) p pl (set_queue q pl)
| change_retire t p pl key :
    (min_threads pl < len pl)%Z →
    pool_change (LRetire t p) p pl (set_workers (delete key (_workers pl)) pl)
| change_add p guarded pl key n :
    (guarded = true → (len pl < max_threads pl)%Z) →
    pool_change (LAdd p guarded) p pl (set_workers (<[key := n]> (_workers pl)) pl)
| change_started p b pl :
    pool_change (LStarted p b) p pl (set_started b pl)
| change_clear p pl :
    pool_change (LClear p) p pl (set_workers ∅ pl).

(** The queue of a pool with [max_threads > 0] holds at most [max_threads]
    messages. *)
Definition bounded (w : World) : Prop :=
  ∀ p pl, objects w !! p = Some pl → (0 < max_threads pl)%Z →
    (Z.of_nat (pending_tasks pl) ≤ max_threads pl)%Z.

(** Pool [p] has been stopped and nothing of it is left: no worker in the
    dictionary, no message that task_done was not called for. *)
Definition stopped (p : ref) (w : World) : Prop :=
  ∃ pl, objects w !! p = Some pl ∧ started pl = false
        ∧ _workers pl = ∅ ∧ outstanding p w = 0%Z.

(** A computation that writes no thread object but that of [t]. *)
Definition frames {R} (t : tid) (m : M A R) : Prop :=
  ∀ w t', t' ≠ t → threads (snd (m w)) !! t' = threads w !! t'.

(** What leaves ProcessTask when the target has raised [raised]: nothing
    when the exception is caught and logged; the exception itself when
    [except Exception] does not catch it; the UnicodeEncodeError of
    [str(e)] when the handler cannot print it. *)
Definition escapes (raised : option exn) : option exn :=
  match raised with
  | None => None
  | Some e =>
      if is_Exception e then
        match e with
        | ExceptionU _ => Some UnicodeEncodeError
        | _ => None
        end
      else Some e
  end.



(** The workers that Stop captures: [self._workers.values()]. *)
Definition captured (pl : ThreadPool) : list tid :=
  map snd (map_to_list (_workers pl)).

(** Every thread that has not left [run] is a worker of pool [p] that
    waits for the lock of the pool in _RemoveFromPool. *)
Definition all_wait_for_lock (p : ref) (w : World) : Prop :=
  ∀ t wk, threads w !! t = Some wk →
    w_pc wk = Exited
    ∨ (w_pool wk = p ∧ (w_pc wk = AtRemoveIdle ∨ w_pc wk = AtRemoveAged)).

(** The calls of a target made on the calling thread, in order. *)
Definition is_caller_call (ev : event A) : bool :=
  match ev with
  | EvCall Caller _ _ _ => true
  | _ => false
  end.

Definition caller_calls (w : World) : list (event A) :=
  filter (λ ev, is_caller_call ev = true) (trace w).

Definition silent_for_caller (ev : event A) : bool := negb (is_caller_call ev).

(** A computation that leaves the observation [f] of the world as it
    finds it. *)
Definition keeps {X R} (f : World → X) (m : M A R) : Prop :=
  ∀ w, f (snd (m w)) = f w.

End Changes.

(** * MockThreadPool

    The mock pool of the tests: it keeps nothing but its [ignore_errors]
    flag and runs every task on the thread that adds it. *)

Record MockThreadPool := mk_MockThreadPool {
  ignore_errors : bool
}.

Section Mock.

Context {A : Type}.

(** MockThreadPool.__init__: the name and the two sizes are dropped. *)
Definition MockThreadPool_init (name_ : string) (min_threads_ : Z)
    (max_threads_ : option Z) (ignore_errors_ : bool) : MockThreadPool :=
  mk_MockThreadPool ignore_errors_.

(** MockThreadPool.Factory: [ignore_errors] is left at its default. *)
Definition MockThreadPool_Factory (name_ : string) (min_threads_ : Z)
    (max_threads_ : option Z) : MockThreadPool :=
  MockThreadPool_init name_ min_threads_ max_threads_ true.

(** MockThreadPool.AddTask: logging.exception writes at the level of
    logging.error. *)
Definition MockThreadPool_AddTask (self : MockThreadPool) (target : A → option exn)
    (args : A) (task_name : string) : M A unit :=
  try_except (call Caller target args task_name) is_Exception
    (λ e, log (LogError "MockThreadPool worker raised %s") ;;
          if ignore_errors self then ret tt else raise e).

(** MockThreadPool.Start, Stop and Join: [pass]. *)
Definition MockThreadPool_Start (self : MockThreadPool) : M A unit := ret tt.
Definition MockThreadPool_Stop (self : MockThreadPool) : M A unit := ret tt.
Definition MockThreadPool_Join (self : MockThreadPool) : M A unit := ret tt.

(** What leaves MockThreadPool.AddTask when the target has raised
    [raised]: nothing when the exception is caught and the pool ignores
    errors. *)
Definition MockThreadPool_escapes (self : MockThreadPool) (raised : option exn) : option exn :=
  match raised with
  | None => None
  | Some e => if is_Exception e && ignore_errors self then None else Some e
  end.

(** A sequence of tasks added one after the other. *)
Definition MockThreadPool_AddTasks (self : MockThreadPool) (tasks : list (task A)) : M A unit :=
  for_each tasks (λ tk, MockThreadPool_AddTask self (t_target tk) (t_args tk) (t_name tk)).

End Mock.

(** * Concrete processes, for the examples *)

(** Oracles that have nothing to say: the clock stands at 0, the CPU is
    idle, every thread starts, no worker is scheduled. *)
Definition quiet_env : Env := mk_Env [] [] [] [].

(** A task body that raises. *)
Definition boom : nat → option exn := λ _, Some (Exception "boom").


(** A task body that returns. *)
Definition fine : nat → option exn := λ _, None.

(** The pool "p" with one worker, started. *)
Definition started_pool (e : Env) : World nat :=
  run_ops [OpInit "p" 1 None true; OpStart 0] (init_world e).

(** The pool "p" with one worker, started, its queue of one place taken. *)
Definition queued_pool : World nat :=
  run_ops [OpInit "p" 1 None true; OpStart 0; OpAddTask 1 0 fine 1 "a" true true]
    (init_world quiet_env).

(** The pool "p" as its constructor leaves it. *)
Definition new_pool_p : World nat :=
  run_ops [OpInit "p" 1 None true] (init_world quiet_env).

(** Stop has queued the sentinel for the worker of "p", and the worker has
    taken it. *)
Definition stopping_pool : World nat :=
  run_ops [OpInit "p" 1 None true; OpStart 0; OpStop 0 0; OpWorker 1]
    (init_world quiet_env).

(** A pool of no to two threads that three tasks have grown to two. *)
Definition grown_pool : World nat :=
  run_ops [OpInit "p" 0 (Some 2%Z) false;
           OpAddTask 1 0 fine 1 "a" true true;
           OpAddTask 1 0 fine 2 "b" true true;
           OpAddTask 3 0 fine 3 "c" true true]
    (init_world quiet_env).

(** A converter that works on the calling thread, in batches of two. *)
Definition inline_converter : BatchConverter nat :=
  mk_BatchConverter 2 "batch_processor" 0 (λ _, None).


(** The worker of "p" has found the queue empty and is about to ask
    whether it may leave. *)
Definition idle_timeout : World nat :=
  run_ops [OpInit "p" 1 None true; OpStart 0; OpWorker 1] (init_world quiet_env).





(** * Properties *)

(** ** The invariants hold across every transition *)

Section Invariants.

Context {A : Type}.

Local Abbreviation World := (World A).
Local Abbreviation ThreadPool := (ThreadPool A).
Local Abbreviation WorkerThread := (WorkerThread A).

Implicit Types (w : World) (pl : ThreadPool) (wk : WorkerThread).

Lemma named_empty pl : named pl = false ↔ name pl = "".
Proof. unfold named. destruct (decide (name pl = "")); split; congruence. Qed.

Lemma core_fields w w' :
  core w' = core w →
  POOLS w' = POOLS w ∧ objects w' = objects w ∧ next_ref w' = next_ref w
  ∧ threads w' = threads w ∧ thread_counter w' = thread_counter w
  ∧ api_trace w' = api_trace w.
Proof. unfold core. intros H. injection H as -> -> -> -> -> ->. done. Qed.

Lemma holding_core w w' p : threads w' = threads w → holding p w' = holding p w.
Proof. unfold holding. by intros ->. Qed.

Lemma wf_pool_core w w' p pl :
  threads w' = threads w → wf_pool w p pl → wf_pool w' p pl.
Proof.
  intros Ht [H1 H2 H3 H4]. split; try done.
  intros key t Hk. rewrite Ht. by apply H4.
Qed.

Lemma wf_thread_ext w w' t wk :
  objects w' = objects w → wf_thread w t wk → wf_thread w' t wk.
Proof. intros Ho [Hx]. split. by rewrite Ho. Qed.

Lemma wf_ext w w' :
  objects w' = objects w → next_ref w' = next_ref w → threads w' = threads w →
  thread_counter w ≤ thread_counter w' →
  wf w → wf w'.
Proof.
  intros Ho Hn Ht Hc [H1 H2 H3 H4]. split.
  - intros p. rewrite Ho, Hn. apply H1.
  - intros t. rewrite Ht. intros Hs. specialize (H2 t Hs). lia.
  - intros p pl. rewrite Ho. intros Hp. eapply wf_pool_core; eauto.
  - intros t wk. rewrite Ht. intros Hk. eapply wf_thread_ext; eauto.
Qed.

Lemma wf_core w w' : core w' = core w → wf w → wf w'.
Proof.
  intros (_ & Ho & Hn & Ht & Hc & _)%core_fields. apply wf_ext; try done. lia.
Qed.

Lemma accounted_core w w' : core w' = core w → accounted w → accounted w'.
Proof.
  intros (_ & Ho & _ & Ht & _)%core_fields H p pl. rewrite Ho. intros Hp.
  rewrite (holding_core w w') by done. by apply H.
Qed.

Lemma Inv_core w w' : core w' = core w → Inv w → Inv w'.
Proof. intros Hc [H1 H2]. split; eauto using wf_core, accounted_core. Qed.

(** *** Counting the workers that hold a message *)

Lemma holding_upd_thread p t wk wk' w :
  threads w !! t = Some wk →
  holding p (upd_thread t wk' w) + one_if (holds_for p (t, wk))
  = holding p w + one_if (holds_for p (t, wk')).
Proof.
  intros Ht. unfold holding, upd_thread, one_if. simpl.
  rewrite map_filter_insert.
  destruct (decide (holds_for p (t, wk'))) as [Hn|Hn];
    destruct (decide (holds_for p (t, wk))) as [Ho|Ho].
  - rewrite map_size_insert_Some; [lia|].
    exists wk. by apply map_lookup_filter_Some.
  - rewrite map_size_insert_None; [lia|].
    apply map_lookup_filter_None. right. intros x Hx. congruence.
  - rewrite map_filter_delete.
    assert (filter (holds_for p) (threads w) !! t = Some wk) as Hf
      by by apply map_lookup_filter_Some.
    rewrite map_size_delete, Hf. simpl.
    assert (size (filter (holds_for p) (threads w)) ≠ 0); [|lia].
    apply map_size_non_empty_iff. intros He. rewrite He in Hf. by rewrite lookup_empty in Hf.
  - rewrite map_filter_delete, map_size_delete_None; [lia|].
    apply map_lookup_filter_None. right. intros x Hx. congruence.
Qed.

Lemma holding_upd_pool q p x w : holding q (upd_pool p x w) = holding q w.
Proof. done. Qed.

Lemma holding_set_counter q n w : holding q (set_counter n w) = holding q w.
Proof. done. Qed.

Lemma holding_new_thread p t wk' w :
  threads w !! t = None →
  holding p (upd_thread t wk' w) = holding p w + one_if (holds_for p (t, wk')).
Proof.
  intros Ht. unfold holding, upd_thread, one_if. simpl.
  rewrite map_filter_insert.
  destruct (decide (holds_for p (t, wk'))) as [Hn|Hn].
  - rewrite map_size_insert_None; [lia|].
    apply map_lookup_filter_None. by left.
  - rewrite map_filter_delete, map_size_delete_None; [lia|].
    apply map_lookup_filter_None. by left.
Qed.

Lemma one_if_holds_not p t wk :
  is_holding (w_pc wk) = false → one_if (holds_for p (t, wk)) = 0.
Proof.
  intros H. unfold one_if. destruct (decide _) as [[_ Hh]|]; [|done].
  simpl in Hh. congruence.
Qed.

Lemma one_if_holds p t wk :
  is_holding (w_pc wk) = true → w_pool wk = p → one_if (holds_for p (t, wk)) = 1.
Proof.
  intros H Hp. unfold one_if. destruct (decide _) as [|Hn]; [done|].
  destruct Hn. by split.
Qed.

Lemma one_if_holds_other p t wk :
  w_pool wk ≠ p → one_if (holds_for p (t, wk)) = 0.
Proof.
  intros H. unfold one_if. destruct (decide _) as [[Hp _]|]; [|done].
  simpl in Hp. congruence.
Qed.

(** *** Well-formedness under the updates of the store *)

Lemma worker_name_ext pl pl' n :
  name pl' = name pl → worker_name pl' n = worker_name pl n.
Proof. unfold worker_name, named. by intros ->. Qed.

Lemma named_ext pl pl' : name pl' = name pl → named pl' = named pl.
Proof. unfold named. by intros ->. Qed.

Lemma worker_name_inj pl n1 n2 : worker_name pl n1 = worker_name pl n2 → n1 = n2.
Proof.
  unfold worker_name. intros H.
  assert ("Thread-" +:+ pretty n1 = "Thread-" +:+ pretty n2) as H'.
  { destruct (named pl); [|done].
    apply (inj (String.app (name pl))) in H.
    by apply (inj (String.app "-")) in H. }
  apply (inj (String.app "Thread-")) in H'.
  by apply (inj pretty) in H'.
Qed.

Lemma wf_upd_pool w p pl pl' :
  wf w → objects w !! p = Some pl →
  name pl' = name pl →
  (min_threads pl' ≤ max_threads pl')%Z →
  maxsize (_queue pl') = max_threads pl' →
  _workers_ro_copy pl' = _workers pl' →
  (∀ key t, _workers pl' !! key = Some t →
     key = worker_name pl t ∧ ∃ wk, threads w !! t = Some wk ∧ w_pool wk = p) →
  wf (upd_pool p pl' w).
Proof.
  intros [H1 H2 H3 H4] Hp Hname Hmm Hms Hro Hws. split; simpl.
  - intros q [x Hq]. apply H1. destruct (decide (p = q)) as [->|Hne].
    + eauto.
    + rewrite lookup_insert_ne in Hq by done. eauto.
  - done.
  - intros q plq Hq. destruct (decide (p = q)) as [->|Hne].
    + rewrite lookup_insert_eq in Hq. injection Hq as <-.
      split; try done. intros key t Hk. destruct (Hws key t Hk) as [-> Hx].
      split; [by rewrite (worker_name_ext pl pl')|done].
    + rewrite lookup_insert_ne in Hq by done.
      eapply wf_pool_core; [|by apply H3]. done.
  - intros t wk Ht. destruct (H4 t wk Ht) as [(plw & Hplw & Hn & Hi)].
    split. simpl. destruct (decide (p = w_pool wk)) as [->|Hne].
    + exists pl'. rewrite lookup_insert_eq. split; [done|].
      assert (plw = pl) as -> by congruence.
      rewrite (worker_name_ext pl pl'), (named_ext pl pl') by done. done.
    + exists plw. by rewrite lookup_insert_ne.
Qed.

Lemma wf_upd_thread w t wk' :
  wf w → t ≤ thread_counter w →
  (∃ pl, objects w !! w_pool wk' = Some pl ∧ w_name wk' = worker_name pl t
         ∧ (named pl = false → w_idle wk' = true)) →
  (∀ wk, threads w !! t = Some wk → w_pool wk' = w_pool wk) →
  wf (upd_thread t wk' w).
Proof.
  intros [H1 H2 H3 H4] Hb Hpl Hsame. split; simpl.
  - done.
  - intros t0 [x Hx]. destruct (decide (t = t0)) as [->|Hne]; [done|].
    rewrite lookup_insert_ne in Hx by done. eauto.
  - intros q plq Hq. destruct (H3 q plq Hq) as [Ha Hb' Hc Hd].
    split; try done. intros key t0 Hk. destruct (Hd key t0 Hk) as [-> (wk & Hwk & Hq')].
    split; [done|]. simpl. destruct (decide (t = t0)) as [->|Hne].
    + exists wk'. rewrite lookup_insert_eq. split; [done|].
      by rewrite (Hsame wk).
    + exists wk. by rewrite lookup_insert_ne.
  - intros t0 wk Hwk. destruct (decide (t = t0)) as [->|Hne].
    + rewrite lookup_insert_eq in Hwk. injection Hwk as <-. by split.
    + rewrite lookup_insert_ne in Hwk by done. destruct (H4 t0 wk Hwk) as [Hx].
      by split.
Qed.

Lemma wf_set_counter w n : wf w → thread_counter w ≤ n → wf (set_counter n w).
Proof. intros H Hn. by apply (wf_ext w). Qed.

Lemma wf_set_POOLS w r : wf w → wf (set_POOLS r w).
Proof. by apply wf_ext. Qed.

Lemma wf_add_event w ev : wf w → wf (add_event ev w).
Proof. by apply wf_ext. Qed.

Lemma wf_allocate w name_ mn mx cc :
  wf w → wf (snd (allocate (new_pool name_ mn mx cc) w)).
Proof.
  intros [H1 H2 H3 H4]. split; simpl.
  - intros q [x Hq]. destruct (decide (next_ref w = q)) as [<-|Hne]; [lia|].
    rewrite lookup_insert_ne in Hq by done.
    assert (q < next_ref w) by (apply H1; eauto). lia.
  - done.
  - intros q plq Hq. destruct (decide (next_ref w = q)) as [<-|Hne].
    + rewrite lookup_insert_eq in Hq. injection Hq as <-.
      split; simpl; try done.
      destruct mx as [m|]; [|lia]. destruct (Z.ltb_spec m mn); lia.
    + rewrite lookup_insert_ne in Hq by done.
      eapply wf_pool_core; [|by apply H3]. done.
  - intros t wk Ht. destruct (H4 t wk Ht) as [(plw & Hplw & Hn)].
    split. simpl. exists plw. split; [|done].
    rewrite lookup_insert_ne; [done|].
    assert (w_pool wk < next_ref w) by (apply H1; eauto). lia.
Qed.

Lemma put_nowait_Some (m : message A) q q' :
  put_nowait m q = Some q' →
  full q = false ∧ maxsize q' = maxsize q ∧ queue q' = queue q ++ [m]
  ∧ unfinished_tasks q' = (unfinished_tasks q + 1)%Z.
Proof. unfold put_nowait. destruct (full q); [done|]. by intros [= <-]. Qed.

Lemma get_nowait_Some (m : message A) q q' :
  get_nowait q = Some (m, q') →
  maxsize q' = maxsize q ∧ queue q = m :: queue q'
  ∧ unfinished_tasks q' = unfinished_tasks q.
Proof. unfold get_nowait. destruct (queue q); [done|]. by intros [= <- <-]. Qed.

Lemma task_done_Some (q q' : Queue A) :
  task_done q = Some q' →
  maxsize q' = maxsize q ∧ queue q' = queue q
  ∧ unfinished_tasks q' = (unfinished_tasks q - 1)%Z.
Proof.
  unfold task_done. destruct (_ <? _)%Z; [done|]. by intros [= <-].
Qed.

(** A pool keeps its place when only its queue, its flag or its workers
    (for fewer) change. *)
Lemma wf_upd_pool_sub w p pl pl' :
  wf w → objects w !! p = Some pl →
  name pl' = name pl → min_threads pl' = min_threads pl →
  max_threads pl' = max_threads pl →
  maxsize (_queue pl') = maxsize (_queue pl) →
  _workers_ro_copy pl' = _workers pl' →
  (∀ key t, _workers pl' !! key = Some t → _workers pl !! key = Some t) →
  wf (upd_pool p pl' w).
Proof.
  intros Hwf Hp Hn Hmin Hmax Hms Hro Hsub.
  destruct (wf_pools w Hwf p pl Hp) as [H1 H2 H3 H4].
  eapply wf_upd_pool; eauto; [lia|congruence].
Qed.

Lemma wf_set_queue w p pl q :
  wf w → objects w !! p = Some pl → maxsize q = maxsize (_queue pl) →
  wf (upd_pool p (set_queue q pl) w).
Proof.
  intros Hwf Hp Hms. eapply wf_upd_pool_sub; eauto.
  simpl. by destruct (wf_pools w Hwf p pl Hp).
Qed.

Lemma wf_set_started w p pl b :
  wf w → objects w !! p = Some pl → wf (upd_pool p (set_started b pl) w).
Proof.
  intros Hwf Hp. eapply wf_upd_pool_sub; eauto.
  simpl. by destruct (wf_pools w Hwf p pl Hp).
Qed.

Lemma wf_with_pc w t wk i c pl :
  wf w → threads w !! t = Some wk →
  objects w !! w_pool wk = Some pl →
  (named pl = false → i = true) →
  wf (upd_thread t (with_pc wk i c) w).
Proof.
  intros Hwf Ht Hp Hi.
  destruct (wf_threads w Hwf t wk Ht) as [(pl0 & Hpl0 & Hn & _)].
  assert (pl0 = pl) as -> by congruence.
  apply wf_upd_thread; [done| |exists pl; by simpl|].
  - apply (wf_threads_bound w Hwf). eauto.
  - intros wk0 Hwk0. simpl. congruence.
Qed.

Lemma wf_idle_unnamed w t wk pl :
  wf w → threads w !! t = Some wk → objects w !! w_pool wk = Some pl →
  named pl = false → w_idle wk = true.
Proof.
  intros Hwf Ht Hp Hn.
  destruct (wf_threads w Hwf t wk Ht) as [(pl0 & Hpl0 & _ & Hi)].
  assert (pl0 = pl) as -> by congruence. auto.
Qed.

Lemma mut_wf l w w' : mut l w w' → wf w → wf w'.
Proof.
  intros Hm Hwf. destruct Hm.
  - by eapply wf_core.
  - eapply wf_core; [done|]. by apply wf_add_event.
  - eapply wf_core; [done|].
    destruct (put_nowait_Some _ _ _ H0) as (_ & Hms & _).
    by eapply wf_set_queue.
  - eapply wf_core; [done|].
    destruct (get_nowait_Some _ _ _ H2) as (Hms & _).
    eapply (wf_with_pc _ _ _ _ _ (set_queue q pl)).
    + by eapply wf_set_queue.
    + done.
    + simpl. by rewrite lookup_insert_eq.
    + change (named (set_queue q pl)) with (named pl). intros Hn. rewrite Hn.
      by eapply wf_idle_unnamed.
  - eapply wf_core; [done|].
    destruct (task_done_Some _ _ H2) as (Hms & _).
    eapply (wf_with_pc _ _ _ _ _ (set_queue q pl)).
    + by eapply wf_set_queue.
    + done.
    + simpl. by rewrite lookup_insert_eq.
    + change (named (set_queue q pl)) with (named pl). intros Hn. rewrite H4 by done.
      by eapply wf_idle_unnamed.
  - eapply wf_core; [done|].
    eapply wf_with_pc; eauto.
    intros Hn. rewrite H3 by done. by eapply wf_idle_unnamed.
  - eapply wf_core; [done|].
    eapply (wf_with_pc _ _ _ _ _ (set_workers (delete (w_name wk) (_workers pl)) pl)).
    + eapply wf_upd_pool_sub; eauto.
      simpl. intros key t0. rewrite lookup_delete_Some. tauto.
    + done.
    + simpl. by rewrite lookup_insert_eq.
    + intros Hn. by eapply wf_idle_unnamed.
  - eapply wf_core; [done|].
    set (n := S (thread_counter w)).
    assert (wf (set_counter n w)) as Hwf1 by (apply wf_set_counter; [done|lia]).
    assert (threads w !! n = None) as Hfresh.
    { destruct (threads w !! n) eqn:E; [|done].
      assert (n ≤ thread_counter w) by (apply (wf_threads_bound w Hwf); eauto).
      lia. }
    assert (wf (upd_thread n (mk_WorkerThread (worker_name pl n) p true now AtGet)
                  (set_counter n w))) as Hwf2.
    { apply wf_upd_thread; [done|simpl; lia| |].
      - exists pl. by simpl.
      - simpl. intros wk0. by rewrite Hfresh. }
    destruct (wf_pools w Hwf p pl H) as [Ha Hb Hc Hd].
    eapply wf_upd_pool; [apply Hwf2|done|done|done|done|done|].
    simpl. intros key t. rewrite lookup_insert_Some.
    intros [[<- <-]|[Hne Hk]].
    + split; [done|]. eexists. rewrite lookup_insert_eq. done.
    + destruct (Hd key t Hk) as [-> (wk & Hwk & Hpw)]. split; [done|].
      exists wk. rewrite lookup_insert_ne; [done|]. intros <-. congruence.
  - eapply wf_core; [done|]. apply wf_set_counter; [done|lia].
  - eapply wf_core; [done|]. by eapply wf_set_started.
  - eapply wf_core; [done|]. eapply wf_upd_pool_sub; eauto.
    simpl. intros key t. by rewrite lookup_empty.
  - eapply wf_core; [done|]. by apply wf_allocate.
  - eapply wf_core; [done|]. by apply wf_set_POOLS.
Qed.

(** *** The accounting of the queue *)

Lemma holding_none w p : wf w → objects w !! p = None → holding p w = 0.
Proof.
  intros Hwf Hp. unfold holding. apply map_size_empty_iff.
  apply map_eq. intros t. rewrite lookup_empty.
  apply map_lookup_filter_None. right. intros wk Ht [Hpool _]. simpl in Hpool.
  destruct (wf_threads w Hwf t wk Ht) as [(pl & Hpl & _)]. congruence.
Qed.

Lemma accounted_ext w w' :
  objects w' = objects w → threads w' = threads w → accounted w → accounted w'.
Proof.
  intros Ho Ht H p pl. rewrite Ho. intros Hp.
  rewrite (holding_core w w') by done. by apply H.
Qed.

(** The queue of one pool and the state of one of its workers change
    together: the balance is kept when the changes cancel out. *)
Lemma accounted_upd_both w p pl q t wk wk' :
  accounted w → objects w !! p = Some pl →
  threads w !! t = Some wk → w_pool wk = p → w_pool wk' = p →
  (unfinished_tasks q - Z.of_nat (qsize q) - Z.of_nat (one_if (holds_for p (t, wk')))
   = unfinished_tasks (_queue pl) - Z.of_nat (qsize (_queue pl))
     - Z.of_nat (one_if (holds_for p (t, wk))))%Z →
  accounted (upd_thread t wk' (upd_pool p (set_queue q pl) w)).
Proof.
  intros Hacc Hp Ht Hpw Hpw' Hbal q0 pl0. simpl.
  pose proof (holding_upd_thread q0 t wk wk' (upd_pool p (set_queue q pl) w) Ht) as Hh.
  change (holding q0 (upd_pool p (set_queue q pl) w)) with (holding q0 w) in Hh.
  destruct (decide (p = q0)) as [<-|Hne].
  - rewrite lookup_insert_eq. intros [= <-]. simpl.
    specialize (Hacc p pl Hp). lia.
  - rewrite lookup_insert_ne by done. intros Hq0.
    specialize (Hacc q0 pl0 Hq0).
    rewrite !one_if_holds_other in Hh by congruence. lia.
Qed.

(** Only the rest of a pool changes, or a worker that holds nothing moves. *)
Lemma accounted_upd_pool w p pl pl' :
  accounted w → objects w !! p = Some pl → _queue pl' = _queue pl →
  accounted (upd_pool p pl' w).
Proof.
  intros Hacc Hp Hq q0 pl0. simpl.
  change (holding q0 (upd_pool p pl' w)) with (holding q0 w).
  destruct (decide (p = q0)) as [<-|Hne].
  - rewrite lookup_insert_eq. intros [= <-]. rewrite Hq. by apply Hacc.
  - rewrite lookup_insert_ne by done. apply Hacc.
Qed.

Lemma accounted_upd_thread w t wk wk' :
  accounted w → threads w !! t = Some wk →
  is_holding (w_pc wk) = false → is_holding (w_pc wk') = false →
  accounted (upd_thread t wk' w).
Proof.
  intros Hacc Ht Hh Hh' q0 pl0. simpl. intros Hq0.
  pose proof (holding_upd_thread q0 t wk wk' w Ht) as Hx.
  rewrite !one_if_holds_not in Hx by done.
  specialize (Hacc q0 pl0 Hq0). lia.
Qed.

Lemma mut_accounted l w w' : mut l w w' → wf w → accounted w → accounted w'.
Proof.
  intros Hm Hwf Hacc. destruct Hm.
  - by eapply accounted_core.
  - eapply accounted_core; [done|]. by eapply accounted_ext.
  - eapply accounted_core; [done|].
    destruct (put_nowait_Some _ _ _ H0) as (_ & _ & Hq & Hu).
    intros q0 pl0. simpl.
    change (holding q0 (upd_pool p (set_queue q pl) w)) with (holding q0 w).
    destruct (decide (p = q0)) as [<-|Hne].
    + rewrite lookup_insert_eq. intros [= <-]. simpl.
      specialize (Hacc p pl H). unfold qsize in *. rewrite Hq, Hu, length_app. simpl. lia.
    + rewrite lookup_insert_ne by done. apply Hacc.
  - eapply accounted_core; [done|].
    destruct (get_nowait_Some _ _ _ H2) as (_ & Hq & Hu).
    eapply accounted_upd_both; eauto.
    rewrite (one_if_holds_not _ _ wk) by (by rewrite H0).
    rewrite (one_if_holds (w_pool wk)) by done.
    unfold qsize. rewrite Hq, Hu. simpl. lia.
  - eapply accounted_core; [done|].
    destruct (task_done_Some _ _ H2) as (_ & Hq & Hu).
    eapply accounted_upd_both; eauto.
    rewrite (one_if_holds_not _ _ (with_pc wk i c)) by done.
    rewrite (one_if_holds (w_pool wk) _ wk) by (by rewrite ?H0).
    unfold qsize. rewrite Hq, Hu. simpl. lia.
  - eapply accounted_core; [done|]. by eapply accounted_upd_thread.
  - eapply accounted_core; [done|].
    eapply accounted_upd_thread; [|done|done|done].
    by eapply accounted_upd_pool.
  - eapply accounted_core; [done|].
    eapply (accounted_upd_pool _ p pl); [| |done].
    + intros q0 pl0. simpl. intros Hq0.
      rewrite holding_new_thread.
      * rewrite one_if_holds_not by done.
        change (holding q0 (set_counter (S (thread_counter w)) w)) with (holding q0 w).
        specialize (Hacc q0 pl0 Hq0). lia.
      * simpl. destruct (threads w !! S (thread_counter w)) eqn:E; [|done].
        assert (S (thread_counter w) ≤ thread_counter w)
          by (apply (wf_threads_bound w Hwf); eauto).
        lia.
    + done.
  - eapply accounted_core; [done|]. by eapply accounted_ext.
  - eapply accounted_core; [done|]. by eapply accounted_upd_pool.
  - eapply accounted_core; [done|]. by eapply accounted_upd_pool.
  - eapply accounted_core; [done|].
    intros q0 pl0. simpl.
    change (holding q0 _) with (holding q0 w).
    destruct (decide (next_ref w = q0)) as [<-|Hne].
    + rewrite lookup_insert_eq. intros [= <-]. simpl.
      rewrite holding_none; [done|done|].
      destruct (objects w !! next_ref w) eqn:E; [|done].
      assert (next_ref w < next_ref w) by (apply (wf_objects_bound w Hwf); eauto).
      lia.
    + rewrite lookup_insert_ne by done. apply Hacc.
  - eapply accounted_core; [done|]. by eapply accounted_ext.
Qed.

Lemma Inv_add_event w ev : Inv w → Inv (add_event ev w).
Proof.
  intros [H1 H2]. split; [by apply wf_add_event|by apply (accounted_ext w)].
Qed.

Lemma mut_Inv l w w' : mut l w w' → Inv w → Inv w'.
Proof. intros Hm [H1 H2]. split; eauto using mut_wf, mut_accounted. Qed.

Lemma mut_core l w w' w'' : mut l w w' → core w'' = core w' → mut l w w''.
Proof.
  intros Hm Hc. destruct Hm; rewrite <- Hc in *.
  - by eapply mut_aux.
  - by eapply mut_api.
  - by eapply mut_put.
  - by eapply mut_dequeue.
  - by eapply mut_handled.
  - by eapply mut_move.
  - by eapply mut_retire.
  - by eapply mut_add.
  - by eapply mut_counter.
  - by eapply mut_started.
  - by eapply mut_clear.
  - by eapply mut_new_pool.
  - by eapply mut_register.
Qed.

Lemma steps_Inv allowed w w' : steps allowed w w' → Inv w → Inv w'.
Proof. induction 1; eauto using mut_Inv. Qed.

Lemma steps_trans allowed w1 w2 w3 :
  steps allowed w1 w2 → steps allowed w2 w3 → steps allowed w1 w3.
Proof. induction 1; eauto using steps_cons. Qed.

Lemma steps_one (allowed : label → Prop) l w w' :
  allowed l → mut l w w' → steps allowed w w'.
Proof. intros. eapply steps_cons; eauto using steps_refl. Qed.

Lemma steps_mono (allowed allowed' : label → Prop) w w' :
  (∀ l, allowed l → allowed' l) → steps allowed w w' → steps allowed' w w'.
Proof. intros Hsub. induction 1; eauto using steps_refl, steps_cons. Qed.

End Invariants.

(** ** Every operation is a run of the transition system *)

Section Runs.

Context {A : Type}.

Local Abbreviation World := (World A).
Local Abbreviation ThreadPool := (ThreadPool A).
Local Abbreviation WorkerThread := (WorkerThread A).
Local Abbreviation M := (M A).
Local Abbreviation aux_op := (aux_op (A := A)).
Local Abbreviation runs := (runs (A := A)).

Implicit Types (w : World) (pl : ThreadPool) (wk : WorkerThread).

Lemma aux_ret {R} (r : R) : aux_op (ret r).
Proof. done. Qed.

Lemma aux_raise {R} e : aux_op (raise (R := R) e).
Proof. done. Qed.

Lemma aux_gets {R} (f : World → R) : aux_op (gets f).
Proof. done. Qed.

Lemma aux_bind {R S} (m : M R) (k : R → M S) :
  aux_op m → (∀ x, aux_op (k x)) → aux_op (bind m k).
Proof.
  intros Hm Hk w. unfold bind. specialize (Hm w).
  destruct (m w) as [[x|e|] w1]; simpl in *; [|done..].
  by rewrite Hk.
Qed.

Lemma aux_try_except {R} (m : M R) catches handler :
  aux_op m → (∀ e, aux_op (handler e)) → aux_op (try_except m catches handler).
Proof.
  intros Hm Hh w. unfold try_except. specialize (Hm w).
  destruct (m w) as [[x|e|] w1]; simpl in *; [done| |done].
  destruct (catches e); [|done]. by rewrite Hh.
Qed.

Lemma aux_get_pool p : aux_op (get_pool p).
Proof. intros w. unfold get_pool. by destruct (objects w !! p). Qed.

Lemma aux_get_thread t : aux_op (get_thread t).
Proof. intros w. unfold get_thread. by destruct (threads w !! t). Qed.

Lemma aux_time_time : aux_op time_time.
Proof. done. Qed.

Lemma aux_cpu_percent : aux_op cpu_percent.
Proof. done. Qed.

Lemma aux_thread_start : aux_op thread_start.
Proof. intros w. unfold thread_start. by destruct (hd true _). Qed.

Lemma aux_RecordEvent n v : aux_op (RecordEvent n v).
Proof. done. Qed.

Lemma aux_IncrementCounter n : aux_op (IncrementCounter n).
Proof. done. Qed.

Lemma aux_RegisterGaugeMetric n cb : aux_op (RegisterGaugeMetric n cb).
Proof. done. Qed.

Lemma aux_RegisterCounterMetric n : aux_op (RegisterCounterMetric n).
Proof. done. Qed.

Lemma aux_RegisterEventMetric n : aux_op (RegisterEventMetric n).
Proof. done. Qed.

Lemma aux_log r : aux_op (log r).
Proof. done. Qed.

Lemma api_trace_add_event ev w :
  api_trace (add_event ev w)
  = api_trace w ++ (if is_api ev then [ev] else []).
Proof.
  unfold api_trace. simpl. rewrite filter_app. f_equal.
  destruct (is_api ev) eqn:E.
  - by rewrite filter_cons_True, filter_nil.
  - rewrite filter_cons_False, filter_nil; [done|]. by rewrite E.
Qed.

Lemma aux_emit ev : is_api ev = false → aux_op (emit ev).
Proof.
  intros He w. unfold emit, modify, core. simpl.
  change (mk_World (POOLS w) (objects w) (next_ref w) (threads w) (thread_counter w)
            (STATS w) (logging w) (trace w ++ [ev]) (env w)) with (add_event ev w).
  rewrite api_trace_add_event, He. by rewrite app_nil_r.
Qed.

Lemma aux_CPUUsage p : aux_op (CPUUsage p).
Proof.
  apply aux_bind; [apply aux_get_pool|]. intros pl.
  destruct (cpu_check pl); [apply aux_cpu_percent|apply aux_ret].
Qed.

Lemma aux_call by_ target args task_name : aux_op (call by_ target args task_name).
Proof.
  apply aux_bind; [by apply aux_emit|]. intros _.
  destruct (target args); [apply aux_raise|apply aux_ret].
Qed.

Lemma call_eq by_ (target : A → option exn) args task_name w :
  call by_ target args task_name w
  = (match target args with Some e => Raises e | None => Returns tt end,
     add_event (EvCall by_ task_name args (target args)) w).
Proof. unfold call, bind, emit, modify. simpl. by destruct (target args). Qed.

Lemma aux_str e : aux_op (str e).
Proof. destruct e; first [apply aux_raise|apply aux_ret]. Qed.

Lemma aux_ProcessTask t tk : aux_op (ProcessTask t tk).
Proof.
  apply aux_bind; [apply aux_get_thread|]. intros wk.
  apply aux_bind; [apply aux_get_pool|]. intros pl.
  apply aux_bind.
  { destruct (named pl); [|apply aux_ret].
    apply aux_bind; [apply aux_time_time|]. intros now.
    apply aux_bind; [apply aux_RecordEvent|]. intros _. apply aux_time_time. }
  intros start_time.
  apply aux_bind.
  { apply aux_try_except; [apply aux_call|]. intros e.
    apply aux_bind.
    - destruct (named pl); [apply aux_IncrementCounter|apply aux_ret].
    - intros _. apply aux_bind; [apply aux_str|]. intros message. apply aux_log. }
  intros _. destruct (named pl); [|apply aux_ret].
  apply aux_bind; [apply aux_time_time|]. intros now. apply aux_RecordEvent.
Qed.

(** *** The core after the small steps *)

Lemma core_upd_thread w w1 t x :
  core w1 = core w → core (upd_thread t x w1) = core (upd_thread t x w).
Proof.
  intros (H1 & H2 & H3 & H4 & H5 & H6)%core_fields. unfold core, api_trace in *.
  simpl. by rewrite H1, H2, H3, H4, H5, H6.
Qed.

Lemma core_upd_pool w w1 p x :
  core w1 = core w → core (upd_pool p x w1) = core (upd_pool p x w).
Proof.
  intros (H1 & H2 & H3 & H4 & H5 & H6)%core_fields. unfold core, api_trace in *.
  simpl. by rewrite H1, H2, H3, H4, H5, H6.
Qed.

Lemma get_thread_eq w t wk : threads w !! t = Some wk → get_thread t w = (Returns wk, w).
Proof. unfold get_thread. by intros ->. Qed.

Lemma get_pool_eq w p pl : objects w !! p = Some pl → get_pool p w = (Returns pl, w).
Proof. unfold get_pool. by intros ->. Qed.

Lemma set_pc_eq w t wk c :
  threads w !! t = Some wk →
  set_pc t c w = (Returns tt, upd_thread t (with_pc wk (w_idle wk) c) w).
Proof. intros Ht. unfold set_pc, bind. by rewrite (get_thread_eq w t wk). Qed.

Lemma set_idle_eq w t wk b :
  threads w !! t = Some wk →
  set_idle t b w = (Returns tt, upd_thread t (with_pc wk b (w_pc wk)) w).
Proof. intros Ht. unfold set_idle, bind. by rewrite (get_thread_eq w t wk). Qed.

Lemma upd_thread_twice w t x y :
  upd_thread t x (upd_thread t y w) = upd_thread t x w.
Proof. unfold upd_thread, set_threads. simpl. by rewrite insert_insert_eq. Qed.

Lemma loop_top_eq w t wk pl :
  threads w !! t = Some wk → objects w !! w_pool wk = Some pl →
  loop_top t w
  = (Returns tt, upd_thread t (with_pc wk (if named pl then true else w_idle wk) AtGet) w).
Proof.
  intros Ht Hp. unfold loop_top, bind.
  rewrite (get_thread_eq w t wk), (get_pool_eq w _ pl) by done.
  destruct (named pl).
  - rewrite (set_idle_eq w t wk) by done.
    erewrite set_pc_eq by (simpl; apply lookup_insert_eq).
    by rewrite upd_thread_twice.
  - simpl. by rewrite (set_pc_eq w t wk).
Qed.

Lemma age_check_spec w t wk pl :
  threads w !! t = Some wk → objects w !! w_pool wk = Some pl →
  fst (age_check t w) = Returns tt
  ∧ ∃ i c, is_holding c = false ∧ (named pl = false → i = w_idle wk)
           ∧ core (snd (age_check t w)) = core (upd_thread t (with_pc wk i c) w).
Proof.
  intros Ht Hp. unfold age_check, bind.
  rewrite (get_thread_eq w t wk) by done. simpl.
  set (w1 := set_env _ w).
  destruct (600 <? _)%Z.
  - rewrite (set_pc_eq w1 t wk) by done. split; [done|].
    exists (w_idle wk), AtRemoveAged. repeat split; try done.
  - rewrite (loop_top_eq w1 t wk pl) by done. split; [done|].
    exists (if named pl then true else w_idle wk), AtGet. repeat split; try done.
    by intros ->.
Qed.

Lemma queue_task_done_spec w t m wk pl q :
  threads w !! t = Some wk → objects w !! w_pool wk = Some pl →
  task_done (_queue pl) = Some q →
  fst (queue_task_done t m w) = Returns tt
  ∧ core (snd (queue_task_done t m w)) = core (upd_pool (w_pool wk) (set_queue q pl) w)
  ∧ threads (snd (queue_task_done t m w)) = threads w.
Proof.
  intros Ht Hp Hq. unfold queue_task_done, bind.
  rewrite (get_thread_eq w t wk), (get_pool_eq w _ pl) by done.
  simpl. rewrite Hq. simpl. repeat split; try done.
  apply (core_upd_pool w (add_event (EvTaskDone t m) w)).
  by apply (aux_emit (EvTaskDone t m)).
Qed.

Lemma _RemoveFromPool_eq w t wk pl :
  threads w !! t = Some wk → objects w !! w_pool wk = Some pl →
  _RemoveFromPool t w
  = if (len pl <=? min_threads pl)%Z then (Returns false, w)
    else (Returns true,
          upd_pool (w_pool wk) (set_workers (delete (w_name wk) (_workers pl)) pl) w).
Proof.
  intros Ht Hp. unfold _RemoveFromPool, bind.
  rewrite (get_thread_eq w t wk), (get_pool_eq w _ pl) by done.
  destruct (_ <=? _)%Z; [done|].
  unfold _RemoveWorker, bind. by rewrite (get_pool_eq w _ pl).
Qed.

(** ProcessTask comes to an end: it returns, or an exception that
    [except Exception] does not catch, or that the handler raises, leaves
    it. *)
Lemma ProcessTask_ends w t tk wk pl :
  threads w !! t = Some wk → objects w !! w_pool wk = Some pl →
  fst (ProcessTask t tk w) ≠ Blocked.
Proof.
  intros Ht Hp. unfold ProcessTask, bind at 1 2.
  rewrite (get_thread_eq w t wk), (get_pool_eq w _ pl) by done.
  unfold call, try_except, bind, emit, modify, raise, ret, log, time_time,
    RecordEvent, IncrementCounter.
  destruct (named pl); simpl; destruct (t_target tk (t_args tk)) as [[]|]; done.
Qed.

Lemma holding_pos w t wk :
  threads w !! t = Some wk → is_holding (w_pc wk) = true →
  0 < holding (w_pool wk) w.
Proof.
  intros Ht Hh. unfold holding.
  assert (filter (holds_for (w_pool wk)) (threads w) !! t = Some wk) as Hf.
  { apply map_lookup_filter_Some. by repeat split. }
  assert (size (filter (holds_for (w_pool wk)) (threads w)) ≠ 0); [|lia].
  apply map_size_non_empty_iff. intros He. rewrite He in Hf.
  by rewrite lookup_empty in Hf.
Qed.

Lemma kill_eq w t wk :
  threads w !! t = Some wk →
  kill t w = upd_thread t (with_pc wk (w_idle wk) Exited) w.
Proof. unfold kill. by intros ->. Qed.

Lemma lock_is_held_false held p : lock_is_held held p = false → held ≠ Some p.
Proof.
  unfold lock_is_held. destruct held as [p'|]; [|done].
  intros Hd [= ->]. by rewrite bool_decide_eq_false in Hd.
Qed.

(** A step of a worker is one transition. *)
Lemma worker_step_mut held t w :
  Inv w → ∃ l, worker_label held l ∧ mut l w (worker_step held t w).
Proof.
  intros [Hwf Hacc]. unfold worker_step, run_step.
  destruct (threads w !! t) as [wk|] eqn:Ht.
  2:{ exists LAux. split; [done|]. apply mut_aux.
      unfold bind at 1. unfold get_thread. rewrite Ht. unfold kill. by rewrite Ht. }
  destruct (wf_threads w Hwf t wk Ht) as [(pl & Hp & Hname & Hidle)].
  unfold bind at 1 2.
  rewrite (get_thread_eq w t wk), (get_pool_eq w _ pl) by done.
  destruct (w_pc wk) as [|m| | |] eqn:Hpc.
  - (* waiting in get *)
    destruct (get_nowait (_queue pl)) as [[m q]|] eqn:Hget.
    + exists (LDequeue t). split; [done|].
      eapply mut_dequeue; eauto.
      unfold bind, set_pool, modify.
      set (w1 := set_objects _ w).
      assert (threads w1 !! t = Some wk) as Ht1 by done.
      destruct (named pl).
      * rewrite (set_idle_eq w1 t wk) by done.
        erewrite set_pc_eq by (simpl; apply lookup_insert_eq).
        by rewrite upd_thread_twice, Hpc.
      * simpl. by rewrite (set_pc_eq w1 t wk).
    + exists (LMove t). split; [done|].
      rewrite (set_pc_eq w t wk) by done.
      eapply (mut_move t wk pl (w_idle wk) AtRemoveIdle); eauto. by rewrite Hpc.
  - (* a message in hand *)
    exists (LHandled t). split; [done|].
    assert (∃ q, task_done (_queue pl) = Some q) as [q Hq].
    { unfold task_done. destruct (_ <? _)%Z eqn:E; [|eauto].
      apply Z.ltb_lt in E. specialize (Hacc _ _ Hp).
      pose proof (holding_pos w t wk Ht) as Hh. rewrite Hpc in Hh.
      specialize (Hh eq_refl). lia. }
    assert (∃ r w1, (match m with
                     | STOP_MESSAGE => ret true
                     | Task tk => ProcessTask t tk;; ret false
                     end) w = (r, w1) ∧ r ≠ Blocked ∧ core w1 = core w)
      as (r & w1 & Hbody & Hr & Hc1).
    { destruct m as [|tk].
      - by exists (Returns true), w.
      - pose proof (ProcessTask_ends w t tk wk pl Ht Hp) as Hr.
        pose proof (aux_ProcessTask t tk w) as Hc.
        unfold bind. destruct (ProcessTask t tk w) as [[[]|e|] w1]; simpl in *;
          [by exists (Returns false), w1|by exists (Raises e), w1|done]. }
    destruct (core_fields _ _ Hc1) as (_ & Ho1 & _ & Ht1 & _).
    unfold bind at 1. unfold try_finally. rewrite Hbody.
    destruct (queue_task_done_spec w1 t m wk pl q) as (Hr2 & Hc2 & Ht2);
      [by rewrite Ht1|by rewrite Ho1|done|].
    destruct (queue_task_done t m w1) as [r2 w2]. simpl in Hr2, Hc2, Ht2. subst r2.
    assert (core w2 = core (upd_pool (w_pool wk) (set_queue q pl) w)) as Hc2'.
    { rewrite Hc2. by apply core_upd_pool. }
    assert (threads w2 !! t = Some wk) as Ht2' by (by rewrite Ht2, Ht1).
    assert (objects w2 !! w_pool wk = Some (set_queue q pl)) as Hp2.
    { destruct (core_fields _ _ Hc2') as (_ & -> & _). simpl. apply lookup_insert_eq. }
    destruct r as [[]|e|]; [| | |done].
    + rewrite (set_pc_eq w2 t wk) by done.
      eapply (mut_handled t wk pl m q (w_idle wk) Exited); eauto.
      by apply core_upd_thread.
    + destruct (age_check_spec w2 t wk (set_queue q pl) Ht2' Hp2)
        as (Hr3 & i & c & Hc & Hi & Hc3).
      destruct (age_check t w2) as [r3 w3]. simpl in Hr3, Hc3. subst r3.
      eapply (mut_handled t wk pl m q i c); eauto.
      rewrite Hc3. by apply core_upd_thread.
    + (* the exception ends the thread *)
      rewrite (kill_eq w2 t wk) by done.
      eapply (mut_handled t wk pl m q (w_idle wk) Exited); eauto.
      by apply core_upd_thread.
  - (* after the timeout *)
    destruct (lock_is_held held (w_pool wk)) eqn:Hlock.
    { exists LAux. split; [done|]. by apply mut_aux. }
    unfold bind. rewrite (_RemoveFromPool_eq w t wk pl) by done.
    destruct (len pl <=? min_threads pl)%Z eqn:Hlen.
    + exists (LMove t). split; [done|].
      destruct (age_check_spec w t wk pl Ht Hp) as (Hr3 & i & c & Hc & Hi & Hc3).
      destruct (age_check t w) as [r3 w3]. simpl in Hr3, Hc3. subst r3.
      eapply (mut_move t wk pl i c); eauto. by rewrite Hpc.
    + exists (LRetire t (w_pool wk)). split; [by apply lock_is_held_false|].
      erewrite set_pc_eq by (simpl; apply Ht).
      eapply mut_retire; eauto; [by rewrite Hpc|]. apply Z.leb_gt in Hlen. lia.
  - (* too old *)
    destruct (lock_is_held held (w_pool wk)) eqn:Hlock.
    { exists LAux. split; [done|]. by apply mut_aux. }
    unfold bind. rewrite (_RemoveFromPool_eq w t wk pl) by done.
    destruct (len pl <=? min_threads pl)%Z eqn:Hlen.
    + exists (LMove t). split; [done|].
      rewrite (loop_top_eq w t wk pl) by done.
      eapply (mut_move t wk pl (if named pl then true else w_idle wk) AtGet);
        eauto; [by rewrite Hpc|]. by intros ->.
    + exists (LRetire t (w_pool wk)). split; [by apply lock_is_held_false|].
      erewrite set_pc_eq by (simpl; apply Ht).
      eapply mut_retire; eauto; [by rewrite Hpc|]. apply Z.leb_gt in Hlen. lia.
  - exists LAux. split; [done|]. by apply mut_aux.
Qed.

(** *** Runs *)

Lemma runs_aux {R} (allowed : label → Prop) (m : M R) :
  allowed LAux → aux_op m → runs allowed m.
Proof. intros Ha Hm w _. eapply steps_one; [done|]. by apply mut_aux. Qed.

Lemma runs_mono {R} (allowed allowed' : label → Prop) (m : M R) :
  (∀ l, allowed l → allowed' l) → runs allowed m → runs allowed' m.
Proof. intros Hsub Hm w Hw. eapply steps_mono; eauto. Qed.

Lemma runs_bind {R S} allowed (m : M R) (k : R → M S) :
  runs allowed m → (∀ x, runs allowed (k x)) → runs allowed (bind m k).
Proof.
  intros Hm Hk w Hw. unfold bind. specialize (Hm w Hw).
  destruct (m w) as [[x|e|] w1]; simpl in *; [|done..].
  eapply steps_trans; [done|]. apply Hk. by eapply steps_Inv.
Qed.

Lemma runs_try_except {R} allowed (m : M R) catches handler :
  runs allowed m → (∀ e, runs allowed (handler e)) →
  runs allowed (try_except m catches handler).
Proof.
  intros Hm Hh w Hw. unfold try_except. specialize (Hm w Hw).
  destruct (m w) as [[x|e|] w1]; simpl in *; [done| |done].
  destruct (catches e); [|done].
  eapply steps_trans; [done|]. apply Hh. by eapply steps_Inv.
Qed.

Lemma runs_try_finally {R} allowed (m : M R) fin :
  runs allowed m → runs allowed fin → runs allowed (try_finally m fin).
Proof.
  intros Hm Hf w Hw. unfold try_finally. specialize (Hm w Hw).
  destruct (m w) as [[x|e|] w1]; simpl in *; [| |done].
  - specialize (Hf w1 (steps_Inv _ _ _ Hm Hw)).
    destruct (fin w1) as [[?|?|] w2]; simpl in *; by eapply steps_trans.
  - specialize (Hf w1 (steps_Inv _ _ _ Hm Hw)).
    destruct (fin w1) as [[?|?|] w2]; simpl in *; by eapply steps_trans.
Qed.

Lemma runs_ret {R} allowed (r : R) : runs allowed (ret r).
Proof. intros w _. apply steps_refl. Qed.

Lemma runs_raise {R} allowed e : runs allowed (raise (R := R) e).
Proof. intros w _. apply steps_refl. Qed.

Lemma runs_blocked {R} allowed : runs allowed (blocked (R := R)).
Proof. intros w _. apply steps_refl. Qed.

Lemma runs_for_each {X} allowed (l : list X) (body : X → M unit) :
  (∀ x, runs allowed (body x)) → runs allowed (for_each l body).
Proof.
  intros Hb. induction l as [|x l IH]; simpl.
  - apply runs_ret.
  - apply runs_bind; [apply Hb|]. by intros _.
Qed.

Lemma runs_repeat_M allowed n (m : M unit) :
  runs allowed m → runs allowed (repeat_M n m).
Proof.
  intros Hm. induction n as [|n IH]; simpl.
  - apply runs_ret.
  - apply runs_bind; [done|]. by intros _.
Qed.

Lemma worker_steps held ts w :
  Inv w → steps (worker_label held) w (foldl (λ w t, worker_step held t w) w ts).
Proof.
  revert w. induction ts as [|t ts IH]; intros w Hw; simpl.
  - apply steps_refl.
  - destruct (worker_step_mut held t w Hw) as (l & Hl & Hm).
    eapply steps_cons; [done..|]. apply IH. by eapply mut_Inv.
Qed.

Lemma runs_yield held : runs (worker_label held) (yield held).
Proof.
  intros w Hw. unfold yield. simpl.
  set (w1 := set_env _ w).
  assert (mut LAux w w1) as Hm by (by apply mut_aux).
  eapply (steps_cons _ LAux); [done|apply Hm|].
  apply worker_steps. by eapply mut_Inv.
Qed.

Lemma runs_wait_until fuel held cond :
  runs (worker_label held) (wait_until fuel held cond).
Proof.
  induction fuel as [|fuel IH]; intros w Hw; simpl.
  - destruct (cond w); apply steps_refl.
  - destruct (cond w); [apply steps_refl|].
    revert w Hw. apply runs_bind; [apply runs_yield|]. by intros _.
Qed.

(** *** The methods of the pool *)

Lemma _AddWorker_eq w p pl :
  objects w !! p = Some pl →
  _AddWorker p w =
  let n := S (thread_counter w) in
  let w1 := set_env (mk_Env (tl (clock (env w))) (cpu (env w)) (tl (spawn (env w)))
                            (sched (env w))) (set_counter n w) in
  if hd true (spawn (env w)) then
    (Returns tt,
     upd_pool p (set_workers (<[worker_name pl n := n]> (_workers pl)) pl)
       (upd_thread n
          (mk_WorkerThread (worker_name pl n) p true (hd 0%Z (clock (env w))) AtGet) w1))
  else (Raises ThreadError, w1).
Proof.
  intros Hp. unfold _AddWorker, bind, get_pool. rewrite Hp.
  unfold gets, modify, time_time, thread_start, set_thread, set_pool. simpl.
  by destruct (hd true (spawn (env w))).
Qed.

Lemma _AddWorker_spec w p pl :
  objects w !! p = Some pl →
  let n := S (thread_counter w) in
  if hd true (spawn (env w)) then
    fst (_AddWorker p w) = Returns tt
    ∧ core (snd (_AddWorker p w))
      = core (upd_pool p (set_workers (<[worker_name pl n := n]> (_workers pl)) pl)
                (upd_thread n
                   (mk_WorkerThread (worker_name pl n) p true (hd 0%Z (clock (env w))) AtGet)
                   (set_counter n w)))
  else
    fst (_AddWorker p w) = Raises ThreadError
    ∧ core (snd (_AddWorker p w)) = core (set_counter n w).
Proof.
  intros Hp. rewrite (_AddWorker_eq w p pl Hp). simpl.
  by destruct (hd true (spawn (env w))).
Qed.

Lemma _AddWorker_mut w p pl guarded :
  objects w !! p = Some pl →
  (guarded = true → (len pl < max_threads pl)%Z) →
  ∃ l, (l = LAdd p guarded ∨ l = LCounter) ∧ mut l w (snd (_AddWorker p w)).
Proof.
  intros Hp Hg. pose proof (_AddWorker_spec w p pl Hp) as Hs. simpl in Hs.
  destruct (hd true (spawn (env w))); destruct Hs as [_ Hc].
  - exists (LAdd p guarded). split; [by left|]. eapply mut_add; eauto.
  - exists LCounter. split; [by right|]. by apply mut_counter.
Qed.

Lemma _AddWorker_missing w p :
  objects w !! p = None → _AddWorker p w = (Raises InvalidReference, w).
Proof. intros Hp. unfold _AddWorker, bind, get_pool. by rewrite Hp. Qed.

Lemma runs_put_task p target args task_name :
  runs (AddTask_label p) (put_task p target args task_name).
Proof.
  intros w Hw. unfold put_task, bind. simpl.
  set (w1 := set_env _ w).
  assert (core w1 = core w) as Hc by done.
  unfold get_pool. change (objects w1) with (objects w).
  destruct (objects w !! p) as [pl|] eqn:Hp; simpl.
  2:{ eapply (steps_one _ LAux); [by left|]. by apply mut_aux. }
  destruct (put_nowait _ _) as [q|] eqn:Hq; simpl.
  - eapply (steps_one _ (LPut p)); [right; by left|].
    eapply mut_put; eauto.
  - eapply (steps_one _ LAux); [by left|]. by apply mut_aux.
Qed.

Lemma runs_grow p : runs (AddTask_label p) (grow p).
Proof.
  intros w Hw. unfold grow. unfold bind at 1. unfold get_pool.
  destruct (objects w !! p) as [pl|] eqn:Hp; [|apply steps_refl].
  unfold bind at 1.
  destruct (len pl <? max_threads pl)%Z eqn:Hlen.
  2:{ simpl. apply steps_refl. }
  apply Z.ltb_lt in Hlen.
  pose proof (aux_CPUUsage p w) as Hc.
  unfold bind at 1.
  destruct (CPUUsage p w) as [[usage|e|] w1]; simpl in Hc;
    try (eapply (steps_one _ LAux); [by left|by apply mut_aux]).
  simpl.
  assert (steps (AddTask_label p) w w1) as H1.
  { eapply (steps_one _ LAux); [by left|by apply mut_aux]. }
  destruct (usage <? 90)%Z; [|done].
  assert (objects w1 !! p = Some pl) as Hp1.
  { destruct (core_fields _ _ Hc) as (_ & -> & _). done. }
  destruct (_AddWorker_mut w1 p pl true Hp1 (λ _, Hlen)) as (l & Hl & Hm).
  eapply steps_trans; [done|].
  eapply (steps_one _ l); [destruct Hl as [->| ->]; unfold AddTask_label; tauto|].
  eapply mut_core; [done|].
  unfold try_except, bind.
  destruct (_AddWorker p w1) as [[[]|e|] w2]; simpl; try done.
  by destruct (is_ThreadError e).
Qed.

Lemma runs_AddTask_iteration p target args task_name blocking inline :
  runs (AddTask_label p) (AddTask_iteration p target args task_name blocking inline).
Proof.
  unfold AddTask_iteration. apply runs_bind.
  { eapply runs_mono; [|apply runs_yield]. intros l Hl. by left. }
  intros _. apply runs_bind; [apply runs_put_task|]. intros pushed.
  destruct pushed; [apply runs_ret|].
  apply runs_bind; [apply runs_grow|]. intros grew.
  destruct grew; [apply runs_ret|].
  destruct inline; [apply runs_ret|].
  destruct blocking; [|apply runs_raise].
  apply runs_bind.
  { eapply runs_mono; [|apply runs_yield]. intros l Hl. by left. }
  intros _. apply runs_bind; [apply runs_put_task|]. intros pushed.
  destruct pushed; apply runs_ret.
Qed.

Lemma runs_AddTask_loop fuel p target args task_name blocking inline :
  runs (AddTask_label p) (AddTask_loop fuel p target args task_name blocking inline).
Proof.
  induction fuel as [|fuel IH]; simpl; [apply runs_blocked|].
  apply runs_bind; [apply runs_AddTask_iteration|].
  intros [| |]; [done|apply runs_ret..].
Qed.

Lemma runs_emit_api (allowed : label → Prop) ev :
  is_api ev = true → allowed (LApi ev) → runs allowed (emit ev).
Proof.
  intros He Ha w _. eapply steps_one; [done|]. by apply mut_api.
Qed.

(** A method that reads the pool and goes on from there. *)
Lemma runs_get_pool {R} allowed p (k : ThreadPool → M R) :
  (∀ w pl, Inv w → objects w !! p = Some pl → steps allowed w (snd (k pl w))) →
  runs allowed (bind (get_pool p) k).
Proof.
  intros Hk w Hw. unfold bind, get_pool.
  destruct (objects w !! p) as [pl|] eqn:Hp; [by apply Hk|apply steps_refl].
Qed.

Lemma runs_AddTask fuel p target args task_name blocking inline :
  runs (op_label (OpAddTask fuel p target args task_name blocking inline))
       (AddTask fuel p target args task_name blocking inline).
Proof.
  unfold AddTask. apply runs_bind.
  { apply runs_emit_api; [done|]. by left. }
  intros _. apply runs_bind.
  { apply runs_aux; [right; by left|apply aux_get_pool]. }
  intros pl. destruct (max_threads pl =? 0)%Z.
  { apply runs_aux; [right; by left|apply aux_call]. }
  apply runs_bind.
  { eapply runs_mono; [|apply runs_AddTask_loop]. intros l Hl. by right. }
  intros returned. destruct returned; [apply runs_ret|].
  destruct inline; [|apply runs_ret].
  apply runs_aux; [right; by left|apply aux_call].
Qed.

Lemma runs_Join fuel held p : runs (worker_label held) (Join fuel held p).
Proof. apply runs_wait_until. Qed.

Lemma runs_thread_join fuel held t : runs (worker_label held) (thread_join fuel held t).
Proof. apply runs_wait_until. Qed.

Lemma runs_put_stop fuel p : runs (Stop_label p) (put_stop fuel p).
Proof.
  unfold put_stop. apply runs_bind.
  { eapply runs_mono; [|apply runs_wait_until]. intros l Hl. by left. }
  intros _. apply runs_get_pool. intros w pl Hw Hp.
  destruct (put_nowait _ _) as [q|] eqn:Hq; [|apply steps_refl].
  eapply (steps_one _ (LPut p)); [right; right; by left|].
  by eapply mut_put.
Qed.

Lemma runs_Stop fuel p : runs (op_label (OpStop fuel p)) (Stop fuel p).
Proof.
  unfold Stop. apply runs_bind.
  { apply runs_emit_api; [done|]. by left. }
  intros _. apply runs_get_pool. intros w pl Hw Hp.
  destruct (started pl); simpl.
  2:{ eapply (steps_one _ LAux); [right; by left|]. by apply mut_aux. }
  unfold bind at 1. unfold set_pool, modify.
  set (w1 := set_objects _ w).
  assert (mut (LClear p) w w1) as Hm by (by eapply mut_clear).
  eapply (steps_cons _ (LClear p)); [right; right; by left|done|].
  assert (Inv w1) as Hw1 by (by eapply mut_Inv).
  revert Hw1. generalize w1. clear.
  apply runs_bind.
  { apply runs_for_each. intros _.
    eapply runs_mono; [|apply runs_put_stop]. intros l Hl. by right. }
  intros _. apply runs_get_pool. intros w' pl' Hw' Hp'.
  unfold bind at 1. unfold set_pool, modify.
  set (w2 := set_objects _ w').
  assert (mut (LStarted p false) w' w2) as Hm' by (by eapply mut_started).
  eapply (steps_cons _ (LStarted p false)); [right; right; right; by right|done|].
  assert (Inv w2) as Hw2 by (by eapply mut_Inv).
  revert Hw2. generalize w2. clear.
  apply runs_bind.
  { eapply runs_mono; [|apply runs_Join]. intros l Hl. right. by left. }
  intros _. apply runs_for_each. intros t.
  eapply runs_mono; [|apply runs_thread_join]. intros l Hl. right. by left.
Qed.

Lemma runs__AddWorker p :
  runs (λ l, l = LAdd p false ∨ l = LCounter) (_AddWorker p).
Proof.
  intros w Hw. destruct (objects w !! p) as [pl|] eqn:Hp.
  - destruct (_AddWorker_mut w p pl false Hp) as (l & Hl & Hm); [done|].
    by eapply steps_one.
  - rewrite _AddWorker_missing by done. apply steps_refl.
Qed.

Lemma runs_Start p : runs (op_label (OpStart p)) (Start p).
Proof.
  unfold Start. apply runs_bind.
  { apply runs_emit_api; [done|]. by left. }
  intros _. apply runs_get_pool. intros w pl Hw Hp.
  destruct (started pl); simpl; [apply steps_refl|].
  unfold bind at 1. unfold set_pool, modify.
  set (w1 := set_objects _ w).
  assert (mut (LStarted p true) w w1) as Hm by (by eapply mut_started).
  eapply (steps_cons _ (LStarted p true)); [right; right; by left|done|].
  assert (Inv w1) as Hw1 by (by eapply mut_Inv).
  revert Hw1. generalize w1. clear.
  apply runs_repeat_M.
  eapply runs_mono; [|apply runs__AddWorker].
  intros l [->| ->]; right; unfold Start_label; tauto.
Qed.

Lemma runs_ThreadPool_init name_ mn mx cc :
  runs (op_label (OpInit name_ mn mx cc)) (ThreadPool_init name_ mn mx cc).
Proof.
  unfold ThreadPool_init. apply runs_bind.
  { apply runs_aux; [by left|apply aux_gets]. }
  intros p. apply runs_bind.
  { apply runs_aux; [by left|].
    destruct (named _); [|apply aux_ret].
    apply aux_bind; [apply aux_gets|]. intros pools.
    destruct (decide _); [apply aux_raise|].
    repeat (apply aux_bind; [|intros _]);
      first [apply aux_RegisterGaugeMetric|apply aux_RegisterCounterMetric
            |apply aux_RegisterEventMetric]. }
  intros _ w Hw. eapply (steps_one _ (LNewPool (next_ref w))); [right; eauto|].
  by eapply mut_new_pool.
Qed.

Lemma runs_Factory name_ mn mx cc :
  runs (op_label (OpFactory name_ mn mx cc)) (Factory name_ mn mx cc).
Proof.
  unfold Factory. apply runs_bind.
  { apply runs_aux; [by left|apply aux_gets]. }
  intros pools. destruct (pools !! name_); [apply runs_ret|].
  apply runs_bind.
  { eapply runs_mono; [|apply runs_ThreadPool_init].
    intros l [->|Hl]; [by left|right; by left]. }
  intros r. apply runs_bind; [|intros _; apply runs_ret].
  intros w Hw. eapply (steps_one _ (LRegister name_ r)); [right; right; eauto|].
  by apply mut_register.
Qed.

(** Every operation is a run of transitions of its kind. *)
Lemma exec_steps o w : Inv w → steps (op_label o) w (exec o w).
Proof.
  intros Hw. destruct o; simpl exec.
  - by apply runs_ThreadPool_init.
  - by apply runs_Factory.
  - by apply runs_Start.
  - by apply runs_Stop.
  - by apply (runs_Join fuel None p).
  - by apply runs_AddTask.
  - destruct (worker_step_mut None t w Hw) as (l & Hl & Hm). by eapply steps_one.
Qed.

Lemma Inv_init e : Inv (init_world (A := A) e).
Proof.
  split; [split|]; simpl.
  - intros p [x Hx]. by rewrite lookup_empty in Hx.
  - intros t [x Hx]. by rewrite lookup_empty in Hx.
  - intros p pl. by rewrite lookup_empty.
  - intros t wk. by rewrite lookup_empty.
  - intros p pl. simpl. by rewrite lookup_empty.
Qed.

Lemma exec_Inv o w : Inv w → Inv (exec o w).
Proof. intros Hw. eapply steps_Inv; [apply exec_steps|]; done. Qed.

Lemma run_ops_Inv ops w : Inv w → Inv (run_ops ops w).
Proof.
  revert w. induction ops as [|o ops IH]; intros w Hw; simpl; [done|].
  apply IH. by apply exec_Inv.
Qed.

Lemma reachable_Inv w : reachable w → Inv w.
Proof. intros (e & ops & ->). apply run_ops_Inv, Inv_init. Qed.

End Runs.

(** ** The pool without threads *)

Section ZeroPool.

Context {A : Type}.

Local Abbreviation World := (World A).
Local Abbreviation ThreadPool := (ThreadPool A).
Local Abbreviation WorkerThread := (WorkerThread A).

Implicit Types (w : World) (pl : ThreadPool) (wk : WorkerThread).

Lemma zero_inv_ext w w' :
  objects w' = objects w → threads w' = threads w → zero_inv w → zero_inv w'.
Proof.
  intros Ho Ht H p pl. rewrite Ho. intros Hp Hm.
  rewrite (holding_core w w') by done. by apply H.
Qed.

Lemma zero_inv_core w w' : core w' = core w → zero_inv w → zero_inv w'.
Proof. intros (_ & Ho & _ & Ht & _)%core_fields. by apply zero_inv_ext. Qed.

(** The pool [p0] changes, and so does a thread of it; the other pools
    keep what they had. *)
Lemma zero_inv_upd w p0 pl0 pl0' t wk wk' :
  zero_inv w → objects w !! p0 = Some pl0 →
  threads w !! t = Some wk → w_pool wk = p0 → w_pool wk' = p0 →
  (max_threads pl0' = 0%Z →
     _workers pl0' = ∅ ∧ queue (_queue pl0') = []
     ∧ holding p0 (upd_thread t wk' (upd_pool p0 pl0' w)) = 0) →
  zero_inv (upd_thread t wk' (upd_pool p0 pl0' w)).
Proof.
  intros Hz Hp0 Ht Hwk Hwk' Hnew q pl. simpl.
  destruct (decide (p0 = q)) as [<-|Hne].
  - rewrite lookup_insert_eq. intros [= <-]. apply Hnew.
  - rewrite lookup_insert_ne by done. intros Hq Hm.
    destruct (Hz q pl Hq Hm) as (H1 & H2 & H3). repeat split; try done.
    pose proof (holding_upd_thread q t wk wk' (upd_pool p0 pl0' w) Ht) as Hh.
    change (holding q (upd_pool p0 pl0' w)) with (holding q w) in Hh.
    rewrite !one_if_holds_other in Hh by congruence. lia.
Qed.

Lemma zero_inv_upd_pool w p0 pl0 pl0' :
  zero_inv w → objects w !! p0 = Some pl0 →
  (max_threads pl0' = 0%Z →
     _workers pl0' = ∅ ∧ queue (_queue pl0') = [] ∧ holding p0 w = 0) →
  zero_inv (upd_pool p0 pl0' w).
Proof.
  intros Hz Hp0 Hnew q pl. simpl.
  change (holding q (upd_pool p0 pl0' w)) with (holding q w).
  destruct (decide (p0 = q)) as [<-|Hne].
  - rewrite lookup_insert_eq. intros [= <-]. apply Hnew.
  - rewrite lookup_insert_ne by done. apply Hz.
Qed.

Lemma zero_inv_upd_thread w t wk wk' :
  zero_inv w → threads w !! t = Some wk →
  is_holding (w_pc wk') = false →
  zero_inv (upd_thread t wk' w).
Proof.
  intros Hz Ht Hh q pl. simpl. intros Hq Hm.
  destruct (Hz q pl Hq Hm) as (H1 & H2 & H3). repeat split; try done.
  pose proof (holding_upd_thread q t wk wk' w Ht) as Hx.
  rewrite (one_if_holds_not q t wk') in Hx by done. lia.
Qed.

Lemma mut_zero l w w' :
  mut l w w' → Inv w → zero_inv w →
  (∀ q pl, objects w !! q = Some pl → max_threads pl = 0%Z → ¬ feeds l q) →
  zero_inv w'.
Proof.
  intros Hm [Hwf Hacc] Hz Hfeed. destruct Hm.
  - by eapply zero_inv_core.
  - eapply zero_inv_core; [done|]. by eapply zero_inv_ext.
  - eapply zero_inv_core; [done|].
    eapply zero_inv_upd_pool; eauto. simpl. intros Hmax.
    destruct (Hfeed p pl H Hmax). by left.
  - eapply zero_inv_core; [done|].
    eapply zero_inv_upd; eauto. simpl. intros Hmax.
    destruct (Hz _ _ H1 Hmax) as (_ & Hq & _).
    unfold get_nowait in H2. by rewrite Hq in H2.
  - eapply zero_inv_core; [done|].
    eapply zero_inv_upd; eauto. simpl. intros Hmax.
    destruct (Hz _ _ H1 Hmax) as (_ & _ & Hh).
    pose proof (holding_pos w t wk H) as Hpos. rewrite H0 in Hpos.
    specialize (Hpos eq_refl). lia.
  - eapply zero_inv_core; [done|]. by eapply zero_inv_upd_thread.
  - eapply zero_inv_core; [done|].
    eapply zero_inv_upd; eauto. simpl. intros Hmax.
    destruct (Hz _ _ H1 Hmax) as (Hw & Hq & Hh).
    rewrite Hw, delete_empty. repeat split; try done.
    pose proof (holding_upd_thread (w_pool wk) t wk (with_pc wk (w_idle wk) Exited)
                  w H) as Hx.
    rewrite (one_if_holds_not _ t (with_pc wk (w_idle wk) Exited)) in Hx by done.
    change (holding (w_pool wk) (upd_thread t (with_pc wk (w_idle wk) Exited) w) = 0).
    lia.
  - eapply zero_inv_core; [done|].
    assert (threads w !! S (thread_counter w) = None) as Hfresh.
    { destruct (threads w !! S (thread_counter w)) eqn:E; [|done].
      assert (S (thread_counter w) ≤ thread_counter w)
        by (apply (wf_threads_bound w Hwf); eauto).
      lia. }
    intros q plq. simpl.
    rewrite holding_upd_pool, holding_new_thread by done.
    rewrite one_if_holds_not, holding_set_counter by done.
    destruct (decide (p = q)) as [<-|Hne].
    + rewrite lookup_insert_eq. intros [= <-]. simpl. intros Hmax.
      destruct (Hfeed p pl H Hmax). right. eauto.
    + rewrite lookup_insert_ne by done. intros Hq Hmax.
      destruct (Hz q plq Hq Hmax) as (? & ? & ?). repeat split; try done. lia.
  - eapply zero_inv_core; [done|]. by eapply zero_inv_ext.
  - eapply zero_inv_core; [done|].
    eapply zero_inv_upd_pool; eauto. simpl. intros Hmax. by apply Hz.
  - eapply zero_inv_core; [done|].
    eapply zero_inv_upd_pool; eauto. simpl. intros Hmax.
    destruct (Hz _ _ H Hmax) as (_ & ? & ?). done.
  - eapply zero_inv_core; [done|].
    intros q plq. simpl. change (holding q _) with (holding q w).
    destruct (decide (next_ref w = q)) as [<-|Hne].
    + rewrite lookup_insert_eq. intros [= <-]. simpl. intros _.
      repeat split; try done. apply holding_none; [done|].
      destruct (objects w !! next_ref w) eqn:E; [|done].
      assert (next_ref w < next_ref w) by (apply (wf_objects_bound w Hwf); eauto).
      lia.
    + rewrite lookup_insert_ne by done. apply Hz.
  - eapply zero_inv_core; [done|]. by eapply zero_inv_ext.
Qed.

(** The capacity of a pool does not change. *)
Lemma mut_max_threads l w w' p pl :
  mut l w w' → wf w → objects w !! p = Some pl →
  ∃ pl', objects w' !! p = Some pl' ∧ max_threads pl' = max_threads pl
         ∧ min_threads pl' = min_threads pl ∧ name pl' = name pl
         ∧ cpu_check pl' = cpu_check pl.
Proof.
  intros Hm Hwf Hp.
  assert (∀ q f, (∀ x, max_threads (f x) = max_threads x ∧ min_threads (f x) = min_threads x
                       ∧ name (f x) = name x ∧ cpu_check (f x) = cpu_check x) →
            ∀ plq, objects w !! q = Some plq →
            ∃ pl', <[q := f plq]> (objects w) !! p = Some pl'
                   ∧ max_threads pl' = max_threads pl
                   ∧ min_threads pl' = min_threads pl ∧ name pl' = name pl
                   ∧ cpu_check pl' = cpu_check pl) as Hupd.
  { intros q f Hf plq Hq. destruct (decide (q = p)) as [->|Hne].
    - rewrite lookup_insert_eq. assert (plq = pl) as -> by congruence.
      eexists. split; [done|]. apply Hf.
    - rewrite lookup_insert_ne by done. by exists pl. }
  destruct Hm;
    match goal with
    | Hc : core _ = core _ |- _ =>
        destruct (core_fields _ _ Hc) as (_ & Ho & _); rewrite Ho; simpl
    end; try (by exists pl).
  - by apply (Hupd p0 (set_queue q)).
  - by apply (Hupd (w_pool wk) (set_queue q)).
  - by apply (Hupd (w_pool wk) (set_queue q)).
  - by apply (Hupd (w_pool wk) (λ x, set_workers (delete (w_name wk) (_workers pl0)) x)).
  - by apply (Hupd p0 (λ x, set_workers (<[worker_name pl0 (S (thread_counter w))
                                           := S (thread_counter w)]> (_workers pl0)) x)).
  - by apply (Hupd p0 (set_started b)).
  - by apply (Hupd p0 (set_workers ∅)).
  - rewrite lookup_insert_ne; [by exists pl|].
    assert (p < next_ref w) by (apply (wf_objects_bound w Hwf); eauto). lia.
Qed.

Lemma steps_zero allowed w w' p :
  steps allowed w w' → Inv w → zero_inv w →
  (∀ l q, allowed l → feeds l q → q = p) →
  (∃ pl, objects w !! p = Some pl ∧ max_threads pl ≠ 0%Z) →
  zero_inv w'.
Proof.
  intros Hs. induction Hs as [|l w1 w2 w3 Hl Hm Hs IH]; intros Hw Hz Hfeed Hnz; [done|].
  apply IH; [by eapply mut_Inv| |done|].
  - eapply mut_zero; eauto. intros q pl Hq Hmax Hf.
    rewrite (Hfeed l q Hl Hf) in Hq. destruct Hnz as (pl' & Hp & Hne). congruence.
  - destruct Hnz as (pl & Hp & Hne).
    destruct (mut_max_threads l w1 w2 p pl Hm (proj1 Hw) Hp) as (pl' & Hp' & Hmax & _).
    exists pl'. split; [done|]. congruence.
Qed.

Lemma steps_zero_unfed allowed w w' :
  steps allowed w w' → Inv w → zero_inv w →
  (∀ l q, allowed l → ¬ feeds l q) →
  zero_inv w'.
Proof.
  intros Hs. induction Hs as [|l w1 w2 w3 Hl Hm Hs IH]; intros Hw Hz Hfeed; [done|].
  apply IH; [by eapply mut_Inv| |done].
  eapply mut_zero; eauto.
Qed.

Lemma AddTask_eq w p pl fuel target args task_name blocking inline :
  objects w !! p = Some pl →
  AddTask fuel p target args task_name blocking inline w =
  let w0 := add_event (EvAddTask p target args task_name blocking inline) w in
  if (max_threads pl =? 0)%Z then call Caller target args task_name w0
  else
    (let* returned := AddTask_loop fuel p target args task_name
                        (if inline then false else blocking) inline in
     if returned then ret tt
     else if inline then call Caller target args task_name
     else ret tt) w0.
Proof.
  intros Hp. unfold AddTask. unfold bind at 1 2. simpl.
  unfold get_pool. simpl. rewrite Hp. by destruct (_ =? _)%Z.
Qed.

Lemma AddTask_missing w p fuel target args task_name blocking inline :
  objects w !! p = None →
  AddTask fuel p target args task_name blocking inline w =
  (Raises InvalidReference,
   add_event (EvAddTask p target args task_name blocking inline) w).
Proof.
  intros Hp. unfold AddTask. unfold bind at 1 2. simpl.
  unfold get_pool. simpl. rewrite Hp. done.
Qed.

Lemma Start_eq w p pl :
  objects w !! p = Some pl →
  Start p w =
  if started pl then (Returns tt, add_event (EvStart p) w)
  else repeat_M (Z.to_nat (min_threads pl)) (_AddWorker p)
         (upd_pool p (set_started true pl) (add_event (EvStart p) w)).
Proof.
  intros Hp. unfold Start. unfold bind at 1 2. simpl.
  unfold get_pool. simpl. rewrite Hp. by destruct (started pl).
Qed.

Lemma Start_missing w p :
  objects w !! p = None → Start p w = (Raises InvalidReference, add_event (EvStart p) w).
Proof.
  intros Hp. unfold Start. unfold bind at 1 2. simpl.
  unfold get_pool. simpl. by rewrite Hp.
Qed.

Lemma wait_until_now fuel held (cond : World → bool) w :
  cond w = true → wait_until fuel held cond w = (Returns tt, w).
Proof. intros Hc. destruct fuel; simpl; by rewrite Hc. Qed.

(** Stop on a pool without workers whose queue owes nothing. *)
Lemma Stop_idle w p pl fuel :
  objects w !! p = Some pl → _workers pl = ∅ → unfinished_tasks (_queue pl) = 0%Z →
  Stop fuel p w =
  if started pl then
    (Returns tt,
     upd_pool p (set_started false (set_workers ∅ pl)) (add_event (EvStop p) w))
  else
    log (LogWarning "Tried to stop a thread pool that was not running.")
        (add_event (EvStop p) w).
Proof.
  intros Hp Hw Hu. unfold Stop. unfold bind at 1 2. simpl.
  unfold get_pool at 1. simpl. rewrite Hp.
  destruct (started pl); simpl; [|done].
  rewrite Hw, map_to_list_empty. simpl.
  unfold bind, set_pool, modify, ret, get_pool. simpl.
  rewrite lookup_insert_eq. simpl.
  unfold Join. rewrite wait_until_now.
  - unfold upd_pool, set_objects. simpl. by rewrite insert_insert_eq.
  - unfold outstanding. simpl. rewrite lookup_insert_eq. simpl.
    by apply bool_decide_eq_true.
Qed.

Lemma Stop_missing w p fuel :
  objects w !! p = None → Stop fuel p w = (Raises InvalidReference, add_event (EvStop p) w).
Proof.
  intros Hp. unfold Stop. unfold bind at 1 2. simpl.
  unfold get_pool. simpl. by rewrite Hp.
Qed.

Lemma zero_inv_add_event w ev : zero_inv w → zero_inv (add_event ev w).
Proof. by apply zero_inv_ext. Qed.

Lemma aux_zero_inv {R} (m : M A R) w : aux_op m → zero_inv w → zero_inv (snd (m w)).
Proof. intros Hm. apply zero_inv_core, Hm. Qed.

Lemma zero_unfinished w p pl :
  Inv w → zero_inv w → objects w !! p = Some pl → max_threads pl = 0%Z →
  unfinished_tasks (_queue pl) = 0%Z.
Proof.
  intros [_ Hacc] Hz Hp Hmax. destruct (Hz p pl Hp Hmax) as (_ & Hq & Hh).
  rewrite (Hacc p pl Hp). unfold qsize. rewrite Hq, Hh. done.
Qed.

Lemma exec_zero o w : Inv w → zero_inv w → zero_inv (exec o w).
Proof.
  intros Hw Hz.
  assert (∀ p, (objects w !! p = None ∨ ∃ pl, objects w !! p = Some pl ∧ max_threads pl = 0%Z)
               ∨ ∃ pl, objects w !! p = Some pl ∧ max_threads pl ≠ 0%Z) as Hcase.
  { intros p. destruct (objects w !! p) as [pl|]; [|by left; left].
    destruct (decide (max_threads pl = 0%Z)); [left; right|right]; eauto. }
  pose proof (exec_steps o w Hw) as Hs.
  destruct o; simpl in *.
  - eapply steps_zero_unfed; eauto.
    intros l q [->|[r ->]] [Hf|[g Hf]]; done.
  - eapply steps_zero_unfed; eauto.
    intros l q [->|[[r ->]|[r ->]]] [Hf|[g Hf]]; done.
  - destruct (Hcase p) as [[Hp|(pl & Hp & Hmax)]|Hnz].
    + rewrite Start_missing by done. by apply zero_inv_add_event.
    + rewrite (Start_eq w p pl) by done.
      destruct (started pl); simpl; [by apply zero_inv_add_event|].
      assert (min_threads pl ≤ max_threads pl)%Z
        by (by destruct (wf_pools w (proj1 Hw) p pl Hp)).
      replace (Z.to_nat (min_threads pl)) with 0 by lia. simpl.
      apply zero_inv_upd_pool with (pl0 := pl); [by apply zero_inv_add_event|done|].
      simpl. intros _. by apply Hz.
    + eapply steps_zero; eauto.
      intros l q [->|[->|[->|[->| ->]]]] [Hf|[g Hf]]; congruence.
  - destruct (Hcase p) as [[Hp|(pl & Hp & Hmax)]|Hnz].
    + rewrite Stop_missing by done. by apply zero_inv_add_event.
    + destruct (Hz p pl Hp Hmax) as (Hwk & Hq & Hh).
      rewrite (Stop_idle w p pl) by eauto using zero_unfinished.
      destruct (started pl); simpl.
      * apply zero_inv_upd_pool with (pl0 := pl); [by apply zero_inv_add_event|done|].
        simpl. intros _. done.
      * by apply (zero_inv_ext w).
    + eapply steps_zero; eauto.
      intros l q [->|[Hl|[->|[->| ->]]]] [Hf|[g Hf]]; try congruence;
        subst l; by destruct Hl.
  - eapply steps_zero_unfed; eauto.
    intros l q Hl [Hf|[g Hf]]; subst l; by destruct Hl.
  - destruct (Hcase p) as [[Hp|(pl & Hp & Hmax)]|Hnz].
    + rewrite AddTask_missing by done. by apply zero_inv_add_event.
    + rewrite (AddTask_eq w p pl) by done. simpl. rewrite Hmax. simpl.
      apply aux_zero_inv; [apply aux_call|]. by apply zero_inv_add_event.
    + eapply steps_zero; eauto.
      intros l q [->|[Hl|[->|[->| ->]]]] [Hf|[g Hf]]; try congruence;
        subst l; by destruct Hl.
  - eapply steps_zero_unfed; eauto.
    intros l q Hl [Hf|[g Hf]]; subst l; by destruct Hl.
Qed.

Lemma reachable_zero w : reachable w → zero_inv w.
Proof.
  intros (e & ops & ->).
  assert (∀ w : World, Inv w → zero_inv w → zero_inv (run_ops ops w)) as H.
  { induction ops as [|o ops IH]; intros w Hw Hz; simpl; [done|].
    apply IH; [by apply exec_Inv|by apply exec_zero]. }
  apply H; [apply Inv_init|]. intros p pl. simpl. by rewrite lookup_empty.
Qed.

End ZeroPool.

Section Registry.

Context {A : Type}.

Local Abbreviation World := (World A).

Ltac unfold_M :=
  unfold bind, ret, raise, blocked, gets, modify, try_except, try_finally in *.

Lemma named_new_pool name_ mn mx cc :
  named (new_pool (A := A) name_ mn mx cc) = (if decide (name_ = "") then false else true).
Proof. reflexivity. Qed.

(** The constructor, when it does not refuse. *)
Lemma ThreadPool_init_accepts name_ mn mx cc (w : World) :
  name_ = "" ∨ POOLS w !! name_ = None →
  ∃ w', ThreadPool_init name_ mn mx cc w = (Returns (next_ref w), w')
        ∧ POOLS w' = POOLS w
        ∧ objects w' = <[next_ref w := new_pool name_ mn mx cc]> (objects w)
        ∧ next_ref w' = S (next_ref w)
        ∧ threads w' = threads w
        ∧ thread_counter w' = thread_counter w
        ∧ trace w' = trace w ∧ logging w' = logging w ∧ env w' = env w.
Proof.
  intros H. unfold ThreadPool_init. rewrite named_new_pool.
  unfold_M. destruct (decide (name_ = "")) as [->|Hn]; simpl.
  - eexists. repeat split.
  - destruct H as [H|H]; [done|].
    destruct (decide (is_Some (POOLS w !! name_))) as [[x Hx]|_]; [congruence|].
    simpl. eexists. repeat split.
Qed.

Lemma ThreadPool_init_refuses name_ mn mx cc (w : World) :
  name_ ≠ "" → is_Some (POOLS w !! name_) →
  ThreadPool_init name_ mn mx cc w = (Raises (DuplicateThreadpoolError name_), w).
Proof.
  intros Hn Hs. unfold ThreadPool_init. rewrite named_new_pool.
  unfold_M. destruct (decide (name_ = "")); [done|]. simpl.
  destruct (decide (is_Some (POOLS w !! name_))); done.
Qed.

Lemma Factory_unfold name_ mn mx cc (w : World) :
  Factory name_ mn mx cc w =
  match POOLS w !! name_ with
  | Some existing => (Returns existing, w)
  | None =>
      match ThreadPool_init name_ mn mx cc w with
      | (Returns r, w') => (Returns r, set_POOLS (<[name_ := r]> (POOLS w')) w')
      | (Raises e, w') => (Raises e, w')
      | (Blocked, w') => (Blocked, w')
      end
  end.
Proof.
  unfold Factory, bind, gets, modify, ret.
  destruct (POOLS w !! name_); [done|].
  by destruct (ThreadPool_init name_ mn mx cc w) as [[r|e|] w'].
Qed.

(** C6. Factory returns the pool registered under the name when there is
    one, whatever the numeric arguments, and leaves the process as it is;
    otherwise it constructs a pool from its arguments, stores it under the
    name and returns it. Factory never raises DuplicateThreadpoolError;
    the constructor raises it exactly when the name is not empty and is
    already a key of the registry. *)
Theorem Factory_first_creation_wins name_ mn mx cc (w : World) :
  match POOLS w !! name_ with
  | Some existing => Factory name_ mn mx cc w = (Returns existing, w)
  | None =>
      fst (Factory name_ mn mx cc w) = Returns (next_ref w)
      ∧ POOLS (snd (Factory name_ mn mx cc w)) = <[name_ := next_ref w]> (POOLS w)
      ∧ objects (snd (Factory name_ mn mx cc w))
        = <[next_ref w := new_pool name_ mn mx cc]> (objects w)
  end
  ∧ (∀ n, fst (Factory name_ mn mx cc w) ≠ Raises (DuplicateThreadpoolError n))
  ∧ (∀ n, fst (ThreadPool_init name_ mn mx cc w) = Raises (DuplicateThreadpoolError n)
          ↔ n = name_ ∧ name_ ≠ "" ∧ is_Some (POOLS w !! name_)).
Proof.
  rewrite Factory_unfold.
  split; [|split].
  - destruct (POOLS w !! name_) as [r|] eqn:E; [done|].
    destruct (ThreadPool_init_accepts name_ mn mx cc w (or_intror E))
      as (w' & Hi & HP & Ho & _).
    rewrite Hi. simpl. rewrite HP, Ho. done.
  - intros n.
    destruct (POOLS w !! name_) as [r|] eqn:E; [done|].
    destruct (ThreadPool_init_accepts name_ mn mx cc w (or_intror E))
      as (w' & Hi & _).
    rewrite Hi. done.
  - intros n. split.
    + intros H. destruct (decide (name_ = "")) as [Hn|Hn].
      * destruct (ThreadPool_init_accepts name_ mn mx cc w (or_introl Hn))
          as (w' & Hi & _). rewrite Hi in H. done.
      * destruct (POOLS w !! name_) as [r|] eqn:E.
        -- rewrite ThreadPool_init_refuses in H by (rewrite ?E; eauto).
           simpl in H. injection H as <-. eauto.
        -- destruct (ThreadPool_init_accepts name_ mn mx cc w (or_intror E))
             as (w' & Hi & _). rewrite Hi in H. done.
    + intros (-> & Hn & Hs). by rewrite ThreadPool_init_refuses.
Qed.

End Registry.

(** ** The registry and the use of a pool *)

Section Blind.

Context {A : Type}.

Local Abbreviation World := (World A).
Local Abbreviation M := (M A).
Local Abbreviation registry_blind := (registry_blind (A := A)).

Implicit Types (w : World).

Lemma blind_ret {R} (r : R) : registry_blind (ret r).
Proof. done. Qed.

Lemma blind_raise {R} e : registry_blind (raise (R := R) e).
Proof. done. Qed.

Lemma blind_blocked {R} : registry_blind (blocked (R := R)).
Proof. done. Qed.

Lemma blind_bind {R S} (m : M R) (k : R → M S) :
  registry_blind m → (∀ x, registry_blind (k x)) → registry_blind (bind m k).
Proof.
  intros Hm Hk P w. unfold bind. rewrite Hm.
  destruct (m w) as [[x|e|] w1]; simpl; [|done..].
  rewrite Hk. done.
Qed.

Lemma blind_try_except {R} (m : M R) catches handler :
  registry_blind m → (∀ e, registry_blind (handler e)) →
  registry_blind (try_except m catches handler).
Proof.
  intros Hm Hh P w. unfold try_except. rewrite Hm.
  destruct (m w) as [[x|e|] w1]; simpl; [done| |done].
  destruct (catches e); [|done]. by rewrite Hh.
Qed.

Lemma blind_try_finally {R} (m : M R) fin :
  registry_blind m → registry_blind fin → registry_blind (try_finally m fin).
Proof.
  intros Hm Hf P w. unfold try_finally. rewrite Hm.
  destruct (m w) as [[x|e|] w1]; simpl; [| |done]; rewrite Hf;
    by destruct (fin w1) as [[?|?|] w2].
Qed.

Lemma blind_gets {R} (f : World → R) :
  (∀ P w, f (set_POOLS P w) = f w) → registry_blind (gets f).
Proof. intros Hf P w. unfold gets. by rewrite Hf. Qed.

Lemma blind_modify (f : World → World) :
  (∀ P w, f (set_POOLS P w) = set_POOLS P (f w)) → registry_blind (modify f).
Proof. intros Hf P w. unfold modify. by rewrite Hf. Qed.

Lemma blind_get_pool p : registry_blind (get_pool p).
Proof. intros P w. unfold get_pool. simpl. by destruct (objects w !! p). Qed.

Lemma blind_get_thread t : registry_blind (get_thread t).
Proof. intros P w. unfold get_thread. simpl. by destruct (threads w !! t). Qed.

Lemma blind_thread_start : registry_blind thread_start.
Proof. intros P w. unfold thread_start. simpl. by destruct (hd true _). Qed.

Create HintDb blind discriminated.

Hint Resolve blind_ret blind_raise blind_blocked blind_get_pool blind_get_thread
  blind_thread_start : blind.

Ltac blind_step :=
  first
    [ apply blind_bind; [|intros ?]
    | apply blind_try_except; [|intros ?]
    | apply blind_try_finally
    | apply blind_modify; done
    | apply blind_gets; done
    | solve [auto with blind]
    | done
    | match goal with
      | |- registry_blind (if ?b then _ else _) => destruct b
      | |- registry_blind (match ?x with _ => _ end) => destruct x
      end ].

Ltac blind := repeat blind_step.

Lemma blind_time_time : registry_blind time_time.
Proof. done. Qed.

Lemma blind_cpu_percent : registry_blind cpu_percent.
Proof. done. Qed.

Lemma blind_emit ev : registry_blind (emit ev).
Proof. done. Qed.

Lemma blind_log r : registry_blind (log r).
Proof. done. Qed.

Lemma blind_RecordEvent n v : registry_blind (RecordEvent n v).
Proof. done. Qed.

Lemma blind_IncrementCounter n : registry_blind (IncrementCounter n).
Proof. done. Qed.

Lemma blind_set_pool p pl : registry_blind (set_pool p pl).
Proof. done. Qed.

Lemma blind_set_thread t wk : registry_blind (set_thread t wk).
Proof. done. Qed.

Hint Resolve blind_time_time blind_cpu_percent blind_emit blind_log blind_RecordEvent
  blind_IncrementCounter blind_set_pool blind_set_thread : blind.

Lemma blind_set_pc t c : registry_blind (set_pc t c).
Proof. unfold set_pc. blind. Qed.

Lemma blind_set_idle t b : registry_blind (set_idle t b).
Proof. unfold set_idle. blind. Qed.

Lemma blind_call by_ target args task_name : registry_blind (call by_ target args task_name).
Proof. unfold call. blind. Qed.

Hint Resolve blind_set_pc blind_set_idle blind_call : blind.

Lemma blind_CPUUsage p : registry_blind (CPUUsage p).
Proof. unfold CPUUsage. blind. Qed.

Lemma blind_str e : registry_blind (str (A := A) e).
Proof. by destruct e. Qed.

Hint Resolve blind_str : blind.

Lemma blind_ProcessTask t tk : registry_blind (ProcessTask t tk).
Proof. unfold ProcessTask. blind. Qed.

Lemma blind__RemoveWorker p key : registry_blind (_RemoveWorker p key).
Proof. unfold _RemoveWorker. blind. Qed.

Hint Resolve blind_CPUUsage blind_ProcessTask blind__RemoveWorker : blind.

Lemma blind__RemoveFromPool t : registry_blind (_RemoveFromPool t).
Proof. unfold _RemoveFromPool. blind. Qed.

Lemma blind_loop_top t : registry_blind (loop_top t).
Proof. unfold loop_top. blind. Qed.

Hint Resolve blind__RemoveFromPool blind_loop_top : blind.

Lemma blind_age_check t : registry_blind (age_check t).
Proof. unfold age_check. blind. Qed.

Lemma blind_queue_task_done t m : registry_blind (queue_task_done t m).
Proof. unfold queue_task_done. blind. Qed.

Hint Resolve blind_age_check blind_queue_task_done : blind.

Lemma blind_run_step held t : registry_blind (run_step held t).
Proof. unfold run_step. blind. Qed.

Lemma blind_worker_step held t P w :
  worker_step held t (set_POOLS P w) = set_POOLS P (worker_step held t w).
Proof.
  unfold worker_step. rewrite blind_run_step.
  destruct (run_step held t w) as [[?|?|] w1]; simpl; try done;
    unfold kill; simpl; by destruct (threads w1 !! t).
Qed.

Lemma blind_worker_steps held ts P w :
  foldl (λ w t, worker_step held t w) (set_POOLS P w) ts
  = set_POOLS P (foldl (λ w t, worker_step held t w) w ts).
Proof.
  revert w. induction ts as [|t ts IH]; intros w; simpl; [done|].
  by rewrite blind_worker_step, IH.
Qed.

Lemma blind_yield held : registry_blind (yield held).
Proof.
  intros P w. unfold yield. simpl. f_equal.
  apply (blind_worker_steps held _ P
           (set_env (mk_Env (clock (env w)) (cpu (env w)) (spawn (env w))
                            (tl (sched (env w)))) w)).
Qed.

Hint Resolve blind_yield : blind.

Lemma blind_wait_until fuel held (cond : World → bool) :
  (∀ P w, cond (set_POOLS P w) = cond w) →
  registry_blind (wait_until fuel held cond).
Proof.
  intros Hc. induction fuel as [|fuel IH]; intros P w; simpl; rewrite Hc.
  - by destruct (cond w).
  - destruct (cond w); [done|].
    apply (blind_bind (yield held) (λ _, wait_until fuel held cond)); [blind|done].
Qed.

Lemma blind__AddWorker p : registry_blind (_AddWorker p).
Proof. unfold _AddWorker. blind. Qed.

Lemma blind_put_task p target args task_name :
  registry_blind (put_task p target args task_name).
Proof. unfold put_task. blind. Qed.

Hint Resolve blind__AddWorker blind_put_task : blind.

Lemma blind_grow p : registry_blind (grow p).
Proof. unfold grow. blind. Qed.

Hint Resolve blind_grow : blind.

Lemma blind_AddTask_iteration p target args task_name blocking inline :
  registry_blind (AddTask_iteration p target args task_name blocking inline).
Proof. unfold AddTask_iteration. blind. Qed.

Lemma blind_AddTask_loop fuel p target args task_name blocking inline :
  registry_blind (AddTask_loop fuel p target args task_name blocking inline).
Proof.
  induction fuel as [|fuel IH]; simpl; [blind|].
  apply blind_bind; [apply blind_AddTask_iteration|]. intros [| |]; blind.
Qed.

Hint Resolve blind_AddTask_loop : blind.

Lemma blind_AddTask fuel p target args task_name blocking inline :
  registry_blind (AddTask fuel p target args task_name blocking inline).
Proof. unfold AddTask. blind. Qed.

Lemma blind_Join fuel held p : registry_blind (Join fuel held p).
Proof. by apply blind_wait_until. Qed.

Lemma blind_thread_join fuel held t : registry_blind (thread_join fuel held t).
Proof. by apply blind_wait_until. Qed.

Lemma blind_put_stop fuel p : registry_blind (put_stop fuel p).
Proof.
  unfold put_stop. apply blind_bind; [by apply blind_wait_until|]. intros _. blind.
Qed.

Lemma blind_for_each {X} (l : list X) (body : X → M unit) :
  (∀ x, registry_blind (body x)) → registry_blind (for_each l body).
Proof. intros Hb. induction l; simpl; blind. Qed.

Lemma blind_repeat_M n (m : M unit) : registry_blind m → registry_blind (repeat_M n m).
Proof. intros Hm. induction n; simpl; blind. Qed.

Lemma blind_Start p : registry_blind (Start p).
Proof.
  unfold Start. blind. apply blind_repeat_M. blind.
Qed.

Lemma blind_Stop fuel p : registry_blind (Stop fuel p).
Proof.
  unfold Stop. blind.
  - apply blind_for_each. intros _. apply blind_put_stop.
  - apply blind_Join.
  - apply blind_for_each. intros t. apply blind_thread_join.
Qed.

Lemma blind_init_unnamed mn mx cc : registry_blind (ThreadPool_init "" mn mx cc).
Proof. unfold ThreadPool_init. simpl. blind. Qed.

Lemma blind_POOLS {R} (m : M R) w : registry_blind m → POOLS (snd (m w)) = POOLS w.
Proof.
  intros Hm. specialize (Hm (POOLS w) w).
  assert (set_POOLS (POOLS w) w = w) as Hw by (by destruct w).
  rewrite Hw in Hm. rewrite Hm at 1. done.
Qed.

(** C7, amended. The constructor called with the empty name, and the use
    of any pool (Start, AddTask, Stop, Join and the steps of the workers),
    never create, read or reuse an entry of the registry: they do the same
    whatever the registry holds and leave it as it is. Factory is no
    exception to its rule: called with the empty name it looks the name
    up, returns the pool it finds, and otherwise stores the new pool under
    the empty name. *)
Theorem unnamed_pools_and_the_registry :
  (∀ mn mx cc, registry_blind (ThreadPool_init "" mn mx cc))
  ∧ (∀ p, registry_blind (Start p))
  ∧ (∀ fuel p target args task_name blocking inline,
       registry_blind (AddTask fuel p target args task_name blocking inline))
  ∧ (∀ fuel p, registry_blind (Stop fuel p))
  ∧ (∀ fuel held p, registry_blind (Join fuel held p))
  ∧ (∀ held t P w,
       worker_step held t (set_POOLS P w) = set_POOLS P (worker_step held t w))
  ∧ (∀ mn mx cc w,
       POOLS (snd (ThreadPool_init "" mn mx cc w)) = POOLS w
       ∧ fst (ThreadPool_init "" mn mx cc w) = Returns (next_ref w))
  ∧ (∀ mn mx cc w,
       match POOLS w !! "" with
       | Some existing => Factory "" mn mx cc w = (Returns existing, w)
       | None =>
           fst (Factory "" mn mx cc w) = Returns (next_ref w)
           ∧ POOLS (snd (Factory "" mn mx cc w)) = <["" := next_ref w]> (POOLS w)
       end).
Proof.
  split; [apply blind_init_unnamed|].
  split; [apply blind_Start|].
  split; [apply blind_AddTask|].
  split; [apply blind_Stop|].
  split; [apply blind_Join|].
  split; [apply blind_worker_step|].
  split.
  - intros mn mx cc w. split; [apply blind_POOLS, blind_init_unnamed|].
    by destruct (ThreadPool_init_accepts "" mn mx cc w (or_introl eq_refl))
      as (w' & -> & _).
  - intros mn mx cc w. rewrite Factory_unfold.
    destruct (POOLS w !! "") as [r|] eqn:E; [done|].
    destruct (ThreadPool_init_accepts "" mn mx cc w (or_introl eq_refl))
      as (w' & -> & HP & _).
    simpl. by rewrite HP.
Qed.

End Blind.

(** ** The size band *)

Section Band.

Context {A : Type}.

Local Abbreviation World := (World A).
Local Abbreviation ThreadPool := (ThreadPool A).
Local Abbreviation WorkerThread := (WorkerThread A).

Implicit Types (w : World) (pl : ThreadPool) (wk : WorkerThread).

Lemma running_band_ext w w' p :
  objects w' = objects w → running_band p w → running_band p w'.
Proof. intros Ho (pl & Hp & H). exists pl. by rewrite Ho. Qed.

Lemma running_band_upd w w' p q plq pl' :
  running_band p w → objects w !! q = Some plq →
  objects w' = <[q := pl']> (objects w) →
  (q = p → started plq = true → size_band plq → started pl' = true ∧ size_band pl') →
  running_band p w'.
Proof.
  intros (pl & Hp & Hs & Hb) Hq Ho Hnew. unfold running_band. rewrite Ho.
  destruct (decide (q = p)) as [->|Hne].
  - rewrite lookup_insert_eq. exists pl'. split; [done|].
    assert (plq = pl) as -> by congruence. by apply Hnew.
  - rewrite lookup_insert_ne by done. by exists pl.
Qed.

Lemma mut_band l w w' p :
  mut l w w' → Inv w → running_band p w →
  l ≠ LAdd p false → l ≠ LClear p → l ≠ LStarted p false →
  running_band p w'.
Proof.
  intros Hm [Hwf _] Hb Hadd Hclear Hstarted.
  destruct Hm;
    match goal with
    | Hc : core _ = core _ |- _ =>
        destruct (core_fields _ _ Hc) as (_ & Ho & _); simpl in Ho
    end;
    try (by eapply running_band_ext).
  - eapply running_band_upd; eauto.
  - eapply running_band_upd; eauto.
  - eapply running_band_upd; eauto.
  - eapply running_band_upd; eauto. intros _ Hs [Hlo Hhi]. split; [done|].
    destruct (wf_pools w Hwf _ _ H1) as [Hro _ _ _].
    unfold size_band, len in *. simpl. rewrite Hro in *.
    pose proof (map_size_delete (w_name wk) (_workers pl)) as Hd.
    destruct (_workers pl !! w_name wk); simpl in Hd; lia.
  - eapply running_band_upd; eauto. intros -> Hs [Hlo Hhi]. split; [done|].
    destruct guarded; [|done]. specialize (H0 eq_refl).
    destruct (wf_pools w Hwf _ _ H) as [Hro _ _ _].
    unfold size_band, len in *. simpl. rewrite Hro in *.
    pose proof (map_size_insert (worker_name pl (S (thread_counter w)))
                  (S (thread_counter w)) (_workers pl)) as Hi.
    destruct (_workers pl !! _); simpl in Hi; lia.
  - eapply running_band_upd; eauto. intros -> Hs Hbd. split; [|done].
    destruct b; [done|]. by destruct Hstarted.
  - eapply running_band_upd; eauto. intros ->. by destruct Hclear.
  - destruct Hb as (pl & Hp & Hs & Hbd). exists pl. rewrite Ho.
    rewrite lookup_insert_ne; [done|].
    assert (p < next_ref w) by (apply (wf_objects_bound w Hwf); eauto). lia.
Qed.

Lemma steps_band allowed w w' p :
  steps allowed w w' → Inv w → running_band p w →
  (∀ l, allowed l → l ≠ LAdd p false ∧ l ≠ LClear p ∧ l ≠ LStarted p false) →
  running_band p w'.
Proof.
  intros Hs. induction Hs as [|l w1 w2 w3 Hl Hm Hs IH]; intros Hw Hb Hall; [done|].
  destruct (Hall l Hl) as (H1 & H2 & H3).
  apply IH; [by eapply mut_Inv| |done]. by eapply mut_band.
Qed.

(** Every operation but Stop keeps a started pool in its band. *)
Lemma exec_band o w p :
  Inv w → running_band p w → ¬ is_Stop_of p o → running_band p (exec o w).
Proof.
  intros Hw Hb Hns.
  assert (∀ q, q = p → running_band p (exec (OpStart q) w)) as Hstart.
  { intros q ->. destruct Hb as (pl & Hp & Hs & Hbd). simpl.
    rewrite (Start_eq w p pl) by done. rewrite Hs. simpl. by exists pl. }
  destruct o as [| |q| | | |]; try destruct (decide (q = p)) as [Heq|Hne];
    try (by apply Hstart);
    (eapply steps_band; [by apply exec_steps|done..|]); intros l Hl; simpl in Hl, Hns.
  all: unfold Start_label, Stop_label, AddTask_label in Hl.
  all: repeat match goal with
         | H : _ ∨ _ |- _ => destruct H
         | H : ∃ _, _ |- _ => destruct H
         | H : worker_label _ ?l |- _ => destruct l; simpl in H; try done
         end.
  all: subst; repeat split; congruence.
Qed.

Lemma run_ops_band ops w p :
  Inv w → running_band p w → Forall (λ o, ¬ is_Stop_of p o) ops →
  running_band p (run_ops ops w).
Proof.
  revert w. induction ops as [|o ops IH]; intros w Hw Hb Hall; simpl; [done|].
  inversion Hall; subst.
  apply IH; [by apply exec_Inv|by apply exec_band|done].
Qed.

(** The name of the next thread is new to the pool. *)
Lemma fresh_worker_name w p pl :
  wf w → objects w !! p = Some pl →
  _workers pl !! worker_name pl (S (thread_counter w)) = None.
Proof.
  intros Hwf Hp. destruct (_workers pl !! _) as [t|] eqn:E; [|done].
  destruct (wf_pools w Hwf p pl Hp) as [_ _ _ Hws].
  destruct (Hws _ _ E) as (Hn & wk & Hwk & _).
  apply worker_name_inj in Hn. subst t.
  assert (S (thread_counter w) ≤ thread_counter w)
    by (apply (wf_threads_bound w Hwf); eauto).
  lia.
Qed.

(** _AddWorker, when the thread starts: one worker more. *)
Lemma _AddWorker_returns w p pl :
  Inv w → objects w !! p = Some pl →
  fst (_AddWorker p w) = Returns tt →
  Inv (snd (_AddWorker p w))
  ∧ ∃ pl', objects (snd (_AddWorker p w)) !! p = Some pl'
           ∧ started pl' = started pl ∧ min_threads pl' = min_threads pl
           ∧ max_threads pl' = max_threads pl
           ∧ size (_workers pl') = S (size (_workers pl))
           ∧ _workers_ro_copy pl' = _workers pl'.
Proof.
  intros Hw Hp Hr. split.
  { destruct (_AddWorker_mut w p pl false Hp) as (l & _ & Hm); [done|].
    by eapply mut_Inv. }
  rewrite (_AddWorker_eq w p pl Hp) in *. simpl in *.
  destruct (hd true (spawn (env w))); [|done]. simpl.
  rewrite lookup_insert_eq. eexists. split; [done|]. simpl.
  repeat split; try done.
  apply map_size_insert_None. apply (fresh_worker_name w p pl (proj1 Hw) Hp).
Qed.

Lemma repeat__AddWorker_returns n w p pl :
  Inv w → objects w !! p = Some pl →
  fst (repeat_M n (_AddWorker p) w) = Returns tt →
  ∃ pl', objects (snd (repeat_M n (_AddWorker p) w)) !! p = Some pl'
         ∧ started pl' = started pl ∧ min_threads pl' = min_threads pl
         ∧ max_threads pl' = max_threads pl
         ∧ size (_workers pl') = size (_workers pl) + n
         ∧ (n ≠ 0 → _workers_ro_copy pl' = _workers pl').
Proof.
  revert w pl. induction n as [|n IH]; intros w pl Hw Hp Hr; simpl in *.
  - exists pl. repeat split; try done; lia.
  - unfold bind in *.
    destruct (_AddWorker_returns w p pl Hw Hp) as (Hw1 & pl1 & Hp1 & Hs1 & Hmin1 & Hmax1 & Hsz1 & Hro1).
    { by destruct (_AddWorker p w) as [[[]|e|] w1]. }
    destruct (_AddWorker p w) as [[[]|e|] w1]; simpl in *; try done.
    destruct (IH w1 pl1 Hw1 Hp1 Hr) as (pl' & Hp' & Hs' & Hmin' & Hmax' & Hsz' & Hro').
    exists pl'. repeat split; try congruence; [lia|].
    intros _. destruct n; [|by apply Hro'].
    simpl in Hp'. assert (pl' = pl1) as -> by congruence. done.
Qed.

Lemma Start_establishes_band w p pl :
  Inv w → objects w !! p = Some pl →
  started pl = false → _workers pl = ∅ → (0 ≤ min_threads pl)%Z →
  fst (Start p w) = Returns tt →
  ∃ pl', objects (snd (Start p w)) !! p = Some pl'
         ∧ started pl' = true ∧ len pl' = min_threads pl' ∧ size_band pl'.
Proof.
  intros Hw Hp Hs Hwk Hmin Hr.
  rewrite (Start_eq w p pl Hp) in *. rewrite Hs in *.
  set (w1 := upd_pool p (set_started true pl) (add_event (EvStart p) w)) in *.
  assert (Inv w1) as Hw1.
  { eapply (mut_Inv (LStarted p true) (add_event (EvStart p) w)).
    - by eapply mut_started.
    - by apply Inv_add_event. }
  assert (objects w1 !! p = Some (set_started true pl)) as Hp1
    by apply lookup_insert_eq.
  destruct (repeat__AddWorker_returns _ w1 p _ Hw1 Hp1 Hr)
    as (pl' & Hp' & Hs' & Hmin' & Hmax' & Hsz' & Hro').
  simpl in *. exists pl'. split; [done|]. split; [done|].
  destruct (wf_pools w (proj1 Hw) p pl Hp) as [Hro Hmm _ _].
  rewrite Hwk, map_size_empty in Hsz'. simpl in Hsz'.
  assert (len pl' = min_threads pl') as Hlen.
  { unfold len. destruct (decide (Z.to_nat (min_threads pl) = 0)) as [Hz|Hnz].
    - rewrite Hz in Hp'. simpl in Hp'. rewrite Hp1 in Hp'. injection Hp' as <-.
      simpl. rewrite Hro, Hwk, map_size_empty. lia.
    - rewrite (Hro' Hnz), Hsz'. lia. }
  split; [done|]. unfold size_band. lia.
Qed.

Lemma grow_at_max_threads w p pl :
  objects w !! p = Some pl → (max_threads pl ≤ len pl)%Z →
  grow p w = (Returns false, w).
Proof.
  intros Hp Hlen. unfold grow, bind. rewrite (get_pool_eq w p pl Hp).
  destruct (Z.ltb_spec (len pl) (max_threads pl)); [lia|done].
Qed.

Lemma _RemoveFromPool_at_min_threads w t wk pl :
  threads w !! t = Some wk → objects w !! w_pool wk = Some pl →
  (len pl ≤ min_threads pl)%Z →
  _RemoveFromPool t w = (Returns false, w).
Proof.
  intros Ht Hp Hlen. rewrite (_RemoveFromPool_eq w t wk pl Ht Hp).
  destruct (Z.leb_spec (len pl) (min_threads pl)); [done|lia].
Qed.

(** C3, amended. For a pool whose [min_threads] is not negative: from the
    return of a Start that found the pool not started and without workers
    (all [min_threads] threads started) until Stop is called on the pool,
    [min_threads <= len <= max_threads] holds after every operation of the
    process: AddTask, Start, Join and the construction of pools, on this
    pool or another, and every step of every worker. The growth step of
    AddTask adds no worker when the count has reached [max_threads], and
    _RemoveFromPool removes none when the count is not above
    [min_threads]. *)
Theorem size_band_from_Start_to_Stop w p pl ops :
  reachable w → objects w !! p = Some pl →
  started pl = false → _workers pl = ∅ → (0 ≤ min_threads pl)%Z →
  fst (Start p w) = Returns tt →
  Forall (λ o, ¬ is_Stop_of p o) ops →
  running_band p (run_ops ops (snd (Start p w)))
  ∧ (∀ w1 pl1, objects w1 !! p = Some pl1 → (max_threads pl1 ≤ len pl1)%Z →
       grow p w1 = (Returns false, w1))
  ∧ (∀ w1 t wk pl1, threads w1 !! t = Some wk → objects w1 !! w_pool wk = Some pl1 →
       (len pl1 ≤ min_threads pl1)%Z →
       _RemoveFromPool t w1 = (Returns false, w1)).
Proof.
  intros Hr Hp Hs Hwk Hmin Hret Hops.
  pose proof (reachable_Inv w Hr) as Hw.
  split; [|split].
  - apply run_ops_band; [| |done].
    + by apply (exec_Inv (OpStart p)).
    + destruct (Start_establishes_band w p pl Hw Hp Hs Hwk Hmin Hret)
        as (pl' & Hp' & Hs' & _ & Hb).
      by exists pl'.
  - intros w1 pl1. apply grow_at_max_threads.
  - intros w1 t wk pl1. apply _RemoveFromPool_at_min_threads.
Qed.

End Band.

(** ** AddTask and Full *)

Section AddTaskFull.

Context {A : Type}.

Local Abbreviation World := (World A).
Local Abbreviation ThreadPool := (ThreadPool A).
Local Abbreviation WorkerThread := (WorkerThread A).

Implicit Types (w : World) (pl : ThreadPool) (wk : WorkerThread).

(** The world after a reading of the clock. *)
Lemma put_task_eq w p pl target args task_name :
  objects w !! p = Some pl →
  put_task p target args task_name w =
  let w1 := snd (time_time w) in
  match put_nowait (Task (mk_task target args task_name (hd 0%Z (clock (env w)))))
                   (_queue pl) with
  | Some q => (Returns true, upd_pool p (set_queue q pl) w1)
  | None => (Returns false, w1)
  end.
Proof.
  intros Hp. unfold put_task, bind. simpl. unfold get_pool. simpl. rewrite Hp.
  by destruct (put_nowait _ _).
Qed.

Lemma put_task_missing w p target args task_name :
  objects w !! p = None →
  fst (put_task p target args task_name w) = Raises InvalidReference.
Proof.
  intros Hp. unfold put_task, bind. simpl. unfold get_pool. simpl. by rewrite Hp.
Qed.

Lemma put_task_not_Full w p target args task_name :
  fst (put_task p target args task_name w) ≠ Raises Full.
Proof.
  destruct (objects w !! p) as [pl|] eqn:Hp.
  - rewrite (put_task_eq w p pl) by done. simpl. by destruct (put_nowait _ _).
  - by rewrite put_task_missing.
Qed.

Lemma put_nowait_None_iff (m : message A) q : put_nowait m q = None ↔ full q = true.
Proof. unfold put_nowait. by destruct (full q). Qed.

Lemma CPUUsage_eq w p pl :
  objects w !! p = Some pl →
  fst (CPUUsage p w) = Returns (usage w pl)
  ∧ objects (snd (CPUUsage p w)) = objects w
  ∧ threads (snd (CPUUsage p w)) = threads w
  ∧ thread_counter (snd (CPUUsage p w)) = thread_counter w
  ∧ spawn (env (snd (CPUUsage p w))) = spawn (env w)
  ∧ core (snd (CPUUsage p w)) = core w.
Proof.
  intros Hp. unfold CPUUsage, bind, usage. rewrite (get_pool_eq w p pl Hp).
  by destruct (cpu_check pl).
Qed.

(** The growth step, case by case. *)
Lemma grow_eq w p pl :
  objects w !! p = Some pl →
  grow p w =
  if (len pl <? max_threads pl)%Z then
    let w1 := snd (CPUUsage p w) in
    if (usage w pl <? 90)%Z then
      if hd true (spawn (env w)) then (Returns true, snd (_AddWorker p w1))
      else (Returns false,
            snd (log (LogError "Threadpool exception: Could not spawn worker threads.")
                   (snd (_AddWorker p w1))))
    else (Returns false, w1)
  else (Returns false, w).
Proof.
  intros Hp. unfold grow. unfold bind at 1. rewrite (get_pool_eq w p pl Hp).
  destruct (len pl <? max_threads pl)%Z; [|done].
  unfold bind at 1 2.
  destruct (CPUUsage_eq w p pl Hp) as (Hu & Ho & _ & _ & Hs & _).
  destruct (CPUUsage p w) as [r w1]. simpl in *. subst r. simpl.
  destruct (usage w pl <? 90)%Z; [|done].
  assert (objects w1 !! p = Some pl) as Hp1 by (by rewrite Ho).
  unfold try_except, bind. rewrite (_AddWorker_eq w1 p pl Hp1). simpl.
  rewrite Hs. by destruct (hd true (spawn (env w))).
Qed.

Lemma grow_false_iff w p pl :
  objects w !! p = Some pl →
  (fst (grow p w) = Returns false
   ↔ (max_threads pl ≤ len pl)%Z ∨ (90 ≤ usage w pl)%Z
     ∨ hd true (spawn (env w)) = false)
  ∧ (fst (grow p w) = Returns false ∨ fst (grow p w) = Returns true).
Proof.
  intros Hp. rewrite (grow_eq w p pl Hp).
  destruct (Z.ltb_spec (len pl) (max_threads pl)); simpl.
  2:{ split; [|by left]. split; [by left|done]. }
  destruct (Z.ltb_spec (usage w pl) 90); simpl.
  2:{ split; [|by left]. split; [right; by left|done]. }
  destruct (hd true (spawn (env w))); simpl.
  - split; [|by right]. split; [done|]. intros [?|[?|?]]; [lia|lia|done].
  - split; [|by left]. split; [right; by right|done].
Qed.

Lemma no_spawn_tick p w : no_spawn p (snd (time_time w)) ↔ no_spawn p w.
Proof. done. Qed.

(** One pass through the body of the loop raises Full exactly when neither
    blocking nor inline is set, the queue is full at the put, and no worker
    is added. *)
Lemma AddTask_iteration_Full p target args task_name blocking inline w :
  fst (AddTask_iteration p target args task_name blocking inline w) = Raises Full
  ↔ blocking = false ∧ inline = false
    ∧ saturated p (at_put p w) ∧ no_spawn p (at_put p w).
Proof.
  unfold AddTask_iteration, at_put. unfold bind at 1.
  destruct (yield (Some p) w) as [[[]|e|] w1] eqn:Hy; try done. simpl.
  unfold saturated, no_spawn.
  destruct (objects w1 !! p) as [pl|] eqn:Hp.
  2:{ unfold bind. pose proof (put_task_missing w1 p target args task_name Hp) as Hm.
      destruct (put_task p target args task_name w1) as [r w2]. simpl in Hm. subst r.
      split; [done|]. by intros (_ & _ & (pl & ? & _) & _). }
  unfold bind at 1. rewrite (put_task_eq w1 p pl) by done. simpl.
  destruct (put_nowait _ _) as [q|] eqn:Hput.
  { split; [done|]. intros (_ & _ & (pl' & Hp' & Hf) & _).
    assert (pl' = pl) as -> by congruence.
    apply put_nowait_Some in Hput as (Hnf & _). congruence. }
  apply put_nowait_None_iff in Hput.
  set (w2 := set_env _ w1).
  assert (objects w2 !! p = Some pl) as Hp2 by done.
  destruct (grow_false_iff w2 p pl Hp2) as [Hiff Hcases].
  unfold bind at 1.
  destruct (grow p w2) as [rg w3]. simpl in Hiff, Hcases.
  destruct Hcases as [-> | ->]; simpl.
  - destruct inline.
    { split; [done|]. by intros (_ & ? & _). }
    destruct blocking.
    { split; [|by intros (? & _)].
      unfold bind at 1.
      destruct (yield (Some p) w3) as [[[]|?|] w4] eqn:Hy'; try done.
      unfold bind. pose proof (put_task_not_Full w4 p target args task_name) as Hnf.
      destruct (put_task p target args task_name w4) as [[[]|?|] w5]; try done.
      simpl in *. intros [= ->]. by destruct Hnf. }
    simpl. split; [|done]. intros _. repeat split.
    + by exists pl.
    + exists pl. split; [done|]. by apply Hiff.
  - split; [done|]. intros (_ & _ & _ & (pl' & Hp' & Hc)).
    assert (pl' = pl) as -> by congruence.
    assert (Returns true = Returns (R := bool) false) as Hx by (by apply Hiff).
    done.
Qed.

Lemma iterations_stuck (body : M A loop_exit) k w w_k r w1 :
  body w = (r, w1) → r ≠ Returns Continue →
  iterations body k w w_k → k = 0 ∧ w_k = w.
Proof.
  intros Hb Hr Hit. inversion Hit as [|k0 wa wb wc Hb' Hrest]; subst; [done|].
  rewrite Hb in Hb'. congruence.
Qed.

Lemma AddTask_loop_Full fuel p target args task_name blocking inline w :
  fst (AddTask_loop fuel p target args task_name blocking inline w) = Raises Full
  ↔ ∃ k w_k, k < fuel
      ∧ iterations (AddTask_iteration p target args task_name blocking inline) k w w_k
      ∧ fst (AddTask_iteration p target args task_name blocking inline w_k) = Raises Full.
Proof.
  revert w. induction fuel as [|fuel IH]; intros w; simpl.
  { split; [done|]. intros (k & w_k & Hk & _). lia. }
  unfold bind.
  destruct (AddTask_iteration p target args task_name blocking inline w)
    as [r w1] eqn:Hbody.
  assert (r = Returns Continue ∨ r ≠ Returns Continue) as [->|Hne].
  { destruct r as [[| |]|e|]; (by left) || (by right). }
  - rewrite IH. split.
    + intros (k & w_k & Hk & Hit & Hf). exists (S k), w_k.
      split; [lia|]. split; [|done]. by eapply iterations_S.
    + intros (k & w_k & Hk & Hit & Hf).
      inversion Hit as [|k0 wa wb wc Hb' Hrest]; subst.
      * rewrite Hbody in Hf. done.
      * rewrite Hbody in Hb'. injection Hb' as <-.
        exists k0, w_k. split; [lia|]. done.
  - assert ((match r with
             | Returns Continue => AddTask_loop fuel p target args task_name blocking inline w1
             | Returns Break => ret false w1
             | Returns Return => ret true w1
             | Raises e => (Raises e, w1)
             | Blocked => (Blocked, w1)
             end).1 = Raises Full ↔ r = Raises Full) as Hr.
    { destruct r as [[| |]|e|]; simpl; try done; split; congruence. }
    destruct r as [[| |]|e|]; try done; simpl in *; rewrite Hr; clear Hr.
    all: split;
      [ intros Hx; exists 0, w; split; [lia|]; split; [constructor|];
        by rewrite Hbody
      | intros (k & w_k & Hk & Hit & Hf);
        destruct (iterations_stuck _ _ _ _ _ _ Hbody Hne Hit) as [-> ->];
        by rewrite Hbody in Hf ].
Qed.

(** *** The loop ends when it does not block *)

(** The transitions that leave the workers of pool [p] as they are. *)
Lemma mut_keeps_workers l w w' p pl :
  mut l w w' → wf w →
  (∀ g, l ≠ LAdd p g) → l ≠ LClear p → (∀ t, l ≠ LRetire t p) →
  objects w !! p = Some pl →
  ∃ pl', objects w' !! p = Some pl'
         ∧ _workers_ro_copy pl' = _workers_ro_copy pl
         ∧ max_threads pl' = max_threads pl.
Proof.
  intros Hm Hwf Hadd Hclear Hretire Hp.
  assert (∀ q f, (∀ x, _workers_ro_copy (f x) = _workers_ro_copy x
                       ∧ max_threads (f x) = max_threads x) →
            ∀ plq, objects w !! q = Some plq →
            ∃ pl', <[q := f plq]> (objects w) !! p = Some pl'
                   ∧ _workers_ro_copy pl' = _workers_ro_copy pl
                   ∧ max_threads pl' = max_threads pl) as Hupd.
  { intros q f Hf plq Hq. destruct (decide (q = p)) as [->|Hne].
    - rewrite lookup_insert_eq. assert (plq = pl) as -> by congruence.
      eexists. split; [done|]. apply Hf.
    - rewrite lookup_insert_ne by done. by exists pl. }
  assert (∀ q pl', q ≠ p →
            ∃ pl'', <[q := pl']> (objects w) !! p = Some pl''
                    ∧ _workers_ro_copy pl'' = _workers_ro_copy pl
                    ∧ max_threads pl'' = max_threads pl) as Hother.
  { intros q pl' Hne. rewrite lookup_insert_ne by done. by exists pl. }
  destruct Hm;
    match goal with
    | Hc : core _ = core _ |- _ =>
        destruct (core_fields _ _ Hc) as (_ & Ho & _); rewrite Ho; simpl
    end; try (by exists pl).
  - by apply (Hupd p0 (set_queue q)).
  - by apply (Hupd (w_pool wk) (set_queue q)).
  - by apply (Hupd (w_pool wk) (set_queue q)).
  - apply Hother. intros Heq. by apply (Hretire t); rewrite Heq.
  - apply Hother. intros ->. by apply (Hadd guarded).
  - by apply (Hupd p0 (set_started b)).
  - apply Hother. intros ->. done.
  - apply Hother.
    assert (p < next_ref w) by (apply (wf_objects_bound w Hwf); eauto). lia.
Qed.

Lemma steps_keep_workers allowed w w' p pl :
  steps allowed w w' → Inv w →
  (∀ l, allowed l → (∀ g, l ≠ LAdd p g) ∧ l ≠ LClear p ∧ (∀ t, l ≠ LRetire t p)) →
  objects w !! p = Some pl →
  ∃ pl', objects w' !! p = Some pl'
         ∧ _workers_ro_copy pl' = _workers_ro_copy pl
         ∧ max_threads pl' = max_threads pl.
Proof.
  intros Hs. revert pl.
  induction Hs as [|l w1 w2 w3 Hl Hm Hs IH]; intros pl Hw Hall Hp; [by exists pl|].
  destruct (Hall l Hl) as (H1 & H2 & H3).
  destruct (mut_keeps_workers l w1 w2 p pl Hm (proj1 Hw) H1 H2 H3 Hp)
    as (pl1 & Hp1 & Hro1 & Hmax1).
  destruct (IH pl1 (mut_Inv _ _ _ Hm Hw) Hall Hp1) as (pl' & Hp' & Hro' & Hmax').
  exists pl'. split; [done|]. split; congruence.
Qed.

Lemma yield_keeps_workers w p pl :
  Inv w → objects w !! p = Some pl →
  Inv (at_put p w)
  ∧ ∃ pl', objects (at_put p w) !! p = Some pl'
           ∧ _workers_ro_copy pl' = _workers_ro_copy pl
           ∧ max_threads pl' = max_threads pl.
Proof.
  intros Hw Hp. pose proof (runs_yield (Some p) w Hw) as Hs.
  split; [by eapply steps_Inv|].
  eapply steps_keep_workers; eauto.
  intros l Hl. destruct l; simpl in Hl; try done. repeat split; try done.
  intros t0 [= -> ->]. done.
Qed.

(** One pass through the body when the caller does not block: the loop
    is left, or a worker has been added. *)
Lemma AddTask_iteration_progress w p pl target args task_name blocking inline :
  Inv w → objects w !! p = Some pl → inline = true ∨ blocking = false →
  let r := AddTask_iteration p target args task_name blocking inline w in
  Inv (snd r)
  ∧ ∃ pl', objects (snd r) !! p = Some pl'
           ∧ max_threads pl' = max_threads pl
           ∧ (fst r = Returns Return
              ∨ (fst r = Returns Break ∧ inline = true)
              ∨ (fst r = Raises Full ∧ inline = false)
              ∨ (fst r = Returns Continue ∧ (len pl < max_threads pl)%Z
                 ∧ len pl' = (len pl + 1)%Z)).
Proof.
  intros Hw Hp Hmode r.
  split.
  { eapply steps_Inv; [apply runs_AddTask_iteration|]; done. }
  subst r.
  destruct (AddTask_iteration p target args task_name blocking inline w)
    as [r w'] eqn:Hbody. simpl.
  unfold AddTask_iteration in Hbody. unfold bind at 1 in Hbody.
  destruct (yield_keeps_workers w p pl Hw Hp) as (Hw1 & pl1 & Hp1 & Hro1 & Hmax1).
  unfold at_put in *.
  destruct (yield (Some p) w) as [[[]|e|] w1] eqn:Hy; try done. simpl in *.
  unfold bind at 1 in Hbody. rewrite (put_task_eq w1 p pl1) in Hbody by done.
  simpl in Hbody.
  destruct (put_nowait _ _) as [q|] eqn:Hput; simpl in Hbody.
  { injection Hbody as <- <-.
    exists (set_queue q pl1). simpl. rewrite lookup_insert_eq.
    split; [done|]. split; [done|]. by left. }
  set (w2 := set_env _ w1) in Hbody.
  assert (objects w2 !! p = Some pl1) as Hp2 by done.
  assert (Inv w2) as Hw2 by (by apply (Inv_core w1)).
  assert (len pl1 = len pl) as Hlen by (unfold len; by rewrite Hro1).
  unfold bind at 1 in Hbody. rewrite (grow_eq w2 p pl1 Hp2) in Hbody.
  destruct (CPUUsage_eq w2 p pl1 Hp2) as (_ & Ho3 & _ & _ & Hs3 & Hc3).
  set (w3 := snd (CPUUsage p w2)) in *.
  assert (∀ wx, objects wx !! p = Some pl1 →
            (if inline then ret Break
             else if blocking
                  then yield (Some p);;
                       (let* pushed := put_task p target args task_name
                        in if pushed then ret Return else ret Continue)
                  else raise Full) wx = (r, w') →
            ∃ pl', objects w' !! p = Some pl'
                   ∧ max_threads pl' = max_threads pl
                   ∧ (r = Returns Return
                      ∨ (r = Returns Break ∧ inline = true)
                      ∨ (r = Raises Full ∧ inline = false)
                      ∨ (r = Returns Continue ∧ (len pl < max_threads pl)%Z
                         ∧ len pl' = (len pl + 1)%Z))) as Hexit.
  { intros wx Hx Hr. exists pl1. destruct inline; simpl in Hr.
    - injection Hr as <- <-. split; [done|]. split; [done|]. right. by left.
    - destruct Hmode as [?| ->]; [done|]. simpl in Hr. injection Hr as <- <-.
      split; [done|]. split; [done|]. right. right. by left. }
  destruct (len pl1 <? max_threads pl1)%Z eqn:Hlt; [|by apply (Hexit w2)].
  simpl in Hbody.
  destruct (usage w2 pl1 <? 90)%Z; [|apply (Hexit w3); [by rewrite Ho3|done]].
  assert (objects w3 !! p = Some pl1) as Hp3 by (by rewrite Ho3).
  assert (Inv w3) as Hw3 by (by apply (Inv_core w2)).
  pose proof (_AddWorker_eq w3 p pl1 Hp3) as Heq. simpl in Heq.
  rewrite Hs3 in Heq. change (spawn (env w2)) with (spawn (env w1)) in Heq.
  destruct (hd true (spawn (env w1))) eqn:Hspawn; simpl in Hbody.
  - destruct (_AddWorker_returns w3 p pl1 Hw3 Hp3)
      as (_ & pl' & Hp' & _ & _ & Hmax' & Hsz' & Hro').
    { by rewrite Heq. }
    injection Hbody as <- <-.
    exists pl'. split; [done|]. split; [congruence|].
    right. right. right. split; [done|].
    apply Z.ltb_lt in Hlt. split; [lia|].
    destruct (wf_pools w1 (proj1 Hw1) p pl1 Hp1) as [Hrow _ _ _].
    unfold len in *. rewrite Hro', Hsz', <- Hrow. lia.
  - eapply Hexit; [|exact Hbody]. simpl. by rewrite Heq.
Qed.

Lemma AddTask_loop_ends fuel w p pl target args task_name blocking inline :
  Inv w → objects w !! p = Some pl → inline = true ∨ blocking = false →
  Z.to_nat (max_threads pl - len pl) < fuel →
  (∃ returned, fst (AddTask_loop fuel p target args task_name blocking inline w)
               = Returns returned)
  ∨ (fst (AddTask_loop fuel p target args task_name blocking inline w) = Raises Full
     ∧ inline = false).
Proof.
  revert w pl. induction fuel as [|fuel IH]; intros w pl Hw Hp Hmode Hfuel; [lia|].
  simpl. unfold bind.
  destruct (AddTask_iteration_progress w p pl target args task_name blocking inline
              Hw Hp Hmode) as (Hw1 & pl' & Hp' & Hmax' & Hcases).
  destruct (AddTask_iteration p target args task_name blocking inline w) as [r w1].
  simpl in *.
  destruct Hcases as [->|[[-> _]|[[-> Hi]|(-> & Hlt & Hlen)]]]; simpl.
  - left. by exists true.
  - left. by exists false.
  - by right.
  - apply (IH w1 pl'); try done. rewrite Hmax', Hlen. lia.
Qed.

(** X1. AddTask on a pool with [max_threads > 0] (the task itself not
    raising Full) raises Full exactly when [blocking] and [inline] are both
    false and the loop comes to an iteration in which the non-blocking put
    finds the queue full and the growth step adds no worker: the pool is at
    [max_threads], the CPU usage is 90 or more, or the thread does not
    start. With [inline] set, as by default, AddTask never raises Full, and
    the loop ends within [max_threads - len + 1] iterations, by the task
    being queued or, the queue being full, by the call of the target on the
    calling thread. *)
Theorem AddTask_raises_Full_exactly_when w p pl fuel target args task_name blocking inline :
  reachable w → objects w !! p = Some pl → (0 < max_threads pl)%Z →
  target args ≠ Some Full →
  let w0 := add_event (EvAddTask p target args task_name blocking inline) w in
  let body := AddTask_iteration p target args task_name
                (if inline then false else blocking) inline in
  (fst (AddTask fuel p target args task_name blocking inline w) = Raises Full
   ↔ blocking = false ∧ inline = false
     ∧ ∃ k w_k, k < fuel ∧ iterations body k w0 w_k
                ∧ saturated p (at_put p w_k) ∧ no_spawn p (at_put p w_k))
  ∧ (inline = true →
       fst (AddTask fuel p target args task_name blocking inline w) ≠ Raises Full
       ∧ (Z.to_nat (max_threads pl - len pl) < fuel →
          ∃ returned w1,
            AddTask_loop fuel p target args task_name false inline w0
            = (Returns returned, w1)
            ∧ AddTask fuel p target args task_name blocking inline w
              = if returned then (Returns tt, w1)
                else call Caller target args task_name w1)).
Proof.
  intros Hr Hp Hmax Htarget w0 body.
  pose proof (reachable_Inv w Hr) as Hw.
  assert (Inv w0) as Hw0 by (by apply Inv_add_event).
  assert (objects w0 !! p = Some pl) as Hp0 by done.
  pose proof (AddTask_eq w p pl fuel target args task_name blocking inline Hp) as Heq.
  simpl in Heq. fold w0 in Heq.
  destruct (Z.eqb_spec (max_threads pl) 0) as [|_]; [lia|].
  assert (fst (AddTask fuel p target args task_name blocking inline w) = Raises Full
          ↔ fst (AddTask_loop fuel p target args task_name
                   (if inline then false else blocking) inline w0) = Raises Full)
    as Hloop.
  { rewrite Heq. unfold bind.
    destruct (AddTask_loop fuel p target args task_name
                (if inline then false else blocking) inline w0) as [[[]|e|] wl]; simpl;
      [split; intros [=]| |split; intros [= ->]; done|split; intros [=]].
    destruct inline; [|split; intros [=]]. rewrite call_eq. simpl.
    destruct (target args) as [e|]; simpl; (split; [|intros [=]]).
    - intros [= ->]. done.
    - intros [=]. }
  assert (fst (AddTask fuel p target args task_name blocking inline w) = Raises Full
          ↔ blocking = false ∧ inline = false
            ∧ ∃ k w_k, k < fuel ∧ iterations body k w0 w_k
                       ∧ saturated p (at_put p w_k) ∧ no_spawn p (at_put p w_k))
    as Hiff.
  { rewrite Hloop, AddTask_loop_Full. fold body. split.
    - intros (k & w_k & Hk & Hit & Hf).
      apply AddTask_iteration_Full in Hf as (Hb & Hi & Hsat & Hno).
      subst inline. simpl in Hb. subst blocking. eauto 10.
    - intros (-> & -> & k & w_k & Hk & Hit & Hsat & Hno).
      exists k, w_k. split; [done|]. split; [done|].
      by apply AddTask_iteration_Full. }
  split; [exact Hiff|].
  intros ->. split.
  { rewrite Hiff. by intros (_ & ? & _). }
  intros Hfuel.
  destruct (AddTask_loop_ends fuel w0 p pl target args task_name false true Hw0 Hp0)
    as [[returned Hret]|[_ ?]]; [by left|done| |done].
  simpl in Heq. rewrite Heq. unfold bind.
  destruct (AddTask_loop fuel p target args task_name false true w0) as [rl w1].
  simpl in Hret. subst rl. exists returned, w1. split; [done|].
  by destruct returned.
Qed.

End AddTaskFull.

(** * The claims of the specification *)

Section Claims.

Context {A : Type}.

Local Abbreviation World := (World A).
Local Abbreviation ThreadPool := (ThreadPool A).
Local Abbreviation WorkerThread := (WorkerThread A).

Implicit Types (w : World) (pl : ThreadPool) (wk : WorkerThread).

Lemma set_workers_empty pl :
  _workers pl = ∅ → _workers_ro_copy pl = ∅ → set_workers ∅ pl = pl.
Proof. destruct pl. simpl. by intros -> ->. Qed.

(** C8. In a pool whose [max_threads] is 0, [min_threads] is not above 0
    (so it is 0, negative counts apart) and there is no worker. AddTask
    calls the target on the calling thread and gives back what the call
    gives, the process being changed by the two trace entries only: the
    queue, the workers and the threads are as before. Start only sets the
    flag and Stop only clears it: no worker is spawned, no sentinel is
    queued, nothing is waited for. *)
Theorem zero_max_threads_runs_on_caller w p pl fuel target args task_name blocking inline :
  reachable w → objects w !! p = Some pl → max_threads pl = 0%Z →
  (min_threads pl ≤ 0)%Z
  ∧ _workers pl = ∅ ∧ _workers_ro_copy pl = ∅
  ∧ AddTask fuel p target args task_name blocking inline w
    = (match target args with Some e => Raises e | None => Returns tt end,
       add_event (EvCall Caller task_name args (target args))
         (add_event (EvAddTask p target args task_name blocking inline) w))
  ∧ Start p w
    = (Returns tt,
       if started pl then add_event (EvStart p) w
       else upd_pool p (set_started true pl) (add_event (EvStart p) w))
  ∧ Stop fuel p w
    = if started pl then
        (Returns tt, upd_pool p (set_started false pl) (add_event (EvStop p) w))
      else
        log (LogWarning "Tried to stop a thread pool that was not running.")
            (add_event (EvStop p) w).
Proof.
  intros Hr Hp Hmax.
  pose proof (reachable_Inv w Hr) as Hw.
  destruct (reachable_zero w Hr p pl Hp Hmax) as (Hwk & Hq & Hh).
  destruct (wf_pools w (proj1 Hw) p pl Hp) as [Hro Hmm _ _].
  assert (min_threads pl ≤ 0)%Z as Hmin by lia.
  assert (_workers_ro_copy pl = ∅) as Hro' by congruence.
  repeat split; try done.
  - rewrite (AddTask_eq w p pl) by done. simpl. rewrite Hmax. simpl.
    apply call_eq.
  - rewrite (Start_eq w p pl) by done. destruct (started pl); [done|].
    replace (Z.to_nat (min_threads pl)) with 0 by lia. done.
  - rewrite (Stop_idle w p pl) by eauto using zero_unfinished, reachable_zero.
    by rewrite set_workers_empty.
Qed.

Lemma filter_none {X} (P : X → Prop) `{∀ x, Decision (P x)} (l : list X) :
  Forall (λ x, ¬ P x) l → filter P l = [].
Proof.
  induction 1 as [|x l Hx Hl IH]; [done|].
  by rewrite filter_cons_False.
Qed.

(** C10. In every state of a process, the busy count of a pool without a
    name is 0: the workers in its read-only copy are threads of the pool,
    which are created idle and whose flag [run] only ever writes when the
    pool has a name. (The witness is a state in which the worker of such a
    pool holds a task it has not finished.) *)
Theorem unnamed_pool_never_busy w p pl :
  reachable w → objects w !! p = Some pl → name pl = "" →
  busy_threads w pl = 0.
Proof.
  intros Hr Hp Hname.
  destruct (reachable_Inv w Hr) as [Hwf _].
  destruct (wf_pools w Hwf p pl Hp) as [Hro _ _ Hws].
  unfold busy_threads. rewrite filter_none; [done|].
  apply Forall_forall. intros t Ht.
  apply list_elem_of_fmap in Ht as ([key t'] & -> & Hin). simpl.
  apply elem_of_map_to_list in Hin. rewrite Hro in Hin.
  destruct (Hws key t' Hin) as (_ & wk & Hwk & Hpool).
  unfold is_busy. rewrite Hwk.
  rewrite (wf_idle_unnamed w t' wk pl); [done|done|done|by rewrite Hpool|].
  by apply named_empty.
Qed.

(** *** The stop sentinel *)

Lemma worker_step_dequeue held w t wk pl m q :
  threads w !! t = Some wk → w_pc wk = AtGet →
  objects w !! w_pool wk = Some pl →
  get_nowait (_queue pl) = Some (m, q) →
  worker_step held t w
  = upd_thread t (with_pc wk (if named pl then false else w_idle wk) (Holding m))
      (upd_pool (w_pool wk) (set_queue q pl) w).
Proof.
  intros Ht Hpc Hp Hget. unfold worker_step, run_step. unfold bind at 1 2.
  rewrite (get_thread_eq w t wk), (get_pool_eq w _ pl) by done.
  rewrite Hpc, Hget.
  unfold bind, set_pool, modify.
  set (w1 := set_objects _ w).
  assert (threads w1 !! t = Some wk) as Ht1 by done.
  destruct (named pl).
  - rewrite (set_idle_eq w1 t wk) by done.
    erewrite set_pc_eq by (simpl; apply lookup_insert_eq).
    by rewrite upd_thread_twice, Hpc.
  - simpl. by rewrite (set_pc_eq w1 t wk).
Qed.

Lemma worker_step_sentinel held w t wk pl q :
  threads w !! t = Some wk → w_pc wk = Holding STOP_MESSAGE →
  objects w !! w_pool wk = Some pl →
  task_done (_queue pl) = Some q →
  worker_step held t w
  = upd_thread t (with_pc wk (w_idle wk) Exited)
      (upd_pool (w_pool wk) (set_queue q pl)
         (add_event (EvTaskDone t STOP_MESSAGE) w)).
Proof.
  intros Ht Hpc Hp Hq. unfold worker_step, run_step. unfold bind at 1 2.
  rewrite (get_thread_eq w t wk), (get_pool_eq w _ pl) by done.
  rewrite Hpc. unfold bind at 1. unfold try_finally, ret.
  unfold queue_task_done. unfold bind at 1 2.
  rewrite (get_thread_eq w t wk), (get_pool_eq w _ pl) by done.
  unfold bind, emit, modify, set_pool. simpl. rewrite Hq. simpl.
  unfold set_pc, bind, get_thread. simpl. rewrite Ht. done.
Qed.



End Claims.

(** * Further properties of the pool *)

Section Extras.

Context {A : Type}.

Local Abbreviation World := (World A).
Local Abbreviation ThreadPool := (ThreadPool A).
Local Abbreviation WorkerThread := (WorkerThread A).
Local Abbreviation M := (M A).

Implicit Types (w : World) (pl : ThreadPool) (wk : WorkerThread).

Lemma suffix_ne (n a b : string) : a ≠ b → n +:+ a ≠ n +:+ b.
Proof. intros H E. by apply (inj (String.app n)) in E. Qed.

(** ** _WorkerThread.ProcessTask *)

(** X2. ProcessTask calls the target once, on the worker. What the
    target raises is caught when it is an Exception: the pool's exception
    counter, if the pool has a name, goes up by one, and the exception is
    logged with the task's name, unless [str(e)] fails, whose
    UnicodeEncodeError then leaves ProcessTask. An exception that is not
    an Exception (SystemExit, KeyboardInterrupt) is neither counted nor
    logged and leaves ProcessTask as well. In a pool with a name one
    queueing_time sample is recorded before the call, and one
    working_time sample after it when ProcessTask returns; in a pool
    without a name neither the statistics nor the clock are touched. *)
Theorem ProcessTask_contains_the_exception w t tk wk pl :
  threads w !! t = Some wk → objects w !! w_pool wk = Some pl →
  let raised := t_target tk (t_args tk) in
  let w' := snd (ProcessTask t tk w) in
  fst (ProcessTask t tk w)
  = match escapes raised with Some e => Raises e | None => Returns tt end
  ∧ trace w' = trace w ++ [EvCall (Worker t) (t_name tk) (t_args tk) raised]
  ∧ logging w'
    = logging w ++ match raised, escapes raised with
                   | Some e, None => [LogException (t_name tk) e]
                   | _, _ => []
                   end
  ∧ objects w' = objects w ∧ threads w' = threads w
  ∧ if named pl then
      counter (name pl +:+ "_task_exceptions") w'
      = (counter (name pl +:+ "_task_exceptions") w
         + match raised with
           | Some e => if is_Exception e then 1 else 0
           | None => 0
           end)%Z
      ∧ samples (name pl +:+ "_queueing_time") w'
        = samples (name pl +:+ "_queueing_time") w
          ++ [(hd 0 (clock (env w)) - t_queueing_time tk)%Z]
      ∧ samples (name pl +:+ "_working_time") w'
        = samples (name pl +:+ "_working_time") w
          ++ match escapes raised with
             | Some _ => []
             | None => [(hd 0 (tl (tl (clock (env w)))) - hd 0 (tl (clock (env w))))%Z]
             end
    else STATS w' = STATS w ∧ env w' = env w.
Proof.
  intros Ht Hp raised w'. subst w' raised.
  assert (name pl +:+ "_working_time" ≠ name pl +:+ "_queueing_time") as Hne
    by (by apply suffix_ne).
  destruct (ProcessTask t tk w) as [r w'] eqn:Hbody. simpl.
  unfold ProcessTask in Hbody. unfold bind at 1 2 in Hbody.
  rewrite (get_thread_eq w t wk), (get_pool_eq w _ pl) in Hbody by done.
  unfold bind, try_except, call, emit, log, str, raise, ret, time_time, RecordEvent,
    IncrementCounter, modify in Hbody.
  destruct (named pl), (t_target tk (t_args tk)) as [[]|]; simpl in Hbody;
    injection Hbody as <- <-; unfold counter, samples; simpl;
    rewrite ?app_nil_r; repeat split; try done.
  all: repeat (rewrite lookup_insert_eq
               || rewrite lookup_insert_ne by (by apply suffix_ne));
    simpl; rewrite ?app_nil_r; try done; lia.
Qed.

(** ** _WorkerThread.run *)

Lemma is_alive_upd_thread w t wk' :
  is_alive t (upd_thread t wk' w) = match w_pc wk' with Exited => false | _ => true end.
Proof. unfold is_alive. simpl. by rewrite lookup_insert_eq. Qed.

Lemma is_alive_core w w' t : core w' = core w → is_alive t w' = is_alive t w.
Proof.
  intros Hc. destruct (core_fields _ _ Hc) as (_ & _ & _ & Ht & _).
  unfold is_alive. by rewrite Ht.
Qed.

Lemma age_check_alive w t wk pl :
  threads w !! t = Some wk → objects w !! w_pool wk = Some pl →
  fst (age_check t w) = Returns tt ∧ is_alive t (snd (age_check t w)) = true.
Proof.
  intros Ht Hp. unfold age_check, bind.
  rewrite (get_thread_eq w t wk) by done. simpl.
  set (w1 := set_env _ w).
  destruct (600 <? _)%Z.
  - rewrite (set_pc_eq w1 t wk) by done. split; [done|].
    simpl. by rewrite is_alive_upd_thread.
  - rewrite (loop_top_eq w1 t wk pl) by done. split; [done|].
    simpl. by rewrite is_alive_upd_thread.
Qed.

Lemma task_done_of_holder w t wk pl :
  Inv w → threads w !! t = Some wk → objects w !! w_pool wk = Some pl →
  is_holding (w_pc wk) = true →
  ∃ q, task_done (_queue pl) = Some q.
Proof.
  intros [_ Hacc] Ht Hp Hh. unfold task_done.
  destruct (_ <? _)%Z eqn:E; [|eauto].
  apply Z.ltb_lt in E. specialize (Hacc _ _ Hp).
  pose proof (holding_pos w t wk Ht Hh). lia.
Qed.

Lemma ProcessTask_result w t tk wk pl :
  threads w !! t = Some wk → objects w !! w_pool wk = Some pl →
  fst (ProcessTask t tk w)
  = match escapes (t_target tk (t_args tk)) with
    | Some e => Raises e
    | None => Returns tt
    end.
Proof.
  intros Ht Hp. unfold ProcessTask, bind at 1 2.
  rewrite (get_thread_eq w t wk), (get_pool_eq w _ pl) by done.
  unfold call, try_except, bind, emit, modify, str, raise, ret, log, time_time,
    RecordEvent, IncrementCounter.
  destruct (named pl); simpl; destruct (t_target tk (t_args tk)) as [[]|]; done.
Qed.

Lemma worker_step_task held w t wk pl tk :
  Inv w → threads w !! t = Some wk → objects w !! w_pool wk = Some pl →
  w_pc wk = Holding (Task tk) →
  is_alive t (worker_step held t w)
  = match escapes (t_target tk (t_args tk)) with Some _ => false | None => true end.
Proof.
  intros Hw Ht Hp Hpc.
  destruct (task_done_of_holder w t wk pl Hw Ht Hp) as [q Hq]; [by rewrite Hpc|].
  unfold worker_step, run_step. unfold bind at 1 2.
  rewrite (get_thread_eq w t wk), (get_pool_eq w _ pl) by done.
  rewrite Hpc. unfold bind at 1. unfold try_finally.
  pose proof (ProcessTask_result w t tk wk pl Ht Hp) as Hr.
  pose proof (aux_ProcessTask t tk w) as Hc1.
  unfold bind at 1. destruct (ProcessTask t tk w) as [r w1]. simpl in Hr, Hc1.
  subst r.
  destruct (core_fields _ _ Hc1) as (_ & Ho1 & _ & Ht1 & _).
  destruct (queue_task_done_spec w1 t (Task tk) wk pl q) as (Hr2 & Hc2 & Ht2);
    [by rewrite Ht1|by rewrite Ho1|done|].
  assert (threads (snd (queue_task_done t (Task tk) w1)) !! t = Some wk) as Ht2'
    by (by rewrite Ht2, Ht1).
  assert (objects (snd (queue_task_done t (Task tk) w1)) !! w_pool wk
          = Some (set_queue q pl)) as Hp2.
  { destruct (core_fields _ _ Hc2) as (_ & -> & _). simpl. apply lookup_insert_eq. }
  destruct (escapes (t_target tk (t_args tk))) as [e|]; unfold ret;
    destruct (queue_task_done t (Task tk) w1) as [r2 w2]; simpl in *; subst r2.
  - rewrite (kill_eq w2 t wk) by done. by rewrite is_alive_upd_thread.
  - destruct (age_check_alive w2 t wk _ Ht2' Hp2) as (Hr3 & Ha3).
    destruct (age_check t w2) as [r3 w3]. simpl in Hr3, Ha3. by subst r3.
Qed.

Lemma worker_step_waiting held w t wk pl :
  threads w !! t = Some wk → objects w !! w_pool wk = Some pl →
  w_pc wk = AtGet →
  is_alive t (worker_step held t w) = true.
Proof.
  intros Ht Hp Hpc.
  destruct (get_nowait (_queue pl)) as [[m q]|] eqn:Hget.
  - rewrite (worker_step_dequeue held w t wk pl m q) by done.
    by rewrite is_alive_upd_thread.
  - unfold worker_step, run_step. unfold bind at 1 2.
    rewrite (get_thread_eq w t wk), (get_pool_eq w _ pl) by done.
    rewrite Hpc, Hget. rewrite (set_pc_eq w t wk) by done.
    by rewrite is_alive_upd_thread.
Qed.

Lemma worker_step_remove held w t wk pl :
  threads w !! t = Some wk → objects w !! w_pool wk = Some pl →
  w_pc wk = AtRemoveIdle ∨ w_pc wk = AtRemoveAged →
  is_alive t (worker_step held t w)
  = if lock_is_held held (w_pool wk) then true else (len pl <=? min_threads pl)%Z.
Proof.
  intros Ht Hp Hpc.
  assert (is_alive t w = true) as Ha.
  { unfold is_alive. rewrite Ht. by destruct Hpc as [-> | ->]. }
  unfold worker_step, run_step. unfold bind at 1 2.
  rewrite (get_thread_eq w t wk), (get_pool_eq w _ pl) by done.
  destruct Hpc as [-> | ->].
  - destruct (lock_is_held held (w_pool wk)); [done|].
    unfold bind. rewrite (_RemoveFromPool_eq w t wk pl) by done.
    destruct (len pl <=? min_threads pl)%Z.
    + destruct (age_check_alive w t wk pl Ht Hp) as (Hr3 & Ha3).
      destruct (age_check t w) as [r3 w3]. simpl in Hr3, Ha3. by subst r3.
    + erewrite set_pc_eq by (simpl; apply Ht). by rewrite is_alive_upd_thread.
  - destruct (lock_is_held held (w_pool wk)); [done|].
    unfold bind. rewrite (_RemoveFromPool_eq w t wk pl) by done.
    destruct (len pl <=? min_threads pl)%Z.
    + rewrite (loop_top_eq w t wk pl) by done. by rewrite is_alive_upd_thread.
    + erewrite set_pc_eq by (simpl; apply Ht). by rewrite is_alive_upd_thread.
Qed.

(** X3. A worker that is running leaves [run] in one of three ways only:
    it has taken the stop sentinel; or it has timed out on the queue or is
    older than 600 s and _RemoveFromPool lets it go, which needs the pool
    lock and more than [min_threads] workers; or the task it runs raises
    what ProcessTask does not contain (an exception that is not an
    Exception, or one whose message [str] cannot print), which the
    finally clause lets through. A task that returns or raises an
    Exception that can be logged, and an empty queue, never end the
    thread. *)
Theorem worker_exits_by_sentinel_or_retirement held w t wk pl :
  reachable w → threads w !! t = Some wk → objects w !! w_pool wk = Some pl →
  w_pc wk ≠ Exited →
  is_alive t (worker_step held t w) = false
  ↔ w_pc wk = Holding STOP_MESSAGE
    ∨ ((w_pc wk = AtRemoveIdle ∨ w_pc wk = AtRemoveAged)
       ∧ held ≠ Some (w_pool wk) ∧ (min_threads pl < len pl)%Z)
    ∨ ∃ tk, w_pc wk = Holding (Task tk) ∧ is_Some (escapes (t_target tk (t_args tk))).
Proof.
  intros Hr Ht Hp Hpc. pose proof (reachable_Inv w Hr) as Hw.
  destruct (w_pc wk) as [|[|tk]| | |] eqn:E; try done.
  - rewrite (worker_step_waiting held w t wk pl) by done.
    split; [done|]. by intros [|[[[|] _]|(tk & ? & _)]].
  - destruct (task_done_of_holder w t wk pl Hw Ht Hp) as [q Hq]; [by rewrite E|].
    rewrite (worker_step_sentinel held w t wk pl q) by done.
    rewrite is_alive_upd_thread. simpl. split; [by left|done].
  - rewrite (worker_step_task held w t wk pl tk) by done.
    destruct (escapes (t_target tk (t_args tk))) as [e|] eqn:Hesc.
    + split; [|done]. intros _. right. right. exists tk. split; [done|].
      rewrite Hesc. by eexists.
    + split; [done|]. intros [|[[[|] _]|(tk' & [= <-] & Hs)]]; try done.
      rewrite Hesc in Hs. by destruct Hs.
  - rewrite (worker_step_remove held w t wk pl) by (done || by left).
    unfold lock_is_held. destruct held as [p'|].
    + destruct (bool_decide_reflect (p' = w_pool wk)) as [->|Hne].
      * split; [done|]. by intros [|[(_ & ? & _)|(tk & ? & _)]].
      * rewrite Z.leb_gt.
        split; [intros; right; left; repeat split; (by left) || congruence || lia|].
        by intros [|[(_ & _ & ?)|(tk & ? & _)]].
    + rewrite Z.leb_gt.
      split; [intros; right; left; repeat split; (by left) || done|].
      by intros [|[(_ & _ & ?)|(tk & ? & _)]].
  - rewrite (worker_step_remove held w t wk pl) by (done || by right).
    unfold lock_is_held. destruct held as [p'|].
    + destruct (bool_decide_reflect (p' = w_pool wk)) as [->|Hne].
      * split; [done|]. by intros [|[(_ & ? & _)|(tk & ? & _)]].
      * rewrite Z.leb_gt.
        split; [intros; right; left; repeat split; (by right) || congruence || lia|].
        by intros [|[(_ & _ & ?)|(tk & ? & _)]].
    + rewrite Z.leb_gt.
      split; [intros; right; left; repeat split; (by right) || done|].
      by intros [|[(_ & _ & ?)|(tk & ? & _)]].
Qed.

(** ** The invariants of a process *)

(** X4. In every state of a process, the messages of a pool's queue that
    task_done has not been called for are those still queued and those in
    the hands of a worker. So the task_done of a worker that holds a
    message never fails, Join returns at once when nothing is queued and
    nothing is held, and does not return while something is. *)
Theorem outstanding_is_queued_or_held w p pl :
  reachable w → objects w !! p = Some pl →
  outstanding p w = (Z.of_nat (pending_tasks pl) + Z.of_nat (holding p w))%Z
  ∧ (∀ t wk, threads w !! t = Some wk → w_pool wk = p →
       is_holding (w_pc wk) = true → is_Some (task_done (_queue pl)))
  ∧ (pending_tasks pl = 0 ∧ holding p w = 0 →
       ∀ fuel held, Join fuel held p w = (Returns tt, w))
  ∧ (pending_tasks pl ≠ 0 ∨ holding p w ≠ 0 →
       ∀ held, Join 0 held p w = (Blocked, w)).
Proof.
  intros Hr Hp. pose proof (reachable_Inv w Hr) as Hw.
  assert (outstanding p w
          = (Z.of_nat (pending_tasks pl) + Z.of_nat (holding p w))%Z) as Hout.
  { unfold outstanding. rewrite Hp. apply (proj2 Hw p pl Hp). }
  split; [exact Hout|]. split; [|split].
  - intros t wk Ht <- Hh.
    destruct (task_done_of_holder w t wk pl Hw Ht Hp Hh) as [q ->]. by eexists.
  - intros [Hq Hh] fuel held. unfold Join. apply wait_until_now.
    apply bool_decide_eq_true. lia.
  - intros Hne held. unfold Join. simpl.
    rewrite bool_decide_eq_false_2; [done|]. lia.
Qed.

(** X5. In every state of a process a pool's read-only copy of the worker
    dictionary equals the dictionary, [min_threads] is at most
    [max_threads], which is the capacity of the queue, and every entry of
    the dictionary is a thread object of this pool, stored under its own
    name: threading's name for the thread, behind the pool's name. Two
    entries never share a thread. *)
Theorem worker_dictionary_in_every_state w p pl :
  reachable w → objects w !! p = Some pl →
  _workers_ro_copy pl = _workers pl
  ∧ len pl = Z.of_nat (size (_workers pl))
  ∧ (min_threads pl ≤ max_threads pl)%Z
  ∧ maxsize (_queue pl) = max_threads pl
  ∧ (∀ key t, _workers pl !! key = Some t →
       key = worker_name pl t
       ∧ ∃ wk, threads w !! t = Some wk ∧ w_pool wk = p ∧ w_name wk = key)
  ∧ (∀ key1 key2 t, _workers pl !! key1 = Some t → _workers pl !! key2 = Some t →
       key1 = key2).
Proof.
  intros Hr Hp. destruct (reachable_Inv w Hr) as [Hwf _].
  destruct (wf_pools w Hwf p pl Hp) as [Hro Hmm Hms Hws].
  split; [done|]. split; [unfold len; by rewrite Hro|].
  split; [done|]. split; [done|]. split.
  - intros key t Hkey. destruct (Hws key t Hkey) as (-> & wk & Ht & Hpool).
    split; [done|]. exists wk. split; [done|]. split; [done|].
    destruct (wf_threads w Hwf t wk Ht) as [(pl' & Hp' & Hname & _)].
    rewrite Hpool, Hp in Hp'. by injection Hp' as <-.
  - intros key1 key2 t H1 H2.
    destruct (Hws key1 t H1) as (-> & _). by destruct (Hws key2 t H2) as (-> & _).
Qed.

(** ** The transitions, pool by pool *)

(** What a transition does to the pool objects: nothing, or it rewrites
    one pool, or it makes a new one. *)
Lemma mut_objects l w w' :
  mut l w w' →
  objects w' = objects w
  ∨ (∃ q plq plq', objects w !! q = Some plq ∧ pool_change l q plq plq'
                   ∧ objects w' = <[q := plq']> (objects w))
  ∨ (∃ name_ mn mx cc, l = LNewPool (next_ref w)
                       ∧ objects w' = <[next_ref w := new_pool name_ mn mx cc]> (objects w)).
Proof.
  intros Hm.
  destruct Hm;
    match goal with
    | Hc : core _ = core _ |- _ => destruct (core_fields _ _ Hc) as (_ & Ho & _)
    end; simpl in Ho; try (by left).
  - right; left. exists p, pl, (set_queue q pl). repeat split; try done.
    by eapply change_put.
  - right; left. exists (w_pool wk), pl, (set_queue q pl). repeat split; try done.
    by eapply change_dequeue.
  - right; left. exists (w_pool wk), pl, (set_queue q pl). repeat split; try done.
    by eapply change_handled.
  - right; left. eexists (w_pool wk), pl, _. repeat split; try done.
    by apply change_retire.
  - right; left. eexists p, pl, _. repeat split; try done.
    by apply change_add.
  - right; left. eexists p, pl, _. repeat split; try done. apply change_started.
  - right; left. eexists p, pl, _. repeat split; try done. apply change_clear.
  - right; right. by exists name_, mn, mx, cc.
Qed.

(** Induction over the states of a process, transition by transition. *)
Lemma reachable_mut_ind (P : World → Prop) :
  (∀ e, P (init_world e)) →
  (∀ l w w', mut l w w' → Inv w → P w → P w') →
  ∀ w, reachable w → P w.
Proof.
  intros Hinit Hmut w (e & ops & ->).
  assert (∀ allowed w1 w2, steps allowed w1 w2 → Inv w1 → P w1 → P w2) as Hsteps.
  { intros allowed w1 w2 Hs. induction Hs as [|l w1 w2 w3 _ Hm _ IH]; [done|].
    intros Hw1 HP1. apply IH; [by eapply mut_Inv|by eapply Hmut]. }
  assert (∀ w0, Inv w0 → P w0 → P (run_ops ops w0)) as Hops.
  { induction ops as [|o ops IH]; intros w0 Hw0 HP0; [done|]. simpl.
    apply IH; [by apply exec_Inv|].
    eapply Hsteps; [by apply (exec_steps o)|done|done]. }
  apply Hops; [apply Inv_init|apply Hinit].
Qed.

Lemma mut_bounded l w w' : mut l w w' → Inv w → bounded w → bounded w'.
Proof.
  intros Hm [Hwf _] Hb p pl Hp Hmax.
  destruct (mut_objects l w w' Hm)
    as [Ho|[(q & plq & plq' & Hq & Hch & Ho)|(n & mn & mx & cc & _ & Ho)]];
    rewrite Ho in Hp.
  - by apply (Hb p pl).
  - destruct (decide (q = p)) as [->|Hne].
    2:{ rewrite lookup_insert_ne in Hp by done. by apply (Hb p pl). }
    rewrite lookup_insert_eq in Hp. injection Hp as <-.
    destruct (wf_pools w Hwf p plq Hq) as [_ _ Hms _].
    destruct Hch; simpl in *; try (by apply (Hb _ _ Hq)).
    + specialize (Hb _ _ Hq Hmax). unfold pending_tasks, put_nowait, full in *.
      destruct (0 <? maxsize (_queue pl))%Z eqn:E1; simpl in *.
      * destruct (Z.of_nat (qsize (_queue pl)) =? maxsize (_queue pl))%Z eqn:E2;
          [done|]. injection H as <-. unfold qsize in *. simpl.
        rewrite length_app. simpl. apply Z.eqb_neq in E2. lia.
      * apply Z.ltb_ge in E1. lia.
    + specialize (Hb _ _ Hq Hmax). unfold pending_tasks, get_nowait, qsize in *.
      destruct (queue (_queue pl)) as [|m' rest] eqn:E; [done|].
      injection H as _ <-. simpl in *. lia.
    + specialize (Hb _ _ Hq Hmax). unfold pending_tasks, task_done, qsize in *.
      destruct (_ <? 0)%Z; [done|]. by injection H as <-.
  - destruct (decide (next_ref w = p)) as [Heq|Hne].
    + subst p. rewrite lookup_insert_eq in Hp. injection Hp as <-.
      unfold pending_tasks, qsize. simpl in *. lia.
    + rewrite lookup_insert_ne in Hp by done. by apply (Hb p pl).
Qed.

(** X6. In every state of a process the queue of a pool with
    [max_threads > 0] holds at most [max_threads] messages, and a put
    without blocking is refused exactly when it holds that many. *)
Theorem queue_holds_at_most_max_threads w p pl :
  reachable w → objects w !! p = Some pl → (0 < max_threads pl)%Z →
  (Z.of_nat (pending_tasks pl) ≤ max_threads pl)%Z
  ∧ ∀ m, put_nowait m (_queue pl) = None
         ↔ Z.of_nat (pending_tasks pl) = max_threads pl.
Proof.
  intros Hr Hp Hmax.
  assert (bounded w) as Hb.
  { revert Hr. apply reachable_mut_ind.
    - intros e q plq Hq. done.
    - intros l w1 w2. apply mut_bounded. }
  split; [by apply (Hb p pl)|].
  intros m. rewrite put_nowait_None_iff.
  destruct (wf_pools w (proj1 (reachable_Inv w Hr)) p pl Hp) as [_ _ Hms _].
  unfold full, pending_tasks. rewrite Hms.
  destruct (Z.ltb_spec 0 (max_threads pl)); [|lia]. simpl.
  apply Z.eqb_eq.
Qed.

(** ** ThreadPool.Start *)

Lemma _AddWorker_keeps_started w p pl :
  objects w !! p = Some pl →
  ∃ pl', objects (snd (_AddWorker p w)) !! p = Some pl' ∧ started pl' = started pl.
Proof.
  intros Hp. rewrite (_AddWorker_eq w p pl Hp). simpl.
  destruct (hd true (spawn (env w))); simpl.
  - rewrite lookup_insert_eq. by eexists.
  - by exists pl.
Qed.

Lemma repeat__AddWorker_keeps_started n w p pl :
  objects w !! p = Some pl →
  ∃ pl', objects (snd (repeat_M n (_AddWorker p) w)) !! p = Some pl'
         ∧ started pl' = started pl.
Proof.
  revert w pl. induction n as [|n IH]; intros w pl Hp; simpl; [by exists pl|].
  unfold bind.
  destruct (_AddWorker_keeps_started w p pl Hp) as (pl1 & Hp1 & Hs1).
  destruct (_AddWorker p w) as [[[]|e|] w1]; simpl in *; try (by exists pl1).
  destruct (IH w1 pl1 Hp1) as (pl' & Hp' & Hs'). exists pl'. split; congruence.
Qed.

(** X7. Whatever Start does on a pool, return or raise the ThreadError of
    a thread that did not start, the pool is marked as started afterwards;
    and Start on a pool that is marked as started only returns. So a
    second Start creates no thread: it does not make up for the workers
    the first one failed to create. *)
Theorem Start_twice w p pl :
  objects w !! p = Some pl →
  (∃ pl', objects (snd (Start p w)) !! p = Some pl' ∧ started pl' = true)
  ∧ Start p (snd (Start p w)) = (Returns tt, add_event (EvStart p) (snd (Start p w)))
  ∧ (started pl = true → Start p w = (Returns tt, add_event (EvStart p) w)).
Proof.
  intros Hp.
  assert (∃ pl', objects (snd (Start p w)) !! p = Some pl' ∧ started pl' = true)
    as (pl' & Hp' & Hs').
  { rewrite (Start_eq w p pl Hp). destruct (started pl) eqn:Hs.
    - by exists pl.
    - apply (repeat__AddWorker_keeps_started _ _ p (set_started true pl)).
      simpl. apply lookup_insert_eq. }
  split; [by exists pl'|]. split.
  - by rewrite (Start_eq _ p pl' Hp'), Hs'.
  - intros Hs. by rewrite (Start_eq w p pl Hp), Hs.
Qed.

(** X8. A Start that finds the pool not started and returns has added
    [min_threads] workers to those the pool had: the pool's size is not
    looked at, so workers that AddTask has already made on the pool that
    was not started are not counted. *)
Theorem Start_adds_min_threads_workers w p pl :
  reachable w → objects w !! p = Some pl → started pl = false →
  fst (Start p w) = Returns tt →
  ∃ pl', objects (snd (Start p w)) !! p = Some pl'
         ∧ started pl' = true
         ∧ len pl' = (len pl + Z.max 0 (min_threads pl))%Z
         ∧ _workers_ro_copy pl' = _workers pl'.
Proof.
  intros Hr Hp Hs Hret. pose proof (reachable_Inv w Hr) as Hw.
  rewrite (Start_eq w p pl Hp) in *. rewrite Hs in *.
  set (w1 := upd_pool p (set_started true pl) (add_event (EvStart p) w)) in *.
  assert (Inv w1) as Hw1.
  { eapply (mut_Inv (LStarted p true) (add_event (EvStart p) w)).
    - by eapply mut_started.
    - by apply Inv_add_event. }
  assert (objects w1 !! p = Some (set_started true pl)) as Hp1
    by apply lookup_insert_eq.
  destruct (repeat__AddWorker_returns _ w1 p _ Hw1 Hp1 Hret)
    as (pl' & Hp' & Hs' & Hmin' & Hmax' & Hsz' & Hro').
  simpl in *. exists pl'. split; [done|]. split; [done|].
  destruct (wf_pools w (proj1 Hw) p pl Hp) as [Hro _ _ _].
  assert (_workers_ro_copy pl' = _workers pl') as Hro1.
  { destruct (decide (Z.to_nat (min_threads pl) = 0)) as [Hz|Hnz]; [|by apply Hro'].
    rewrite Hz in Hp'. simpl in Hp'. rewrite Hp1 in Hp'. by injection Hp' as <-. }
  split; [|done]. unfold len. rewrite Hro1, Hsz', Hro. lia.
Qed.

(** ** ThreadPool.__init__ and Factory *)

(** X11. The constructor reads the registry and never writes it: only
    Factory stores a pool there. So a name that was only ever given to
    the constructor is not taken, and constructing a second pool with it
    succeeds, with a new pool, whatever the name. *)
Theorem constructor_does_not_register name_ mn mx cc w :
  POOLS (snd (ThreadPool_init name_ mn mx cc w)) = POOLS w
  ∧ ∀ p, fst (ThreadPool_init name_ mn mx cc w) = Returns p →
      ∀ mn' mx' cc',
        fst (ThreadPool_init name_ mn' mx' cc' (snd (ThreadPool_init name_ mn mx cc w)))
        = Returns (S p).
Proof.
  destruct (decide (name_ = "")) as [Hn|Hn].
  - destruct (ThreadPool_init_accepts name_ mn mx cc w (or_introl Hn))
      as (w' & Heq & HP & _ & Hnext & _).
    rewrite Heq. simpl. split; [done|]. intros p [= <-] mn' mx' cc'.
    destruct (ThreadPool_init_accepts name_ mn' mx' cc' w' (or_introl Hn))
      as (w'' & Heq' & _).
    rewrite Heq'. simpl. by rewrite Hnext.
  - destruct (POOLS w !! name_) as [r|] eqn:E.
    + rewrite (ThreadPool_init_refuses name_ mn mx cc w) by (done || by eexists).
      simpl. split; [done|]. by intros p [=].
    + destruct (ThreadPool_init_accepts name_ mn mx cc w (or_intror E))
        as (w' & Heq & HP & _ & Hnext & _).
      rewrite Heq. simpl. split; [done|]. intros p [= <-] mn' mx' cc'.
      destruct (ThreadPool_init_accepts name_ mn' mx' cc' w') as (w'' & Heq' & _).
      { right. by rewrite HP. }
      rewrite Heq'. simpl. by rewrite Hnext.
Qed.

(** X12. Factory always returns a pool, and a second call with the same
    name returns the same pool and changes nothing, whatever sizes it is
    given; the constructor called with that name, unless it is empty, then
    raises DuplicateThreadpoolError and changes nothing. *)
Theorem Factory_twice name_ mn mx cc w :
  ∃ p, fst (Factory name_ mn mx cc w) = Returns p
       ∧ (∀ mn' mx' cc',
            Factory name_ mn' mx' cc' (snd (Factory name_ mn mx cc w))
            = (Returns p, snd (Factory name_ mn mx cc w)))
       ∧ (name_ ≠ "" → ∀ mn' mx' cc',
            ThreadPool_init name_ mn' mx' cc' (snd (Factory name_ mn mx cc w))
            = (Raises (DuplicateThreadpoolError name_),
               snd (Factory name_ mn mx cc w))).
Proof.
  assert (∃ p, fst (Factory name_ mn mx cc w) = Returns p
               ∧ POOLS (snd (Factory name_ mn mx cc w)) !! name_ = Some p)
    as (p & Hret & HP).
  { rewrite Factory_unfold. destruct (POOLS w !! name_) as [r|] eqn:E.
    - by exists r.
    - destruct (ThreadPool_init_accepts name_ mn mx cc w (or_intror E))
        as (w' & Heq & _).
      rewrite Heq. simpl. exists (next_ref w). split; [done|].
      apply lookup_insert_eq. }
  exists p. split; [done|]. split.
  - intros mn' mx' cc'. by rewrite Factory_unfold, HP.
  - intros Hn mn' mx' cc'. apply ThreadPool_init_refuses; [done|by eexists].
Qed.

(** ** _WorkerThread._RemoveFromPool *)

(** X13. In a pool with more than [min_threads] workers _RemoveFromPool
    returns True and takes the calling worker's own key out of both
    dictionaries, and no other: every other worker stays, and the size
    goes down by one if the worker was still in the dictionary, and stays
    as it is if Stop had already emptied it. *)
Theorem _RemoveFromPool_removes_its_own_key w t wk pl :
  reachable w → threads w !! t = Some wk → objects w !! w_pool wk = Some pl →
  (min_threads pl < len pl)%Z →
  ∃ pl', _RemoveFromPool t w = (Returns true, upd_pool (w_pool wk) pl' w)
         ∧ _workers pl' = delete (w_name wk) (_workers pl)
         ∧ _workers_ro_copy pl' = _workers pl'
         ∧ len pl' = (len pl - match _workers pl !! w_name wk with
                               | Some _ => 1
                               | None => 0
                               end)%Z
         ∧ (∀ key t', t' ≠ t → _workers pl !! key = Some t' →
              _workers pl' !! key = Some t').
Proof.
  intros Hr Ht Hp Hlen. destruct (reachable_Inv w Hr) as [Hwf _].
  destruct (wf_pools w Hwf _ pl Hp) as [Hro _ _ Hws].
  destruct (wf_threads w Hwf t wk Ht) as [(pl0 & Hp0 & Hname & _)].
  assert (pl0 = pl) as -> by congruence.
  exists (set_workers (delete (w_name wk) (_workers pl)) pl).
  split.
  { rewrite (_RemoveFromPool_eq w t wk pl) by done.
    destruct (Z.leb_spec (len pl) (min_threads pl)); [lia|done]. }
  simpl. split; [done|]. split; [done|]. split.
  - unfold len in *. simpl. rewrite Hro in *. rewrite map_size_delete.
    destruct (_workers pl !! w_name wk) eqn:E; simpl; [|lia].
    assert (size (_workers pl) ≠ 0); [|lia].
    intros Hz. apply map_size_empty_inv in Hz. by rewrite Hz in E.
  - intros key t' Hne Hkey. rewrite lookup_delete_ne; [done|].
    intros <-. destruct (Hws _ _ Hkey) as (Hk & _).
    rewrite Hname in Hk. by apply worker_name_inj in Hk.
Qed.

(** ** ThreadPool.Stop *)


Lemma mut_pool l w w' p pl :
  mut l w w' → wf w → objects w !! p = Some pl →
  ∃ pl', objects w' !! p = Some pl' ∧ (pl' = pl ∨ pool_change l p pl pl').
Proof.
  intros Hm Hwf Hp.
  destruct (mut_objects l w w' Hm)
    as [Ho|[(q & plq & plq' & Hq & Hch & Ho)|(n & mn & mx & cc & _ & Ho)]];
    rewrite Ho.
  - exists pl. split; [done|by left].
  - destruct (decide (q = p)) as [->|Hne].
    + rewrite lookup_insert_eq. exists plq'. split; [done|]. right. congruence.
    + rewrite lookup_insert_ne by done. exists pl. split; [done|by left].
  - rewrite lookup_insert_ne; [exists pl; split; [done|by left]|].
    assert (p < next_ref w) by (apply (wf_objects_bound w Hwf); eauto). lia.
Qed.

(** A property of a pool that the changes of the [allowed] transitions
    keep holds at the end of a run of them. *)
Lemma steps_pool (I : ThreadPool → Prop) (allowed : label → Prop) w w' p pl :
  steps allowed w w' → Inv w → objects w !! p = Some pl → I pl →
  (∀ l x y, allowed l → pool_change l p x y → I x → I y) →
  ∃ pl', objects w' !! p = Some pl' ∧ I pl'.
Proof.
  intros Hs. revert pl.
  induction Hs as [|l w1 w2 w3 Hl Hm Hs IH]; intros pl Hw Hp HI Hkeep; [by exists pl|].
  destruct (mut_pool l w1 w2 p pl Hm (proj1 Hw) Hp) as (pl1 & Hp1 & Hch).
  apply (IH pl1); [by eapply mut_Inv|done| |done].
  destruct Hch as [->|Hch]; [done|]. by eapply Hkeep.
Qed.

Lemma Stop_label_keeps_no_workers p l (x y : ThreadPool) :
  Stop_label p l → pool_change l p x y → _workers x = ∅ → _workers y = ∅.
Proof.
  intros Hl Hch Hx. destruct Hch; simpl; try done.
  - by destruct Hl as [Hl|[|[|]]].
  - by destruct Hl as [Hl|[|[|]]].
Qed.

Lemma worker_label_keeps_stopped p l (x y : ThreadPool) :
  worker_label (Some p) l → pool_change l p x y →
  started x = false ∧ _workers x = ∅ ∧ unfinished_tasks (_queue x) = 0%Z →
  started y = false ∧ _workers y = ∅ ∧ unfinished_tasks (_queue y) = 0%Z.
Proof.
  intros Hl Hch (Hs & Hws & Hu). destruct Hch; simpl in *; try done.
  - unfold get_nowait in H. destruct (queue (_queue pl)); [done|].
    by injection H as _ <-.
  - unfold task_done in H. rewrite Hu in H. done.
Qed.

Lemma wait_until_returns fuel held (cond : World → bool) w :
  fst (wait_until fuel held cond w) = Returns tt →
  cond (snd (wait_until fuel held cond w)) = true.
Proof.
  revert w. induction fuel as [|fuel IH]; intros w; simpl;
    destruct (cond w) eqn:E; simpl; try done.
  unfold bind, yield. apply IH.
Qed.

(** *** A step of a worker writes its own thread object only *)

Lemma frames_same {R} t (m : M R) :
  (∀ w, threads (snd (m w)) = threads w) → frames t m.
Proof. intros H w t' _. by rewrite H. Qed.

Lemma frames_aux {R} t (m : M R) : aux_op m → frames t m.
Proof.
  intros H. apply frames_same. intros w.
  by destruct (core_fields _ _ (H w)) as (_ & _ & _ & ? & _).
Qed.

Lemma frames_bind {R S} t (m : M R) (k : R → M S) :
  frames t m → (∀ x, frames t (k x)) → frames t (bind m k).
Proof.
  intros Hm Hk w t' Hne. unfold bind. specialize (Hm w t' Hne).
  destruct (m w) as [[x|e|] w1]; simpl in *; try done.
  by rewrite (Hk x w1 t' Hne).
Qed.

Lemma frames_try_finally {R} t (m : M R) fin :
  frames t m → frames t fin → frames t (try_finally m fin).
Proof.
  intros Hm Hf w t' Hne. unfold try_finally. specialize (Hm w t' Hne).
  destruct (m w) as [[x|e|] w1]; simpl in *; try done.
  - specialize (Hf w1 t' Hne). destruct (fin w1) as [[[]|e|] w2]; simpl in *; congruence.
  - specialize (Hf w1 t' Hne). destruct (fin w1) as [[[]|e'|] w2]; simpl in *; congruence.
Qed.

Lemma frames_set_thread t wk : frames t (set_thread (A := A) t wk).
Proof. intros w t' Hne. simpl. by rewrite lookup_insert_ne. Qed.

Lemma frames_set_pool t p pl : frames t (set_pool (A := A) p pl).
Proof. by apply frames_same. Qed.

Lemma frames_set_pc t c : frames t (set_pc (A := A) t c).
Proof.
  apply frames_bind; [apply frames_aux, aux_get_thread|].
  intros wk. apply frames_set_thread.
Qed.

Lemma frames_set_idle t b : frames t (set_idle (A := A) t b).
Proof.
  apply frames_bind; [apply frames_aux, aux_get_thread|].
  intros wk. apply frames_set_thread.
Qed.

Lemma frames_loop_top t : frames t (loop_top (A := A) t).
Proof.
  apply frames_bind; [apply frames_aux, aux_get_thread|]. intros wk.
  apply frames_bind; [apply frames_aux, aux_get_pool|]. intros pl.
  apply frames_bind; [|intros _; apply frames_set_pc].
  destruct (named pl); [apply frames_set_idle|apply frames_aux, aux_ret].
Qed.

Lemma frames_age_check t : frames t (age_check (A := A) t).
Proof.
  apply frames_bind; [apply frames_aux, aux_get_thread|]. intros wk.
  apply frames_bind; [apply frames_aux, aux_time_time|]. intros now.
  destruct (600 <? _)%Z; [apply frames_set_pc|apply frames_loop_top].
Qed.

Lemma frames_queue_task_done t m : frames t (queue_task_done (A := A) t m).
Proof.
  apply frames_bind; [apply frames_aux, aux_get_thread|]. intros wk.
  apply frames_bind; [apply frames_aux, aux_get_pool|]. intros pl.
  apply frames_bind; [by apply frames_same|]. intros _.
  destruct (task_done (_queue pl)); [apply frames_set_pool|apply frames_aux, aux_raise].
Qed.

Lemma frames__RemoveFromPool t : frames t (_RemoveFromPool (A := A) t).
Proof.
  apply frames_bind; [apply frames_aux, aux_get_thread|]. intros wk.
  apply frames_bind; [apply frames_aux, aux_get_pool|]. intros pl.
  destruct (len pl <=? min_threads pl)%Z; [apply frames_aux, aux_ret|].
  apply frames_bind; [|intros _; apply frames_aux, aux_ret].
  apply frames_bind; [apply frames_aux, aux_get_pool|]. intros pl'.
  apply frames_set_pool.
Qed.

Lemma frames_run_step held t : frames t (run_step (A := A) held t).
Proof.
  apply frames_bind; [apply frames_aux, aux_get_thread|]. intros wk.
  apply frames_bind; [apply frames_aux, aux_get_pool|]. intros pl.
  destruct (w_pc wk) as [|m| | |].
  - destruct (get_nowait (_queue pl)) as [[m q]|]; [|apply frames_set_pc].
    apply frames_bind; [apply frames_set_pool|]. intros _.
    apply frames_bind; [|intros _; apply frames_set_pc].
    destruct (named pl); [apply frames_set_idle|apply frames_aux, aux_ret].
  - apply frames_bind.
    + apply frames_try_finally; [|apply frames_queue_task_done].
      destruct m as [|tk]; [apply frames_aux, aux_ret|].
      apply frames_bind; [apply frames_aux, aux_ProcessTask|].
      intros _. apply frames_aux, aux_ret.
    + intros []; [apply frames_set_pc|apply frames_age_check].
  - destruct (lock_is_held held (w_pool wk)); [apply frames_aux, aux_ret|].
    apply frames_bind; [apply frames__RemoveFromPool|].
    intros []; [apply frames_set_pc|apply frames_age_check].
  - destruct (lock_is_held held (w_pool wk)); [apply frames_aux, aux_ret|].
    apply frames_bind; [apply frames__RemoveFromPool|].
    intros []; [apply frames_set_pc|apply frames_loop_top].
  - apply frames_aux, aux_ret.
Qed.

Lemma worker_step_frame held t w t' :
  t' ≠ t → threads (worker_step held t w) !! t' = threads w !! t'.
Proof.
  intros Hne. unfold worker_step.
  pose proof (frames_run_step held t w t' Hne) as H.
  destruct (run_step held t w) as [[[]|e|] w1]; simpl in H; try done.
  - unfold kill. destruct (threads w1 !! t); [|done].
    simpl. by rewrite lookup_insert_ne.
  - unfold kill. destruct (threads w1 !! t); [|done].
    simpl. by rewrite lookup_insert_ne.
Qed.

(** A thread that has left [run] does nothing more. *)
Lemma worker_step_keeps_dead held t' t w :
  is_alive t w = false → is_alive t (worker_step held t' w) = false.
Proof.
  intros Hd. destruct (decide (t = t')) as [<-|Hne].
  2:{ unfold is_alive in *. by rewrite worker_step_frame. }
  unfold is_alive in Hd. unfold worker_step, run_step, bind, get_thread.
  destruct (threads w !! t) as [wk|] eqn:Ht.
  - destruct (w_pc wk) eqn:Hpc; try done.
    unfold get_pool. destruct (objects w !! w_pool wk).
    + simpl. unfold is_alive. by rewrite Ht, Hpc.
    + unfold kill. rewrite Ht. unfold is_alive. simpl. by rewrite lookup_insert_eq.
  - unfold kill. rewrite Ht. unfold is_alive. by rewrite Ht.
Qed.

Lemma wait_until_keeps_dead fuel held (cond : World → bool) t w :
  is_alive t w = false → is_alive t (snd (wait_until fuel held cond w)) = false.
Proof.
  revert w. induction fuel as [|fuel IH]; intros w Hd; simpl;
    destruct (cond w); simpl; try done.
  unfold bind, yield. apply IH.
  generalize (hd [] (sched (env w))). intros ts.
  assert (is_alive t (set_env (mk_Env (clock (env w)) (cpu (env w)) (spawn (env w))
                                      (tl (sched (env w)))) w) = false) as Hd' by done.
  revert Hd'. generalize (set_env (mk_Env (clock (env w)) (cpu (env w)) (spawn (env w))
                                      (tl (sched (env w)))) w).
  induction ts as [|t' ts IHts]; intros w0 Hd0; simpl; [done|].
  apply IHts. by apply worker_step_keeps_dead.
Qed.

Lemma joins_leave_dead fuel held ts w :
  fst (for_each ts (thread_join fuel held) w) = Returns tt →
  ∀ t, (t ∈ ts ∨ is_alive t w = false) →
       is_alive t (snd (for_each ts (thread_join fuel held) w)) = false.
Proof.
  revert w. induction ts as [|t0 ts IH]; intros w Hret t Ht; simpl in *.
  { destruct Ht as [Ht|Ht]; [by apply elem_of_nil in Ht|done]. }
  unfold bind in *.
  change (thread_join fuel held t0 w)
    with (wait_until fuel held (λ w, negb (is_alive t0 w)) w) in *.
  pose proof (wait_until_returns fuel held (λ w, negb (is_alive t0 w)) w) as Hc.
  pose proof (wait_until_keeps_dead fuel held (λ w, negb (is_alive t0 w)) t w) as Hk.
  destruct (wait_until fuel held (λ w, negb (is_alive t0 w)) w) as [[[]|e|] w1];
    simpl in *; try done.
  apply IH; [done|]. specialize (Hc eq_refl). apply negb_true_iff in Hc.
  destruct Ht as [Ht|Ht]; [|right; by apply Hk].
  apply elem_of_cons in Ht as [->|Ht]; [by right|by left].
Qed.

Lemma Stop_started_eq w p pl fuel :
  objects w !! p = Some pl → started pl = true →
  Stop fuel p w =
  (for_each (map snd (map_to_list (_workers pl))) (λ _, put_stop fuel p) ;;
   let* pl' := get_pool p in
   set_pool p (set_started false pl') ;;
   Join fuel (Some p) p ;;
   for_each (map snd (map_to_list (_workers pl))) (λ t, thread_join fuel (Some p) t))
    (upd_pool p (set_workers ∅ pl) (add_event (EvStop p) w)).
Proof.
  intros Hp Hs. unfold Stop. unfold bind at 1 2. simpl.
  unfold get_pool at 1. simpl. rewrite Hp, Hs. simpl.
  unfold bind at 1. by unfold set_pool, modify.
Qed.

Lemma Stop_unstarted_eq w p pl fuel :
  objects w !! p = Some pl → started pl = false →
  Stop fuel p w
  = log (LogWarning "Tried to stop a thread pool that was not running.")
        (add_event (EvStop p) w).
Proof.
  intros Hp Hs. unfold Stop. unfold bind at 1 2. simpl. unfold get_pool at 1. simpl.
  by rewrite Hp, Hs.
Qed.

Lemma Stop_post fuel w p pl :
  Inv w → objects w !! p = Some pl → started pl = true →
  fst (Stop fuel p w) = Returns tt →
  stopped p (snd (Stop fuel p w))
  ∧ ∀ key t, _workers pl !! key = Some t → is_alive t (snd (Stop fuel p w)) = false.
Proof.
  intros Hw Hp Hs Hret.
  rewrite (Stop_started_eq w p pl fuel Hp Hs) in *.
  set (workers := map snd (map_to_list (_workers pl))) in *.
  set (w1 := upd_pool p (set_workers ∅ pl) (add_event (EvStop p) w)) in *.
  assert (Inv w1) as Hw1.
  { eapply (mut_Inv (LClear p) (add_event (EvStop p) w)).
    - by eapply mut_clear.
    - by apply Inv_add_event. }
  assert (objects w1 !! p = Some (set_workers ∅ pl)) as Hp1 by apply lookup_insert_eq.
  set (body := bind (for_each workers _) _) in *.
  destruct (body w1) as [r w'] eqn:Hbody. simpl in Hret |- *. subst r body.
  unfold bind at 1 in Hbody.
  assert (steps (Stop_label p) w1
            (snd (for_each workers (λ _, put_stop fuel p) w1))) as Hs2.
  { apply runs_for_each; [|done]. intros _. apply runs_put_stop. }
  destruct (for_each workers (λ _, put_stop fuel p) w1) as [[[]|e|] w2];
    simpl in Hs2; try done.
  assert (Inv w2) as Hw2 by (by eapply steps_Inv).
  destruct (steps_pool (λ x, _workers x = ∅) (Stop_label p) w1 w2 p _ Hs2 Hw1 Hp1)
    as (pl2 & Hp2 & Hws2); [done|apply Stop_label_keeps_no_workers|].
  unfold bind at 1 in Hbody. rewrite (get_pool_eq w2 p pl2 Hp2) in Hbody.
  unfold bind at 1 in Hbody. unfold set_pool at 1, modify at 1 in Hbody.
  set (w3 := set_objects (<[p := set_started false pl2]> (objects w2)) w2) in *.
  assert (Inv w3) as Hw3.
  { eapply (mut_Inv (LStarted p false) w2); [|done]. by eapply mut_started. }
  assert (objects w3 !! p = Some (set_started false pl2)) as Hp3
    by apply lookup_insert_eq.
  unfold bind at 1 in Hbody.
  pose proof (runs_Join fuel (Some p) p w3 Hw3) as Hs4.
  pose proof (wait_until_returns fuel (Some p)
                (λ w, bool_decide (outstanding p w = 0%Z)) w3) as Hc4.
  unfold Join in *.
  destruct (wait_until fuel (Some p) (λ w, bool_decide (outstanding p w = 0%Z)) w3)
    as [[[]|e|] w4]; simpl in Hs4, Hc4; try done.
  specialize (Hc4 eq_refl). apply bool_decide_eq_true in Hc4.
  assert (Inv w4) as Hw4 by (by eapply steps_Inv).
  destruct (steps_pool (λ x, started x = false ∧ _workers x = ∅)
              (worker_label (Some p)) w3 w4 p _ Hs4 Hw3 Hp3)
    as (pl4 & Hp4 & Hst4 & Hws4); [done| |].
  { intros l x y Hl Hch [Hx1 Hx2]. destruct Hch; simpl in *; try done. }
  assert (steps (worker_label (Some p)) w4
            (snd (for_each workers (λ t, thread_join fuel (Some p) t) w4))) as Hs5.
  { apply runs_for_each; [|done]. intros t. apply runs_thread_join. }
  pose proof (joins_leave_dead fuel (Some p) workers w4) as Hdead.
  assert (for_each workers (thread_join fuel (Some p)) w4 = (Returns tt, w'))
    as Hbody' by exact Hbody.
  rewrite Hbody in Hs5. rewrite Hbody' in Hdead.
  simpl in Hs5, Hdead. specialize (Hdead eq_refl).
  split.
  - destruct (steps_pool
                (λ x, started x = false ∧ _workers x = ∅
                      ∧ unfinished_tasks (_queue x) = 0%Z)
                (worker_label (Some p)) w4 w' p pl4 Hs5 Hw4 Hp4)
      as (pl5 & Hp5 & Hst5 & Hws5 & Hu5).
    + repeat split; try done. unfold outstanding in Hc4. by rewrite Hp4 in Hc4.
    + apply worker_label_keeps_stopped.
    + exists pl5. repeat split; try done. unfold outstanding. by rewrite Hp5.
  - intros key t Hkey. apply Hdead. left.
    apply list_elem_of_fmap. exists (key, t). split; [done|].
    by apply elem_of_map_to_list.
Qed.

(** X9. When Stop returns on a pool that was started, the pool is marked
    as not started, its worker dictionary is empty, task_done has been
    called for every message of its queue, and every worker that was in
    the dictionary has left [run]. On a pool that was not started Stop
    only writes a warning to the log. *)
Theorem Stop_returns_with_the_pool_stopped fuel w p pl :
  reachable w → objects w !! p = Some pl →
  fst (Stop fuel p w) = Returns tt →
  if started pl then
    stopped p (snd (Stop fuel p w))
    ∧ ∀ key t, _workers pl !! key = Some t → is_alive t (snd (Stop fuel p w)) = false
  else
    snd (Stop fuel p w)
    = snd (log (LogWarning "Tried to stop a thread pool that was not running.")
             (add_event (EvStop p) w)).
Proof.
  intros Hr Hp Hret. pose proof (reachable_Inv w Hr) as Hw.
  destruct (started pl) eqn:Hs.
  - by apply Stop_post.
  - by rewrite (Stop_unstarted_eq w p pl).
Qed.

Lemma runs_keep_min_threads {R} (allowed : label → Prop) (m : M R) w p pl :
  runs allowed m → Inv w → objects w !! p = Some pl →
  ∃ pl', objects (snd (m w)) !! p = Some pl' ∧ min_threads pl' = min_threads pl.
Proof.
  intros Hm Hw Hp.
  apply (steps_pool (λ x, min_threads x = min_threads pl) allowed w _ p pl); try done.
  - by apply Hm.
  - intros l x y _ Hch Hx. by destruct Hch.
Qed.

(** X10. Stop on a pool that Stop has returned from only writes the
    warning. When the pool was started before the first Stop and its
    [min_threads] is not negative, a Start after that Stop, if it
    returns, brings the pool back with exactly [min_threads] workers. (A
    pool that was never started may have workers that AddTask made, which
    a Stop that only warns leaves in place.) *)
Theorem Stop_twice_and_Start_again fuel w p pl :
  reachable w → objects w !! p = Some pl →
  fst (Stop fuel p w) = Returns tt →
  (∀ fuel',
     Stop fuel' p (snd (Stop fuel p w))
     = log (LogWarning "Tried to stop a thread pool that was not running.")
           (add_event (EvStop p) (snd (Stop fuel p w))))
  ∧ (started pl = true → (0 ≤ min_threads pl)%Z →
     fst (Start p (snd (Stop fuel p w))) = Returns tt →
     ∃ pl', objects (snd (Start p (snd (Stop fuel p w)))) !! p = Some pl'
            ∧ started pl' = true ∧ len pl' = min_threads pl ∧ size_band pl').
Proof.
  intros Hr Hp Hret. pose proof (reachable_Inv w Hr) as Hw.
  assert (Inv (snd (Stop fuel p w))) as Hw1
    by (eapply steps_Inv; [by apply runs_Stop|done]).
  split.
  - intros fuel'. destruct (started pl) eqn:Hs.
    + destruct (Stop_post fuel w p pl Hw Hp Hs Hret) as [(pl1 & Hp1 & Hs1 & _) _].
      by apply (Stop_unstarted_eq _ p pl1).
    + apply (Stop_unstarted_eq _ p pl); [|done].
      by rewrite (Stop_unstarted_eq w p pl).
  - intros Hs Hmin Hstart.
    destruct (Stop_post fuel w p pl Hw Hp Hs Hret) as [(pl1 & Hp1 & Hs1 & Hws1 & _) _].
    destruct (runs_keep_min_threads _ _ w p pl (runs_Stop fuel p) Hw Hp)
      as (pl1' & Hp1' & Hmin1).
    assert (pl1' = pl1) as -> by congruence.
    destruct (Start_establishes_band _ p pl1 Hw1 Hp1 Hs1 Hws1)
      as (pl' & Hp' & Hs' & Hlen & Hband); [lia|done|].
    destruct (runs_keep_min_threads _ _ _ p pl1 (runs_Start p) Hw1 Hp1)
      as (pl2 & Hp2 & Hmin2).
    assert (pl2 = pl') as -> by congruence.
    exists pl'. repeat split; try done; try apply Hband. congruence.
Qed.

(** ** The calls to the pools, counted *)












(** ** MockThreadPool *)

Lemma MockThreadPool_AddTask_eq self (target : A → option exn) args task_name w :
  MockThreadPool_AddTask self target args task_name w
  = match target args with
    | None => (Returns tt, add_event (EvCall Caller task_name args None) w)
    | Some e =>
        if is_Exception e then
          (if ignore_errors self then Returns tt else Raises e,
           snd (log (LogError "MockThreadPool worker raised %s")
                  (add_event (EvCall Caller task_name args (Some e)) w)))
        else (Raises e, add_event (EvCall Caller task_name args (Some e)) w)
    end.
Proof.
  unfold MockThreadPool_AddTask, try_except. rewrite call_eq.
  destruct (target args) as [e|]; [|done]. simpl.
  destruct (is_Exception e); [|done].
  unfold bind, log, modify. simpl. by destruct (ignore_errors self).
Qed.

Lemma MockThreadPool_AddTask_result self (target : A → option exn) args task_name w :
  fst (MockThreadPool_AddTask self target args task_name w)
  = match MockThreadPool_escapes self (target args) with
    | Some e => Raises e
    | None => Returns tt
    end
  ∧ trace (snd (MockThreadPool_AddTask self target args task_name w))
    = trace w ++ [EvCall Caller task_name args (target args)]
  ∧ length (logging (snd (MockThreadPool_AddTask self target args task_name w)))
    = length (logging w)
      + match target args with
        | Some e => if is_Exception e then 1 else 0
        | None => 0
        end.
Proof.
  rewrite MockThreadPool_AddTask_eq. unfold MockThreadPool_escapes.
  destruct (target args) as [e|]; simpl; [|by rewrite Nat.add_0_r].
  destruct (is_Exception e); simpl.
  - rewrite length_app. simpl. by destruct (ignore_errors self).
  - by rewrite Nat.add_0_r.
Qed.

(** X15. MockThreadPool.AddTask calls the target on the calling thread
    and catches what it raises when that is an Exception, logging it; the
    exception then leaves AddTask only if the pool does not ignore errors.
    What is not an Exception (SystemExit, KeyboardInterrupt) always leaves
    it, unlogged. So a sequence of tasks none of which raises what gets
    out runs entirely, in order, each task once, and one record is logged
    for each task that raised; otherwise the sequence ends at the first
    task whose exception gets out, with that exception, and the tasks
    after it are not run. The pools that MockThreadPool.Factory makes
    ignore errors. *)
Theorem MockThreadPool_runs_tasks_in_order self (tasks : list (task A)) w :
  let raised := λ tk : task A, t_target tk (t_args tk) in
  let ran := λ tk, EvCall Caller (t_name tk) (t_args tk) (raised tk) in
  let r := MockThreadPool_AddTasks self tasks w in
  (Forall (λ tk, MockThreadPool_escapes self (raised tk) = None) tasks →
     fst r = Returns tt
     ∧ trace (snd r) = trace w ++ map ran tasks
     ∧ length (logging (snd r))
       = length (logging w) + length (filter (λ tk, is_Some (raised tk)) tasks))
  ∧ (∀ before tk after e,
       tasks = before ++ tk :: after →
       Forall (λ tk, MockThreadPool_escapes self (raised tk) = None) before →
       MockThreadPool_escapes self (raised tk) = Some e →
       fst r = Raises e ∧ trace (snd r) = trace w ++ map ran (before ++ [tk]))
  ∧ (∀ name_ mn mx, ignore_errors (MockThreadPool_Factory name_ mn mx) = true).
Proof.
  intros raised ran r. subst r. split; [|split; [|done]].
  - intros Hall. revert w. induction Hall as [|tk tasks Hesc _ IH]; intros w; simpl.
    { by rewrite app_nil_r, Nat.add_0_r. }
    unfold MockThreadPool_AddTasks in *. simpl. unfold bind.
    destruct (MockThreadPool_AddTask_result self (t_target tk) (t_args tk) (t_name tk) w)
      as (Hr & Ht & Hl).
    fold (raised tk) in Hr, Ht, Hl. rewrite Hesc in Hr.
    destruct (MockThreadPool_AddTask self (t_target tk) (t_args tk) (t_name tk) w)
      as [r1 w1]. simpl in *. subst r1.
    destruct (IH w1) as (H1 & H2 & H3). split; [done|].
    rewrite H2, H3, Ht, Hl, <- app_assoc. split; [done|].
    unfold MockThreadPool_escapes in Hesc.
    destruct (raised tk) as [e|] eqn:E.
    + rewrite filter_cons_True by (by rewrite E).
      destruct (is_Exception e); [simpl; lia|done].
    + rewrite filter_cons_False by (rewrite E; by intros [? ?]). lia.
  - intros before tk after e -> Hbefore Hraise. revert w.
    induction Hbefore as [|tk0 before H0 _ IH]; intros w;
      unfold MockThreadPool_AddTasks in *; simpl; unfold bind.
    + destruct (MockThreadPool_AddTask_result self (t_target tk) (t_args tk)
                  (t_name tk) w) as (Hr & Ht & _).
      fold (raised tk) in Hr, Ht. rewrite Hraise in Hr.
      destruct (MockThreadPool_AddTask self (t_target tk) (t_args tk) (t_name tk) w)
        as [r1 w1]. simpl in *. by subst r1.
    + destruct (MockThreadPool_AddTask_result self (t_target tk0) (t_args tk0)
                  (t_name tk0) w) as (Hr & Ht & _).
      fold (raised tk0) in Hr, Ht. rewrite H0 in Hr.
      destruct (MockThreadPool_AddTask self (t_target tk0) (t_args tk0) (t_name tk0) w)
        as [r1 w1]. simpl in *. subst r1.
      destruct (IH w1) as (H1 & H2). split; [done|].
      by rewrite H2, Ht, <- app_assoc.
Qed.

End Extras.

(** * BatchConverter.Convert *)

Section BatchExtras.

Context {V : Type}.

Local Abbreviation World := (World (list V)).

Implicit Types (w : World).




(** *** The batches *)






End BatchExtras.

(** * What runs on the calling thread *)

Section Keeps.

Context {A X : Type} (f : World A → X).

Local Abbreviation World := (World A).
Local Abbreviation M := (M A).

Lemma keeps_ret {R} (r : R) : keeps f (ret r).
Proof. done. Qed.

Lemma keeps_raise {R} e : keeps f (raise (R := R) e).
Proof. done. Qed.

Lemma keeps_blocked {R} : keeps f (blocked (R := R)).
Proof. done. Qed.

Lemma keeps_gets {R} (g : World → R) : keeps f (gets g).
Proof. done. Qed.

Lemma keeps_get_pool p : keeps f (get_pool p).
Proof. intros w. unfold get_pool. by destruct (objects w !! p). Qed.

Lemma keeps_get_thread t : keeps f (get_thread t).
Proof. intros w. unfold get_thread. by destruct (threads w !! t). Qed.

Lemma keeps_str e : keeps f (str e).
Proof. by destruct e. Qed.

Lemma keeps_bind {R S} (m : M R) (k : R → M S) :
  keeps f m → (∀ x, keeps f (k x)) → keeps f (bind m k).
Proof.
  intros Hm Hk w. unfold bind. specialize (Hm w).
  destruct (m w) as [[x|e|] w1]; simpl in *; try done.
  by rewrite (Hk x w1).
Qed.

Lemma keeps_try_except {R} (m : M R) catches handler :
  keeps f m → (∀ e, keeps f (handler e)) → keeps f (try_except m catches handler).
Proof.
  intros Hm Hh w. unfold try_except. specialize (Hm w).
  destruct (m w) as [[x|e|] w1]; simpl in *; try done.
  destruct (catches e); [|done]. by rewrite (Hh e w1).
Qed.

Lemma keeps_try_finally {R} (m : M R) fin :
  keeps f m → keeps f fin → keeps f (try_finally m fin).
Proof.
  intros Hm Hf w. unfold try_finally. specialize (Hm w).
  destruct (m w) as [[x|e|] w1]; simpl in *; try done.
  - specialize (Hf w1). destruct (fin w1) as [[[]|e|] w2]; simpl in *; congruence.
  - specialize (Hf w1). destruct (fin w1) as [[[]|e'|] w2]; simpl in *; congruence.
Qed.

Lemma keeps_for_each {Y} (l : list Y) (body : Y → M unit) :
  (∀ y, keeps f (body y)) → keeps f (for_each l body).
Proof.
  intros Hb. induction l as [|y l IH]; simpl; [apply keeps_ret|].
  apply keeps_bind; [apply Hb|done].
Qed.

Lemma keeps_repeat_M n (m : M unit) : keeps f m → keeps f (repeat_M n m).
Proof.
  intros Hm. induction n as [|n IH]; simpl; [apply keeps_ret|].
  by apply keeps_bind.
Qed.

End Keeps.

(** What [f] has to be blind to, for the methods of the pool and the steps
    of the workers to keep it: the objects, the statistics, the log and
    the oracles, and the entries of the trace that [silent] accepts. *)
Section KeepsPool.

Context {A X : Type} (f : World A → X) (silent : event A → bool).

Local Abbreviation World := (World A).
Local Abbreviation M := (M A).

Local Set Default Proof Using "All".

Hypothesis f_objects : ∀ o w, f (set_objects o w) = f w.
Hypothesis f_threads : ∀ t w, f (set_threads t w) = f w.
Hypothesis f_STATS : ∀ s w, f (set_STATS s w) = f w.
Hypothesis f_env : ∀ e w, f (set_env e w) = f w.
Hypothesis f_counter : ∀ n w, f (set_counter n w) = f w.
Hypothesis f_log : ∀ r w, f (snd (log r w)) = f w.
Hypothesis f_event : ∀ ev w, silent ev = true → f (add_event ev w) = f w.
Hypothesis worker_calls_silent :
  ∀ t task_name args raised, silent (EvCall (Worker t) task_name args raised) = true.
Hypothesis task_done_silent : ∀ t m, silent (EvTaskDone t m) = true.

Lemma keeps_set_pool p pl : keeps f (set_pool p pl).
Proof. intros w. apply f_objects. Qed.

Lemma keeps_set_thread t wk : keeps f (set_thread t wk).
Proof. intros w. apply f_threads. Qed.

Lemma keeps_log r : keeps f (log r).
Proof. intros w. apply f_log. Qed.

Lemma keeps_emit ev : silent ev = true → keeps f (emit ev).
Proof. intros H w. by apply f_event. Qed.

Lemma keeps_time_time : keeps f time_time.
Proof. intros w. apply f_env. Qed.

Lemma keeps_cpu_percent : keeps f cpu_percent.
Proof. intros w. apply f_env. Qed.

Lemma keeps_thread_start : keeps f thread_start.
Proof. intros w. unfold thread_start. destruct (hd true _); apply f_env. Qed.

Lemma keeps_RecordEvent n v : keeps f (RecordEvent n v).
Proof. intros w. apply f_STATS. Qed.

Lemma keeps_IncrementCounter n : keeps f (IncrementCounter n).
Proof. intros w. apply f_STATS. Qed.

Lemma keeps_set_pc t c : keeps f (set_pc t c).
Proof.
  apply keeps_bind; [apply keeps_get_thread|]. intros wk. apply keeps_set_thread.
Qed.

Lemma keeps_set_idle t b : keeps f (set_idle t b).
Proof.
  apply keeps_bind; [apply keeps_get_thread|]. intros wk. apply keeps_set_thread.
Qed.

Lemma keeps_call_silent by_ target args task_name :
  silent (EvCall by_ task_name args (target args)) = true →
  keeps f (call by_ target args task_name).
Proof.
  intros H. unfold call. apply keeps_bind; [by apply keeps_emit|].
  intros _. destruct (target args); [apply keeps_raise|apply keeps_ret].
Qed.

Lemma keeps_ProcessTask t tk : keeps f (ProcessTask t tk).
Proof.
  apply keeps_bind; [apply keeps_get_thread|]. intros wk.
  apply keeps_bind; [apply keeps_get_pool|]. intros pl.
  apply keeps_bind.
  { destruct (named pl); [|apply keeps_ret].
    apply keeps_bind; [apply keeps_time_time|]. intros now.
    apply keeps_bind; [apply keeps_RecordEvent|]. intros _. apply keeps_time_time. }
  intros start_time. apply keeps_bind.
  - apply keeps_try_except; [by apply keeps_call_silent|]. intros e.
    apply keeps_bind.
    + destruct (named pl); [apply keeps_IncrementCounter|apply keeps_ret].
    + intros _. apply keeps_bind; [apply keeps_str|]. intros message. apply keeps_log.
  - intros _. destruct (named pl); [|apply keeps_ret].
    apply keeps_bind; [apply keeps_time_time|]. intros now. apply keeps_RecordEvent.
Qed.

Lemma keeps__RemoveWorker p key : keeps f (_RemoveWorker p key).
Proof.
  apply keeps_bind; [apply keeps_get_pool|]. intros pl. apply keeps_set_pool.
Qed.

Lemma keeps__RemoveFromPool t : keeps f (_RemoveFromPool t).
Proof.
  apply keeps_bind; [apply keeps_get_thread|]. intros wk.
  apply keeps_bind; [apply keeps_get_pool|]. intros pl.
  destruct (len pl <=? min_threads pl)%Z; [apply keeps_ret|].
  apply keeps_bind; [apply keeps__RemoveWorker|]. intros _. apply keeps_ret.
Qed.

Lemma keeps_loop_top t : keeps f (loop_top t).
Proof.
  apply keeps_bind; [apply keeps_get_thread|]. intros wk.
  apply keeps_bind; [apply keeps_get_pool|]. intros pl.
  apply keeps_bind; [|intros _; apply keeps_set_pc].
  destruct (named pl); [apply keeps_set_idle|apply keeps_ret].
Qed.

Lemma keeps_age_check t : keeps f (age_check t).
Proof.
  apply keeps_bind; [apply keeps_get_thread|]. intros wk.
  apply keeps_bind; [apply keeps_time_time|]. intros now.
  destruct (600 <? _)%Z; [apply keeps_set_pc|apply keeps_loop_top].
Qed.

Lemma keeps_queue_task_done t m : keeps f (queue_task_done t m).
Proof.
  apply keeps_bind; [apply keeps_get_thread|]. intros wk.
  apply keeps_bind; [apply keeps_get_pool|]. intros pl.
  apply keeps_bind; [by apply keeps_emit|]. intros _.
  destruct (task_done (_queue pl)); [apply keeps_set_pool|apply keeps_raise].
Qed.

Lemma keeps_run_step held t : keeps f (run_step held t).
Proof.
  apply keeps_bind; [apply keeps_get_thread|]. intros wk.
  apply keeps_bind; [apply keeps_get_pool|]. intros pl.
  destruct (w_pc wk) as [|m| | |].
  - destruct (get_nowait (_queue pl)) as [[m q]|]; [|apply keeps_set_pc].
    apply keeps_bind; [apply keeps_set_pool|]. intros _.
    apply keeps_bind; [|intros _; apply keeps_set_pc].
    destruct (named pl); [apply keeps_set_idle|apply keeps_ret].
  - apply keeps_bind.
    + apply keeps_try_finally; [|apply keeps_queue_task_done].
      destruct m as [|tk]; [apply keeps_ret|].
      apply keeps_bind; [apply keeps_ProcessTask|]. intros _. apply keeps_ret.
    + intros []; [apply keeps_set_pc|apply keeps_age_check].
  - destruct (lock_is_held held (w_pool wk)); [apply keeps_ret|].
    apply keeps_bind; [apply keeps__RemoveFromPool|].
    intros []; [apply keeps_set_pc|apply keeps_age_check].
  - destruct (lock_is_held held (w_pool wk)); [apply keeps_ret|].
    apply keeps_bind; [apply keeps__RemoveFromPool|].
    intros []; [apply keeps_set_pc|apply keeps_loop_top].
  - apply keeps_ret.
Qed.

Lemma keeps_worker_step held t w : f (worker_step held t w) = f w.
Proof.
  unfold worker_step. pose proof (keeps_run_step held t w) as H.
  destruct (run_step held t w) as [[[]|e|] w1]; simpl in H; try done.
  - unfold kill. destruct (threads w1 !! t); [|done]. by rewrite f_threads.
  - unfold kill. destruct (threads w1 !! t); [|done]. by rewrite f_threads.
Qed.

Lemma keeps_yield held : keeps f (yield held).
Proof.
  intros w. unfold yield. simpl.
  generalize (hd [] (sched (env w))). intros ts.
  rewrite <- (f_env (mk_Env (clock (env w)) (cpu (env w)) (spawn (env w))
                            (tl (sched (env w)))) w).
  generalize (set_env (mk_Env (clock (env w)) (cpu (env w)) (spawn (env w))
                              (tl (sched (env w)))) w).
  induction ts as [|t ts IH]; intros w0; simpl; [done|].
  by rewrite IH, keeps_worker_step.
Qed.

Lemma keeps_wait_until fuel held cond : keeps f (wait_until fuel held cond).
Proof.
  induction fuel as [|fuel IH]; intros w; simpl; destruct (cond w); try done.
  by apply keeps_bind; [apply keeps_yield|].
Qed.

Lemma keeps_put_task p target args task_name : keeps f (put_task p target args task_name).
Proof.
  apply keeps_bind; [apply keeps_time_time|]. intros now.
  apply keeps_bind; [apply keeps_get_pool|]. intros pl.
  destruct (put_nowait _ _); [|apply keeps_ret].
  apply keeps_bind; [apply keeps_set_pool|]. intros _. apply keeps_ret.
Qed.

Lemma keeps_CPUUsage p : keeps f (CPUUsage p).
Proof.
  apply keeps_bind; [apply keeps_get_pool|]. intros pl.
  destruct (cpu_check pl); [apply keeps_cpu_percent|apply keeps_ret].
Qed.

Lemma keeps__AddWorker p : keeps f (_AddWorker p).
Proof.
  apply keeps_bind; [apply keeps_get_pool|]. intros pl.
  apply keeps_bind; [apply keeps_gets|]. intros n.
  apply keeps_bind; [intros w; apply (f_counter n w)|]. intros _.
  apply keeps_bind; [apply keeps_time_time|]. intros now.
  apply keeps_bind; [apply keeps_thread_start|]. intros _.
  apply keeps_bind; [apply keeps_set_thread|]. intros _. apply keeps_set_pool.
Qed.

Lemma keeps_grow p : keeps f (grow p).
Proof.
  apply keeps_bind; [apply keeps_get_pool|]. intros pl.
  apply keeps_bind.
  { destruct (len pl <? max_threads pl)%Z; [|apply keeps_ret].
    apply keeps_bind; [apply keeps_CPUUsage|]. intros usage. apply keeps_ret. }
  intros []; [|apply keeps_ret].
  apply keeps_try_except.
  - apply keeps_bind; [apply keeps__AddWorker|]. intros _. apply keeps_ret.
  - intros _. apply keeps_bind; [apply keeps_log|]. intros _. apply keeps_ret.
Qed.

Lemma keeps_AddTask_iteration p target args task_name blocking inline :
  keeps f (AddTask_iteration p target args task_name blocking inline).
Proof.
  apply keeps_bind; [apply keeps_yield|]. intros _.
  apply keeps_bind; [apply keeps_put_task|]. intros []; [apply keeps_ret|].
  apply keeps_bind; [apply keeps_grow|]. intros []; [apply keeps_ret|].
  destruct inline; [apply keeps_ret|]. destruct blocking; [|apply keeps_raise].
  apply keeps_bind; [apply keeps_yield|]. intros _.
  apply keeps_bind; [apply keeps_put_task|]. intros []; apply keeps_ret.
Qed.

Lemma keeps_AddTask_loop fuel p target args task_name blocking inline :
  keeps f (AddTask_loop fuel p target args task_name blocking inline).
Proof.
  induction fuel as [|fuel IH]; simpl; [apply keeps_blocked|].
  apply keeps_bind; [apply keeps_AddTask_iteration|].
  intros []; [done|apply keeps_ret|apply keeps_ret].
Qed.

Lemma keeps_Join fuel held p : keeps f (Join fuel held p).
Proof. apply keeps_wait_until. Qed.

Lemma keeps_put_stop fuel p : keeps f (put_stop fuel p).
Proof.
  apply keeps_bind; [apply keeps_wait_until|]. intros _.
  apply keeps_bind; [apply keeps_get_pool|]. intros pl.
  destruct (put_nowait _ _); [apply keeps_set_pool|apply keeps_blocked].
Qed.

Lemma keeps_Start p : silent (EvStart p) = true → keeps f (Start p).
Proof.
  intros H. apply keeps_bind; [by apply keeps_emit|]. intros _.
  apply keeps_bind; [apply keeps_get_pool|]. intros pl.
  destruct (started pl); [apply keeps_ret|].
  apply keeps_bind; [apply keeps_set_pool|]. intros _.
  apply keeps_repeat_M, keeps__AddWorker.
Qed.

Lemma keeps_Stop fuel p : silent (EvStop p) = true → keeps f (Stop fuel p).
Proof.
  intros H. apply keeps_bind; [by apply keeps_emit|]. intros _.
  apply keeps_bind; [apply keeps_get_pool|]. intros pl.
  destruct (negb (started pl)); [apply keeps_log|].
  apply keeps_bind; [apply keeps_set_pool|]. intros _.
  apply keeps_bind; [apply keeps_for_each; intros _; apply keeps_put_stop|]. intros _.
  apply keeps_bind; [apply keeps_get_pool|]. intros pl'.
  apply keeps_bind; [apply keeps_set_pool|]. intros _.
  apply keeps_bind; [apply keeps_Join|]. intros _.
  apply keeps_for_each. intros t. apply keeps_wait_until.
Qed.

End KeepsPool.

(** * AddTask: blocking, and what runs inline *)

Section Inline.

Context {A : Type}.

Local Abbreviation World := (World A).
Local Abbreviation ThreadPool := (ThreadPool A).

Implicit Types (w : World) (pl : ThreadPool).

Lemma caller_calls_add_event ev w :
  caller_calls (add_event ev w)
  = caller_calls w ++ (if is_caller_call ev then [ev] else []).
Proof.
  unfold caller_calls. simpl. rewrite filter_app. f_equal.
  destruct (is_caller_call ev) eqn:E.
  - by rewrite filter_cons_True.
  - rewrite filter_cons_False; [done|]. by rewrite E.
Qed.

(** What is not a call of a target on the calling thread leaves
    [caller_calls] alone. *)
Lemma caller_calls_kept {R} (m : M A R) :
  (∀ (f : World → list (event A)) silent,
     (∀ o w, f (set_objects o w) = f w) →
     (∀ t w, f (set_threads t w) = f w) →
     (∀ s w, f (set_STATS s w) = f w) →
     (∀ e w, f (set_env e w) = f w) →
     (∀ n w, f (set_counter n w) = f w) →
     (∀ r w, f (snd (log r w)) = f w) →
     (∀ ev w, silent ev = true → f (add_event ev w) = f w) →
     (∀ t task_name args raised, silent (EvCall (Worker t) task_name args raised) = true) →
     (∀ t msg, silent (EvTaskDone t msg) = true) →
     (∀ p, silent (EvStart p) = true) → (∀ p, silent (EvStop p) = true) →
     keeps f m) →
  keeps caller_calls m.
Proof.
  intros H. apply (H caller_calls silent_for_caller); try done.
  intros ev w Hs. rewrite caller_calls_add_event.
  unfold silent_for_caller in Hs. apply negb_true_iff in Hs. rewrite Hs.
  apply app_nil_r.
Qed.

Lemma pool_survives (allowed : label → Prop) w w' p :
  steps allowed w w' → Inv w → is_Some (objects w !! p) → is_Some (objects w' !! p).
Proof.
  intros Hs Hw [pl Hp].
  destruct (steps_pool (λ _, True) allowed w w' p pl Hs Hw Hp) as (pl' & Hp' & _);
    [done|done|by exists pl'].
Qed.

Lemma put_task_returns w p target args task_name :
  is_Some (objects w !! p) →
  fst (put_task p target args task_name w) = Returns true
  ∨ fst (put_task p target args task_name w) = Returns false.
Proof.
  intros [pl Hp]. rewrite (put_task_eq w p pl) by done. simpl.
  destruct (put_nowait _ _); [by left|by right].
Qed.

(** One pass through the body when the caller blocks: the task is queued,
    or the loop goes on. *)
Lemma AddTask_iteration_blocking w p target args task_name :
  Inv w → is_Some (objects w !! p) →
  let r := AddTask_iteration p target args task_name true false w in
  Inv (snd r) ∧ is_Some (objects (snd r) !! p)
  ∧ (fst r = Returns Return ∨ fst r = Returns Continue).
Proof.
  intros Hw Hp r.
  pose proof (runs_AddTask_iteration p target args task_name true false w Hw) as Hs.
  split; [by eapply steps_Inv|]. split; [by eapply pool_survives|].
  subst r. clear Hs.
  destruct (AddTask_iteration p target args task_name true false w) as [r w'] eqn:Hbody.
  simpl. unfold AddTask_iteration in Hbody. unfold bind at 1 in Hbody.
  pose proof (runs_yield (Some p) w Hw) as Hs1.
  destruct (yield (Some p) w) as [[[]|e|] w1] eqn:Hy; try done. simpl in Hs1.
  assert (Inv w1) as Hw1 by (by eapply steps_Inv).
  assert (is_Some (objects w1 !! p)) as Hp1 by (by eapply pool_survives).
  unfold bind at 1 in Hbody.
  pose proof (runs_put_task p target args task_name w1 Hw1) as Hs2.
  destruct (put_task_returns w1 p target args task_name Hp1) as [Hr2|Hr2];
    destruct (put_task p target args task_name w1) as [r2 w2]; simpl in *; subst r2;
    [injection Hbody as <- <-; by left|].
  assert (Inv w2) as Hw2 by (by eapply steps_Inv).
  assert (is_Some (objects w2 !! p)) as Hp2 by (by eapply pool_survives).
  unfold bind at 1 in Hbody.
  pose proof (runs_grow p w2 Hw2) as Hs3.
  destruct Hp2 as [pl2 Hp2].
  destruct (grow_false_iff w2 p pl2 Hp2) as [_ Hr3].
  destruct (grow p w2) as [r3 w3]; simpl in *.
  destruct Hr3 as [-> | ->]; [|injection Hbody as <- <-; by right].
  assert (Inv w3) as Hw3 by (by eapply steps_Inv).
  assert (is_Some (objects w3 !! p)) as Hp3 by (eapply pool_survives; eauto).
  unfold bind at 1 in Hbody.
  pose proof (runs_yield (Some p) w3 Hw3) as Hs4.
  destruct (yield (Some p) w3) as [[[]|e|] w4] eqn:Hy4; try done. simpl in Hs4.
  assert (Inv w4) as Hw4 by (by eapply steps_Inv).
  assert (is_Some (objects w4 !! p)) as Hp4 by (by eapply pool_survives).
  unfold bind in Hbody.
  destruct (put_task_returns w4 p target args task_name Hp4) as [Hr5|Hr5];
    destruct (put_task p target args task_name w4) as [r5 w5]; simpl in *; subst r5;
    injection Hbody as <- <-; [by left|by right].
Qed.

Lemma AddTask_loop_blocking fuel w p target args task_name :
  Inv w → is_Some (objects w !! p) →
  fst (AddTask_loop fuel p target args task_name true false w) = Returns true
  ∨ fst (AddTask_loop fuel p target args task_name true false w) = Blocked.
Proof.
  revert w. induction fuel as [|fuel IH]; intros w Hw Hp; simpl; [by right|].
  unfold bind.
  destruct (AddTask_iteration_blocking w p target args task_name Hw Hp)
    as (Hw1 & Hp1 & Hr).
  destruct (AddTask_iteration p target args task_name true false w) as [r w1].
  simpl in *. destruct Hr as [-> | ->]; [by left|by apply IH].
Qed.

(** X16. AddTask called to block ([blocking] set, [inline] cleared, as
    BatchConverter calls it) on a pool with [max_threads > 0] never raises
    and never runs the target itself: it returns, the task having been
    put in the queue, or it is still waiting for room in the queue. *)
Theorem blocking_AddTask_queues_or_waits w p pl fuel target args task_name :
  reachable w → objects w !! p = Some pl → (0 < max_threads pl)%Z →
  (fst (AddTask fuel p target args task_name true false w) = Returns tt
   ∨ fst (AddTask fuel p target args task_name true false w) = Blocked)
  ∧ caller_calls (snd (AddTask fuel p target args task_name true false w))
    = caller_calls w.
Proof.
  intros Hr Hp Hmax. pose proof (reachable_Inv w Hr) as Hw.
  rewrite (AddTask_eq w p pl) by done. simpl.
  destruct (Z.eqb_spec (max_threads pl) 0) as [|_]; [lia|].
  set (w0 := add_event (EvAddTask p target args task_name true false) w).
  assert (Inv w0) as Hw0 by (by apply Inv_add_event).
  assert (is_Some (objects w0 !! p)) as Hp0 by (by exists pl).
  assert (caller_calls w0 = caller_calls w) as Hc0.
  { unfold w0. rewrite caller_calls_add_event. apply app_nil_r. }
  unfold bind.
  pose proof (AddTask_loop_blocking fuel w0 p target args task_name Hw0 Hp0) as Hl.
  assert (caller_calls (snd (AddTask_loop fuel p target args task_name true false w0))
          = caller_calls w0) as Hc.
  { apply (caller_calls_kept (AddTask_loop fuel p target args task_name true false)).
    intros f silent H1 H2 H3 H4 H5 H6 H7 H8 H9 _ _.
    by apply (keeps_AddTask_loop f silent). }
  destruct (AddTask_loop fuel p target args task_name true false w0) as [rl wl].
  simpl in *. destruct Hl as [-> | ->]; simpl; (split; [tauto|congruence]).
Qed.

(** X17. Start, Stop, Join and the steps of the workers never call a
    target on the calling thread. AddTask calls the target there at most
    once, with the arguments it was given: always when [max_threads] is
    0, and never when [max_threads] is not 0 and [inline] is cleared. *)
Theorem only_AddTask_runs_a_task_on_the_caller :
  (∀ p w, caller_calls (snd (Start p w)) = caller_calls w)
  ∧ (∀ fuel p w, caller_calls (snd (Stop fuel p w)) = caller_calls w)
  ∧ (∀ fuel held p w, caller_calls (snd (Join fuel held p w)) = caller_calls w)
  ∧ (∀ held t w, caller_calls (worker_step held t w) = caller_calls w)
  ∧ (∀ fuel p target args task_name blocking inline w,
       let w' := snd (AddTask fuel p target args task_name blocking inline w) in
       let ran := EvCall Caller task_name args (target args) in
       (caller_calls w' = caller_calls w ∨ caller_calls w' = caller_calls w ++ [ran])
       ∧ ∀ pl, objects w !! p = Some pl →
           (max_threads pl = 0%Z → caller_calls w' = caller_calls w ++ [ran])
           ∧ (max_threads pl ≠ 0%Z → inline = false → caller_calls w' = caller_calls w)).
Proof.
  split; [|split; [|split; [|split]]].
  - intros p. apply caller_calls_kept.
    intros f silent H1 H2 H3 H4 H5 H6 H7 H8 H9 H10 _.
    by apply (keeps_Start f silent).
  - intros fuel p. apply caller_calls_kept.
    intros f silent H1 H2 H3 H4 H5 H6 H7 H8 H9 _ H11.
    by apply (keeps_Stop f silent).
  - intros fuel held p. apply caller_calls_kept.
    intros f silent H1 H2 H3 H4 H5 H6 H7 H8 H9 _ _.
    by apply (keeps_Join f silent).
  - intros held t w.
    apply (keeps_worker_step caller_calls silent_for_caller); try done.
    intros ev w0 Hs. rewrite caller_calls_add_event.
    unfold silent_for_caller in Hs. apply negb_true_iff in Hs. rewrite Hs.
    apply app_nil_r.
  - intros fuel p target args task_name blocking inline w w' ran. subst w'.
    set (w0 := add_event (EvAddTask p target args task_name blocking inline) w).
    assert (caller_calls w0 = caller_calls w) as Hc0.
    { unfold w0. rewrite caller_calls_add_event. apply app_nil_r. }
    assert (∀ wx, caller_calls (snd (call Caller target args task_name wx))
                  = caller_calls wx ++ [ran]) as Hcall.
    { intros wx. rewrite call_eq. simpl. by rewrite caller_calls_add_event. }
    destruct (objects w !! p) as [pl|] eqn:Hp.
    2:{ rewrite (AddTask_missing w p) by done. simpl. fold w0. split; [by left|done]. }
    rewrite (AddTask_eq w p pl) by done. simpl. fold w0.
    destruct (Z.eqb_spec (max_threads pl) 0) as [Hz|Hnz].
    { rewrite Hcall, Hc0. split; [by right|]. by intros pl' [= <-]. }
    unfold bind.
    assert (caller_calls (snd (AddTask_loop fuel p target args task_name
                                 (if inline then false else blocking) inline w0))
            = caller_calls w0) as Hc.
    { apply (caller_calls_kept (AddTask_loop fuel p target args task_name
                                  (if inline then false else blocking) inline)).
      intros f silent H1 H2 H3 H4 H5 H6 H7 H8 H9 _ _.
      by apply (keeps_AddTask_loop f silent). }
    destruct (AddTask_loop fuel p target args task_name
                (if inline then false else blocking) inline w0) as [[[]|e|] wl];
      simpl in *.
    all: destruct inline; simpl; rewrite ?Hcall, ?Hc, ?Hc0;
      (split; [tauto|]); intros pl' [= <-]; split; try done.
Qed.

(** X18. AddTask that is not to block ([inline] set, or [blocking]
    cleared) never waits: after at most [max_threads - len + 1] passes
    through its loop, each but the last adding a worker, it has queued the
    task, run it on the caller or raised Full. *)
Theorem nonblocking_AddTask_never_waits w p pl fuel target args task_name blocking inline :
  reachable w → objects w !! p = Some pl →
  inline = true ∨ blocking = false →
  Z.to_nat (max_threads pl - len pl) < fuel →
  fst (AddTask fuel p target args task_name blocking inline w) ≠ Blocked.
Proof.
  intros Hr Hp Hmode Hfuel. pose proof (reachable_Inv w Hr) as Hw.
  rewrite (AddTask_eq w p pl) by done. simpl.
  set (w0 := add_event (EvAddTask p target args task_name blocking inline) w).
  destruct (max_threads pl =? 0)%Z.
  { rewrite call_eq. simpl. by destruct (target args). }
  assert (Inv w0) as Hw0 by (by apply Inv_add_event).
  assert (objects w0 !! p = Some pl) as Hp0 by done.
  unfold bind.
  destruct (AddTask_loop_ends fuel w0 p pl target args task_name
              (if inline then false else blocking) inline Hw0 Hp0)
    as [[returned Hret]|[Hfull _]]; [by destruct inline, Hmode; auto|done| |].
  - destruct (AddTask_loop fuel p target args task_name
                (if inline then false else blocking) inline w0) as [rl wl].
    simpl in Hret. subst rl. destruct returned; [done|].
    destruct inline; [|done]. rewrite call_eq. simpl. by destruct (target args).
  - destruct (AddTask_loop fuel p target args task_name
                (if inline then false else blocking) inline w0) as [rl wl].
    simpl in Hfull. by subst rl.
Qed.

(** X19. The constructor of a pool with a name that is not registered
    returns the new pool and leaves six metrics behind, under the pool's
    name: three gauges bound to this pool, a counter and two event
    metrics. For a pool without a name, and when it raises
    DuplicateThreadpoolError, it leaves the statistics as they are. *)
Theorem constructor_registers_six_metrics name_ mn mx cc w :
  (name_ = "" ∨ is_Some (POOLS w !! name_) →
     STATS (snd (ThreadPool_init name_ mn mx cc w)) = STATS w)
  ∧ (name_ ≠ "" → POOLS w !! name_ = None →
     ∃ p, fst (ThreadPool_init name_ mn mx cc w) = Returns p
       ∧ objects (snd (ThreadPool_init name_ mn mx cc w)) !! p
         = Some (new_pool name_ mn mx cc)
       ∧ gauges (STATS (snd (ThreadPool_init name_ mn mx cc w)))
           !! (name_ +:+ "_outstanding_tasks") = Some (GaugeQsize p)
       ∧ gauges (STATS (snd (ThreadPool_init name_ mn mx cc w)))
           !! (name_ +:+ "_threads") = Some (GaugeLen p)
       ∧ gauges (STATS (snd (ThreadPool_init name_ mn mx cc w)))
           !! (name_ +:+ "_cpu_use") = Some (GaugeCPUUsage p)
       ∧ is_Some (counters (STATS (snd (ThreadPool_init name_ mn mx cc w)))
                    !! (name_ +:+ "_task_exceptions"))
       ∧ is_Some (event_metrics (STATS (snd (ThreadPool_init name_ mn mx cc w)))
                    !! (name_ +:+ "_working_time"))
       ∧ is_Some (event_metrics (STATS (snd (ThreadPool_init name_ mn mx cc w)))
                    !! (name_ +:+ "_queueing_time"))).
Proof.
  split.
  - intros Hcase. destruct (decide (name_ = "")) as [->|Hn].
    + reflexivity.
    + destruct Hcase as [|Hreg]; [done|].
      by rewrite (ThreadPool_init_refuses name_ mn mx cc w).
  - intros Hn Hfree. exists (next_ref w).
    destruct (ThreadPool_init name_ mn mx cc w) as [r w'] eqn:Hbody. simpl.
    unfold ThreadPool_init in Hbody. unfold bind at 1 in Hbody.
    unfold gets at 1 in Hbody. rewrite named_new_pool in Hbody.
    destruct (decide (name_ = "")) as [|_]; [done|].
    unfold bind at 1 2 in Hbody. unfold gets at 1 in Hbody.
    destruct (decide (is_Some (POOLS w !! name_))) as [[? Hreg]|_]; [congruence|].
    unfold bind, RegisterGaugeMetric, RegisterCounterMetric, RegisterEventMetric,
      modify, allocate in Hbody. simpl in Hbody. injection Hbody as <- <-. simpl.
    assert (∀ a b : string, a ≠ b → name_ +:+ a ≠ name_ +:+ b) as Hne.
    { intros a b Hab E. by apply (inj (String.app name_)) in E. }
    repeat split.
    + apply lookup_insert_eq.
    + rewrite lookup_insert_ne, lookup_insert_ne by (by apply Hne).
      apply lookup_insert_eq.
    + rewrite lookup_insert_ne by (by apply Hne). apply lookup_insert_eq.
    + apply lookup_insert_eq.
    + rewrite lookup_insert_eq. by eexists.
    + rewrite lookup_insert_ne by (by apply Hne). rewrite lookup_insert_eq. by eexists.
    + rewrite lookup_insert_eq. by eexists.
Qed.

(** X20. When the queue has room as AddTask comes to its put, the task is
    appended to the queue, stamped with the time, and AddTask returns
    from the first pass through its loop: no worker is created, and the
    target is not called. *)
Theorem AddTask_queues_when_there_is_room w p pl fuel target args task_name
    blocking inline pl1 :
  objects w !! p = Some pl → max_threads pl ≠ 0%Z →
  objects (at_put p (add_event (EvAddTask p target args task_name blocking inline) w))
    !! p = Some pl1 →
  full (_queue pl1) = false →
  let w1 := at_put p (add_event (EvAddTask p target args task_name blocking inline) w) in
  AddTask (S fuel) p target args task_name blocking inline w
  = (Returns tt,
     upd_pool p
       (set_queue
          (mk_Queue (maxsize (_queue pl1))
             (queue (_queue pl1)
              ++ [Task (mk_task target args task_name (hd 0%Z (clock (env w1))))])
             (unfinished_tasks (_queue pl1) + 1)%Z)
          pl1)
       (snd (time_time w1))).
Proof.
  intros Hp Hmax Hp1 Hroom w1.
  rewrite (AddTask_eq w p pl) by done. simpl.
  destruct (Z.eqb_spec (max_threads pl) 0) as [|_]; [done|].
  unfold bind at 1 2. unfold AddTask_iteration. unfold bind at 1.
  change (yield (Some p) (add_event (EvAddTask p target args task_name blocking inline) w))
    with (Returns tt, w1).
  unfold bind at 1. rewrite (put_task_eq w1 p pl1) by done. simpl.
  unfold put_nowait. by rewrite Hroom.
Qed.

End Inline.

(** * The stop sentinel, and the Join inside Stop *)

Section Sentinel.

Context {A : Type}.

Local Abbreviation World := (World A).
Local Abbreviation ThreadPool := (ThreadPool A).
Local Abbreviation WorkerThread := (WorkerThread A).

Implicit Types (w : World) (pl : ThreadPool) (wk : WorkerThread).











(** *** Workers that wait for the lock Stop holds *)

Lemma worker_step_at_lock p t w :
  is_Some (objects w !! p) → all_wait_for_lock p w →
  objects (worker_step (Some p) t w) = objects w
  ∧ threads (worker_step (Some p) t w) = threads w.
Proof.
  intros [pl Hp] Hall. unfold worker_step, run_step, bind, get_thread.
  destruct (threads w !! t) as [wk|] eqn:Ht.
  2:{ unfold kill. by rewrite Ht. }
  destruct (Hall t wk Ht) as [Hpc|[Hpool Hpc]].
  - unfold get_pool. destruct (objects w !! w_pool wk).
    + by rewrite Hpc.
    + unfold kill. rewrite Ht. simpl. split; [done|].
      apply insert_id. rewrite Ht. f_equal. destruct wk. simpl in *. by subst.
  - rewrite Hpool. unfold get_pool. rewrite Hp.
    unfold lock_is_held. rewrite bool_decide_eq_true_2 by done.
    by destruct Hpc as [-> | ->].
Qed.

Lemma yield_at_lock p w :
  is_Some (objects w !! p) → all_wait_for_lock p w →
  objects (snd (yield (Some p) w)) = objects w
  ∧ threads (snd (yield (Some p) w)) = threads w.
Proof.
  intros Hp Hall. unfold yield. simpl.
  generalize (hd [] (sched (env w))). intros ts.
  set (w0 := set_env _ w).
  assert (objects w0 = objects w ∧ threads w0 = threads w) as H0 by done.
  revert H0. generalize w0. clear w0.
  induction ts as [|t ts IH]; intros w0 [Ho Ht]; simpl; [done|].
  apply IH.
  destruct (worker_step_at_lock p t w0) as [Ho' Ht'].
  - by rewrite Ho.
  - unfold all_wait_for_lock. by rewrite Ht.
  - by rewrite Ho', Ht'.
Qed.

(** With every thread waiting for the lock the caller holds, a condition
    on the pools and threads that is false stays false: the wait does not
    end. *)
Lemma wait_until_at_lock fuel p (cond : World → bool) w :
  is_Some (objects w !! p) → all_wait_for_lock p w →
  (∀ w1 w2, objects w1 = objects w2 → threads w1 = threads w2 → cond w1 = cond w2) →
  cond w = false →
  fst (wait_until fuel (Some p) cond w) = Blocked.
Proof.
  intros Hp Hall Hcond. revert w Hp Hall.
  induction fuel as [|fuel IH]; intros w Hp Hall Hc; simpl; rewrite Hc; [done|].
  unfold bind. destruct (yield (Some p) w) as [r w'] eqn:Hy.
  assert (r = Returns tt) as -> by (unfold yield in Hy; by injection Hy as <- _).
  destruct (yield_at_lock p w Hp Hall) as [Ho Ht]. rewrite Hy in Ho, Ht. simpl in *.
  apply IH.
  - by rewrite Ho.
  - unfold all_wait_for_lock. by rewrite Ht.
  - by rewrite (Hcond w' w).
Qed.

Lemma put_stop_room fuel p w pl :
  objects w !! p = Some pl → full (_queue pl) = false →
  put_stop fuel p w
  = (Returns tt,
     upd_pool p (set_queue (mk_Queue (maxsize (_queue pl))
                              (queue (_queue pl) ++ [STOP_MESSAGE])
                              (unfinished_tasks (_queue pl) + 1)%Z) pl) w).
Proof.
  intros Hp Hfull. unfold put_stop. unfold bind at 1.
  rewrite wait_until_now by (unfold has_room; by rewrite Hp, Hfull).
  unfold bind at 1. rewrite (get_pool_eq w p pl Hp).
  unfold put_nowait. by rewrite Hfull.
Qed.

Lemma put_stop_at_lock fuel p w pl :
  objects w !! p = Some pl → all_wait_for_lock p w → full (_queue pl) = true →
  fst (put_stop fuel p w) = Blocked.
Proof.
  intros Hp Hall Hfull. unfold put_stop. unfold bind at 1.
  pose proof (wait_until_at_lock fuel p (has_room p) w) as Hwait.
  destruct (wait_until fuel (Some p) (has_room p) w) as [r w'].
  simpl in Hwait. rewrite Hwait; [done|by eexists|done| |].
  - intros w1 w2 Ho _. unfold has_room. by rewrite Ho.
  - unfold has_room. by rewrite Hp, Hfull.
Qed.

Lemma puts_at_lock fuel p (L : list tid) w pl :
  objects w !! p = Some pl → all_wait_for_lock p w →
  fst (for_each L (λ _, put_stop fuel p) w) = Blocked
  ∨ (fst (for_each L (λ _, put_stop fuel p) w) = Returns tt
     ∧ threads (snd (for_each L (λ _, put_stop fuel p) w)) = threads w
     ∧ ∃ pl', objects (snd (for_each L (λ _, put_stop fuel p) w)) !! p = Some pl'
              ∧ unfinished_tasks (_queue pl')
                = (unfinished_tasks (_queue pl) + Z.of_nat (length L))%Z).
Proof.
  revert w pl. induction L as [|t L IH]; intros w pl Hp Hall.
  { right. simpl. split; [done|]. split; [done|]. exists pl. split; [done|]. lia. }
  destruct (for_each (t :: L) (λ _, put_stop fuel p) w) as [r w'] eqn:Hbody.
  cbn [for_each] in Hbody. unfold bind at 1 in Hbody.
  destruct (full (_queue pl)) eqn:Hfull.
  - pose proof (put_stop_at_lock fuel p w pl Hp Hall Hfull) as Hb.
    destruct (put_stop fuel p w) as [r0 w0]. simpl in Hb. subst r0.
    injection Hbody as <- <-. by left.
  - rewrite (put_stop_room fuel p w pl Hp Hfull) in Hbody.
    set (pl1 := set_queue _ pl) in Hbody. set (w1 := upd_pool p pl1 w) in Hbody.
    destruct (IH w1 pl1) as [Hb|(Hr & Ht & pl' & Hp' & Hu')].
    + apply lookup_insert_eq.
    + done.
    + rewrite Hbody in Hb. by left.
    + rewrite Hbody in Hr, Ht, Hp'. right. split; [done|]. split; [done|].
      exists pl'. split; [done|]. rewrite Hu'. simpl. lia.
Qed.

(** X21. Stop holds the pool lock from beginning to end, and a worker
    enters _RemoveFromPool under the same lock. When Stop is called on a
    started pool that has a worker while every thread of the process has
    left or waits for that lock, Stop does not return, whatever time it is
    given: either a put of a sentinel waits for room in the queue, or Join
    waits for sentinels that no worker will take. *)
Theorem Stop_waits_for_the_workers_it_locks_out fuel w p pl :
  reachable w → objects w !! p = Some pl → started pl = true →
  captured pl ≠ [] → all_wait_for_lock p w →
  fst (Stop fuel p w) = Blocked.
Proof.
  intros Hr Hp Hs Hne Hall.
  destruct (reachable_Inv w Hr) as [_ Hacc].
  pose proof (Hacc p pl Hp) as Hu.
  rewrite (Stop_started_eq w p pl fuel Hp Hs). fold (captured pl).
  set (w1 := upd_pool p (set_workers ∅ pl) (add_event (EvStop p) w)).
  assert (objects w1 !! p = Some (set_workers ∅ pl)) as Hp1 by apply lookup_insert_eq.
  assert (all_wait_for_lock p w1) as Hall1 by done.
  unfold bind at 1.
  destruct (puts_at_lock fuel p (captured pl) w1 _ Hp1 Hall1)
    as [Hb|(Hret & Ht & pl' & Hp' & Hu')];
    destruct (for_each (captured pl) (λ _, put_stop fuel p) w1) as [r w2];
    simpl in *; subst r; [done|].
  unfold bind at 1. rewrite (get_pool_eq w2 p pl' Hp').
  unfold bind at 1. unfold set_pool at 1, modify at 1.
  set (w3 := set_objects _ w2).
  unfold bind at 1. unfold Join.
  pose proof (wait_until_at_lock fuel p (λ w, bool_decide (outstanding p w = 0%Z)) w3)
    as Hwait.
  destruct (wait_until fuel (Some p) _ w3) as [r w4]. simpl in Hwait.
  rewrite Hwait; [done| | | |].
  - exists (set_started false pl'). apply lookup_insert_eq.
  - unfold all_wait_for_lock, w3. simpl. rewrite Ht. exact Hall1.
  - intros wa wb Ho _. unfold outstanding. by rewrite Ho.
  - apply bool_decide_eq_false. unfold outstanding, w3. simpl.
    rewrite lookup_insert_eq. simpl. rewrite Hu', Hu.
    destruct (captured pl); [done|]. simpl. lia.
Qed.

End Sentinel.

(** * AddTask: Full of the pool and Full of the task *)

Section FullOfTheTask.

Context {A : Type}.

Local Abbreviation World := (World A).
Local Abbreviation ThreadPool := (ThreadPool A).

Implicit Types (w : World) (pl : ThreadPool).




End FullOfTheTask.

(** * The claims on concrete processes *)

(** A process with the one pool that Factory("p", 0) makes. *)
Lemma zero_max_threads_runs_on_caller_witness :
  let w := run_ops [OpFactory "p" 0 None true] (init_world (A := nat) quiet_env) in
  reachable w
  ∧ objects w !! 0 = Some (new_pool "p" 0 None true)
  ∧ max_threads (new_pool (A := nat) "p" 0 None true) = 0%Z
  ∧ AddTask 1 0 fine 7 "t" true true w
    = (Returns tt,
       add_event (EvCall Caller "t" 7 None)
         (add_event (EvAddTask 0 fine 7 "t" true true) w)).
Proof.
  intros w.
  assert (reachable w) as Hr by (by exists quiet_env, [OpFactory "p" 0%Z None true]).
  assert (objects w !! 0 = Some (new_pool "p" 0 None true)) as Hp by reflexivity.
  split; [exact Hr|]. split; [exact Hp|]. split; [reflexivity|].
  destruct (zero_max_threads_runs_on_caller w 0 _ 1 fine 7 "t" true true Hr Hp eq_refl)
    as (_ & _ & _ & H & _).
  exact H.
Defined.





(** The worker of a pool without a name holds a task it has taken from the
    queue and not yet run. *)
Lemma unnamed_pool_never_busy_witness :
  let w := run_ops [OpInit "" 1 None true; OpStart 0;
                    OpAddTask 1 0 fine 7 "t" true true; OpWorker 1]
             (init_world (A := nat) quiet_env) in
  reachable w
  ∧ (∃ wk, threads w !! 1 = Some wk ∧ is_holding (w_pc wk) = true)
  ∧ ∃ pl, objects w !! 0 = Some pl ∧ name pl = "" ∧ busy_threads w pl = 0.
Proof.
  intros w.
  assert (reachable w) as Hr
    by (by exists quiet_env, [OpInit "" 1%Z None true; OpStart 0;
                              OpAddTask 1 0 fine 7 "t" true true; OpWorker 1]).
  split; [exact Hr|]. split.
  - eexists. split; [vm_compute; reflexivity|reflexivity].
  - eexists. split; [vm_compute; reflexivity|]. split; [reflexivity|].
    apply (unnamed_pool_never_busy w 0); [exact Hr|vm_compute; reflexivity|reflexivity].
Defined.

(** The same run in a pool with a name: the flag is written, and the
    worker counts as busy. *)
Example named_pool_busy :
  let w := run_ops [OpInit "p" 1 None true; OpStart 0;
                    OpAddTask 1 0 fine 7 "t" true true; OpWorker 1]
             (init_world (A := nat) quiet_env) in
  ∃ pl, objects w !! 0 = Some pl ∧ busy_threads w pl = 1.
Proof. eexists. split; vm_compute; reflexivity. Qed.

(** C2, where the code fails it: a task that raises, given to a pool made
    by Factory("p", 0), runs on the caller and its exception comes out of
    AddTask; nothing is logged, the counter p_task_exceptions stays at 0
    and no p_working_time sample is recorded. The same happens in a pool
    with workers when the full queue sends the task inline. *)
Theorem inline_task_exception_escapes :
  let w := run_ops [OpFactory "p" 0 None true] (init_world quiet_env) in
  let r := AddTask 1 0 boom 7 "t" true true w in
  fst r = Raises (Exception "boom")
  ∧ logging (snd r) = []
  ∧ counter "p_task_exceptions" (snd r) = 0%Z
  ∧ samples "p_working_time" (snd r) = []
  ∧ let w1 := run_ops [OpFactory "q" 0 (Some 1%Z) true; OpAddTask 1 0 fine 1 "first" true true]
                (init_world quiet_env) in
    let r1 := AddTask 2 0 boom 7 "t" true true w1 in
    fst r1 = Raises (Exception "boom")
    ∧ logging (snd r1) = []
    ∧ counter "q_task_exceptions" (snd r1) = 0%Z
    ∧ samples "q_working_time" (snd r1) = [].
Proof. vm_compute. repeat split. Qed.

(** C5, where the code fails it: Start on a pool with [min_threads = 2]
    when the second thread cannot be created. The ThreadError comes out of
    Start although one worker was created; nothing is logged. *)
Theorem Start_raises_after_partial_spawn :
  let w := run_ops [OpInit "p" 2 None true]
             (init_world (A := nat) (mk_Env [] [] [true; false] [])) in
  let r := Start 0 w in
  fst r = Raises ThreadError
  ∧ logging (snd r) = []
  ∧ ∃ pl, objects (snd r) !! 0 = Some pl ∧ len pl = 1%Z ∧ started pl = true.
Proof.
  simpl. split; [vm_compute; reflexivity|]. split; [vm_compute; reflexivity|].
  eexists. split; [vm_compute; reflexivity|]. split; vm_compute; reflexivity.
Qed.

(** C7, as stated, fails: Factory called with the empty name stores the
    pool under that name, and a second call finds it there and returns it,
    whatever its arguments. *)
Lemma Factory_registers_the_unnamed_pool :
  fst (Factory (A := nat) "" 1 None true (init_world quiet_env)) = Returns 0
  ∧ POOLS (snd (Factory (A := nat) "" 1 None true (init_world quiet_env))) !! ""
    = Some 0
  ∧ Factory "" 5 (Some 9%Z) false
      (snd (Factory (A := nat) "" 1 None true (init_world quiet_env)))
    = (Returns 0, snd (Factory (A := nat) "" 1 None true (init_world quiet_env))).
Proof. split; [|split]; vm_compute; reflexivity. Qed.

(** C3, as stated, fails: a pool constructed with [min_threads = 2] and
    not yet started has no worker. *)
Lemma unstarted_pool_is_below_min_threads :
  ∃ pl, objects (run_ops [OpInit "p" 2 (Some 5%Z) true]
                   (init_world (A := nat) quiet_env)) !! 0 = Some pl
        ∧ started pl = false
        ∧ len pl = 0%Z ∧ min_threads pl = 2%Z
        ∧ ¬ size_band pl.
Proof.
  eexists. split; [vm_compute; reflexivity|]. repeat split.
  unfold size_band. vm_compute. intros [H _]. by apply H.
Qed.

(** The pool "p" of two to five threads is started, a task comes in, and
    the two workers take turns: the band holds at the end. *)
Lemma size_band_from_Start_to_Stop_witness :
  let w := run_ops [OpInit "p" 2 (Some 5%Z) false] (init_world (A := nat) quiet_env) in
  let ops := [OpAddTask 3 0 fine 1 "a" true false; OpWorker 1; OpWorker 1;
              OpWorker 2; OpWorker 2; OpStart 0] in
  reachable w
  ∧ running_band 0 (run_ops ops (snd (Start 0 w))).
Proof.
  intros w ops.
  assert (reachable w) as Hr
    by (by exists quiet_env, [OpInit "p" 2%Z (Some 5%Z) false]).
  split; [exact Hr|].
  apply (size_band_from_Start_to_Stop w 0 (new_pool "p" 2 (Some 5%Z) false) ops Hr).
  - reflexivity.
  - reflexivity.
  - reflexivity.
  - simpl. lia.
  - vm_compute. reflexivity.
  - repeat constructor; simpl; tauto.
Defined.

(** What the amended claim leaves out: AddTask can add workers to a pool
    that was never started, and Start then adds [min_threads] more. *)
Example Start_after_growth_exceeds_max_threads :
  ∃ pl, objects (run_ops [OpInit "p" 1 None false;
                          OpAddTask 1 0 fine 1 "a" true true;
                          OpAddTask 2 0 fine 2 "b" true true;
                          OpStart 0]
                   (init_world (A := nat) quiet_env)) !! 0 = Some pl
        ∧ max_threads pl = 1%Z ∧ len pl = 2%Z.
Proof. eexists. split; [vm_compute; reflexivity|]. split; vm_compute; reflexivity. Qed.



(** Why [min_threads] is taken not to be negative: the constructor lets
    [max_threads] follow a negative [min_threads], and the pool, started
    and empty, is above it. *)
Example negative_max_threads_is_below_the_count :
  ∃ pl, objects (run_ops [OpInit "p" (-1) None true; OpStart 0]
                   (init_world (A := nat) quiet_env)) !! 0 = Some pl
        ∧ started pl = true ∧ len pl = 0%Z ∧ max_threads pl = (-1)%Z.
Proof. eexists. split; [vm_compute; reflexivity|]. repeat split. Qed.

(** * The further properties on concrete processes *)

(** The pool, or the thread, that a concrete process has under a
    reference. *)
Ltac the_pool w p pl Hp :=
  destruct (objects w !! p) as [pl|] eqn:Hp;
  [|exfalso; vm_compute in Hp; discriminate Hp].

Ltac the_thread w t wk Ht :=
  destruct (threads w !! t) as [wk|] eqn:Ht;
  [|exfalso; vm_compute in Ht; discriminate Ht].

(** A fact about it, by evaluation. *)
Ltac by_evaluation H Hp :=
  rewrite Hp in H; simpl in H; injection H as H.

Lemma queued_pool_reachable : reachable queued_pool.
Proof.
  by exists quiet_env,
    [OpInit "p" 1%Z None true; OpStart 0; OpAddTask 1 0 fine 1 "a" true true].
Qed.

Lemma started_pool_reachable e : reachable (started_pool e).
Proof. by exists e, [OpInit "p" 1%Z None true; OpStart 0]. Qed.

Lemma new_pool_p_reachable : reachable new_pool_p.
Proof. by exists quiet_env, [OpInit "p" 1%Z None true]. Qed.

Lemma stopping_pool_reachable : reachable stopping_pool.
Proof.
  by exists quiet_env, [OpInit "p" 1%Z None true; OpStart 0; OpStop 0 0; OpWorker 1].
Qed.

Lemma grown_pool_reachable : reachable grown_pool.
Proof.
  by exists quiet_env,
    [OpInit "p" 0%Z (Some 2%Z) false;
     OpAddTask 1 0 fine 1 "a" true true;
     OpAddTask 1 0 fine 2 "b" true true;
     OpAddTask 3 0 fine 3 "c" true true].
Qed.

(** The queue of "p" is full and the pool has its one worker: AddTask
    that may neither block nor run the task inline raises Full. *)
Lemma AddTask_raises_Full_exactly_when_witness :
  ∃ pl, objects queued_pool !! 0 = Some pl ∧ (0 < max_threads pl)%Z
        ∧ fst (AddTask 1 0 fine 7 "t" false false queued_pool) = Raises Full.
Proof.
  the_pool queued_pool 0 pl Hp. exists pl. split; [reflexivity|].
  assert (max_threads <$> objects queued_pool !! 0 = Some 1%Z) as Hmax
    by (vm_compute; reflexivity).
  by_evaluation Hmax Hp.
  assert (0 < max_threads pl)%Z as Hpos by (rewrite Hmax; lia).
  split; [exact Hpos|].
  assert (fine 7 ≠ Some Full) as Htarget by discriminate.
  pose proof (AddTask_raises_Full_exactly_when queued_pool 0 pl 1 fine 7 "t" false false
                queued_pool_reachable Hp Hpos Htarget) as H.
  cbv zeta in H. destruct H as [[_ H] _]. apply H.
  split; [reflexivity|]. split; [reflexivity|].
  exists 0, (add_event (EvAddTask 0 fine 7 "t" false false) queued_pool).
  split; [lia|]. split; [apply iterations_O|]. split.
  - eexists. split; vm_compute; reflexivity.
  - eexists. split; [vm_compute; reflexivity|]. left.
    apply Z.leb_le. vm_compute. reflexivity.
Defined.

(** The worker of "p" runs a task that raises. *)
Lemma ProcessTask_contains_the_exception_witness :
  ∃ wk pl, threads (started_pool quiet_env) !! 1 = Some wk
           ∧ objects (started_pool quiet_env) !! w_pool wk = Some pl
           ∧ fst (ProcessTask 1 (mk_task boom 7 "t" 0) (started_pool quiet_env))
             = Returns tt.
Proof.
  the_thread (started_pool quiet_env) 1 wk Ht.
  assert (w_pool <$> threads (started_pool quiet_env) !! 1 = Some 0) as Hpool
    by (vm_compute; reflexivity).
  by_evaluation Hpool Ht.
  the_pool (started_pool quiet_env) 0 pl Hp.
  exists wk, pl. split; [reflexivity|]. rewrite Hpool. split; [exact Hp|].
  rewrite <- Hpool in Hp.
  exact (proj1 (ProcessTask_contains_the_exception (started_pool quiet_env) 1
                  (mk_task boom 7 "t" 0) wk pl Ht Hp)).
Defined.

(** The worker of "p" holds the stop sentinel: its next step is its
    last. *)
Lemma worker_exits_by_sentinel_or_retirement_witness :
  ∃ wk pl, threads stopping_pool !! 1 = Some wk
           ∧ objects stopping_pool !! w_pool wk = Some pl
           ∧ w_pc wk ≠ Exited
           ∧ is_alive 1 (worker_step None 1 stopping_pool) = false.
Proof.
  the_thread stopping_pool 1 wk Ht.
  assert (w_pool <$> threads stopping_pool !! 1 = Some 0) as Hpool
    by (vm_compute; reflexivity).
  by_evaluation Hpool Ht.
  assert (w_pc <$> threads stopping_pool !! 1 = Some (Holding STOP_MESSAGE)) as Hpc
    by (vm_compute; reflexivity).
  by_evaluation Hpc Ht.
  the_pool stopping_pool 0 pl Hp.
  exists wk, pl. split; [reflexivity|]. rewrite Hpool. split; [exact Hp|].
  rewrite <- Hpool in Hp.
  assert (w_pc wk ≠ Exited) as Hne by (rewrite Hpc; discriminate).
  split; [exact Hne|].
  apply (worker_exits_by_sentinel_or_retirement None stopping_pool 1 wk pl
           stopping_pool_reachable Ht Hp Hne).
  left. exact Hpc.
Defined.

Lemma outstanding_is_queued_or_held_witness :
  ∃ pl, objects queued_pool !! 0 = Some pl
        ∧ outstanding 0 queued_pool
          = (Z.of_nat (pending_tasks pl) + Z.of_nat (holding 0 queued_pool))%Z.
Proof.
  the_pool queued_pool 0 pl Hp. exists pl. split; [reflexivity|].
  exact (proj1 (outstanding_is_queued_or_held queued_pool 0 pl
                  queued_pool_reachable Hp)).
Defined.

Lemma worker_dictionary_in_every_state_witness :
  ∃ pl, objects (started_pool quiet_env) !! 0 = Some pl
        ∧ _workers_ro_copy pl = _workers pl.
Proof.
  the_pool (started_pool quiet_env) 0 pl Hp. exists pl. split; [reflexivity|].
  exact (proj1 (worker_dictionary_in_every_state (started_pool quiet_env) 0 pl
                  (started_pool_reachable quiet_env) Hp)).
Defined.

Lemma queue_holds_at_most_max_threads_witness :
  ∃ pl, objects queued_pool !! 0 = Some pl ∧ (0 < max_threads pl)%Z
        ∧ (Z.of_nat (pending_tasks pl) ≤ max_threads pl)%Z.
Proof.
  the_pool queued_pool 0 pl Hp. exists pl. split; [reflexivity|].
  assert (max_threads <$> objects queued_pool !! 0 = Some 1%Z) as Hmax
    by (vm_compute; reflexivity).
  by_evaluation Hmax Hp.
  assert (0 < max_threads pl)%Z as Hpos by (rewrite Hmax; lia).
  split; [exact Hpos|].
  exact (proj1 (queue_holds_at_most_max_threads queued_pool 0 pl
                  queued_pool_reachable Hp Hpos)).
Defined.

(** Start, and Start again. *)
Lemma Start_twice_witness :
  ∃ pl, objects new_pool_p !! 0 = Some pl
        ∧ Start 0 (snd (Start 0 new_pool_p))
          = (Returns tt, add_event (EvStart 0) (snd (Start 0 new_pool_p))).
Proof.
  the_pool new_pool_p 0 pl Hp. exists pl. split; [reflexivity|].
  exact (proj1 (proj2 (Start_twice new_pool_p 0 pl Hp))).
Defined.

Lemma Start_adds_min_threads_workers_witness :
  ∃ pl, objects new_pool_p !! 0 = Some pl ∧ started pl = false
        ∧ fst (Start 0 new_pool_p) = Returns tt
        ∧ ∃ pl', objects (snd (Start 0 new_pool_p)) !! 0 = Some pl'
                 ∧ started pl' = true
                 ∧ len pl' = (len pl + Z.max 0 (min_threads pl))%Z
                 ∧ _workers_ro_copy pl' = _workers pl'.
Proof.
  the_pool new_pool_p 0 pl Hp. exists pl. split; [reflexivity|].
  assert (started <$> objects new_pool_p !! 0 = Some false) as Hs
    by (vm_compute; reflexivity).
  by_evaluation Hs Hp. split; [exact Hs|].
  assert (fst (Start 0 new_pool_p) = Returns tt) as Hret by (vm_compute; reflexivity).
  split; [exact Hret|].
  exact (Start_adds_min_threads_workers new_pool_p 0 pl new_pool_p_reachable Hp Hs Hret).
Defined.

(** Stop on "p", whose worker is given two steps while Stop waits. *)
Lemma Stop_returns_with_the_pool_stopped_witness :
  ∃ pl, objects (started_pool (mk_Env [] [] [] [[1; 1]])) !! 0 = Some pl
        ∧ started pl = true
        ∧ fst (Stop 1 0 (started_pool (mk_Env [] [] [] [[1; 1]]))) = Returns tt
        ∧ stopped 0 (snd (Stop 1 0 (started_pool (mk_Env [] [] [] [[1; 1]])))).
Proof.
  the_pool (started_pool (mk_Env [] [] [] [[1; 1]])) 0 pl Hp.
  exists pl. split; [reflexivity|].
  assert (started <$> objects (started_pool (mk_Env [] [] [] [[1; 1]])) !! 0
          = Some true) as Hs by (vm_compute; reflexivity).
  by_evaluation Hs Hp. split; [exact Hs|].
  assert (fst (Stop 1 0 (started_pool (mk_Env [] [] [] [[1; 1]]))) = Returns tt)
    as Hret by (vm_compute; reflexivity).
  split; [exact Hret|].
  pose proof (Stop_returns_with_the_pool_stopped 1
                (started_pool (mk_Env [] [] [] [[1; 1]])) 0 pl
                (started_pool_reachable _) Hp Hret) as H.
  rewrite Hs in H. exact (proj1 H).
Defined.

(** The first of the two workers of the grown pool may leave. *)
Lemma _RemoveFromPool_removes_its_own_key_witness :
  ∃ wk pl, threads grown_pool !! 1 = Some wk
           ∧ objects grown_pool !! w_pool wk = Some pl
           ∧ (min_threads pl < len pl)%Z
           ∧ fst (_RemoveFromPool 1 grown_pool) = Returns true.
Proof.
  the_thread grown_pool 1 wk Ht.
  assert (w_pool <$> threads grown_pool !! 1 = Some 0) as Hpool
    by (vm_compute; reflexivity).
  by_evaluation Hpool Ht.
  the_pool grown_pool 0 pl Hp.
  exists wk, pl. split; [reflexivity|]. rewrite Hpool. split; [exact Hp|].
  rewrite <- Hpool in Hp.
  assert ((λ pl, (min_threads pl <? len pl)%Z) <$> objects grown_pool !! w_pool wk
          = Some true) as Hlen by (rewrite Hpool; vm_compute; reflexivity).
  by_evaluation Hlen Hp. apply Z.ltb_lt in Hlen.
  split; [exact Hlen|].
  destruct (_RemoveFromPool_removes_its_own_key grown_pool 1 wk pl
              grown_pool_reachable Ht Hp Hlen) as (pl' & Heq & _).
  by rewrite Heq.
Defined.


(** The three batches of five values, converted on the calling thread. *)
Example Convert_on_the_calling_thread :
  let r := Convert 1 inline_converter [1; 2; 3; 4; 5] 0 None (init_world quiet_env) in
  fst r = Returns tt
  ∧ trace (snd r)
    = [EvStart 0;
       EvAddTask 0 (ConvertBatch inline_converter) [1; 2] "batch_0" true false;
       EvCall Caller "batch_0" [1; 2] None;
       EvAddTask 0 (ConvertBatch inline_converter) [3; 4] "batch_1" true false;
       EvCall Caller "batch_1" [3; 4] None;
       EvAddTask 0 (ConvertBatch inline_converter) [5] "batch_2" true false;
       EvCall Caller "batch_2" [5] None;
       EvStop 0].
Proof. split; vm_compute; reflexivity. Qed.

Lemma blocking_AddTask_queues_or_waits_witness :
  ∃ pl, objects (started_pool quiet_env) !! 0 = Some pl ∧ (0 < max_threads pl)%Z
        ∧ caller_calls (snd (AddTask 1 0 fine 7 "t" true false (started_pool quiet_env)))
          = caller_calls (started_pool quiet_env).
Proof.
  the_pool (started_pool quiet_env) 0 pl Hp. exists pl. split; [reflexivity|].
  assert (max_threads <$> objects (started_pool quiet_env) !! 0 = Some 1%Z) as Hmax
    by (vm_compute; reflexivity).
  by_evaluation Hmax Hp.
  assert (0 < max_threads pl)%Z as Hpos by (rewrite Hmax; lia).
  split; [exact Hpos|].
  exact (proj2 (blocking_AddTask_queues_or_waits (started_pool quiet_env) 0 pl 1
                  fine 7 "t" (started_pool_reachable quiet_env) Hp Hpos)).
Defined.

(** The queue of "p" is full and the pool is at its size: the task runs
    inline, in the first pass through the loop. *)
Lemma nonblocking_AddTask_never_waits_witness :
  ∃ pl, objects queued_pool !! 0 = Some pl
        ∧ Z.to_nat (max_threads pl - len pl) < 1
        ∧ fst (AddTask 1 0 fine 7 "t" true true queued_pool) ≠ Blocked.
Proof.
  the_pool queued_pool 0 pl Hp. exists pl. split; [reflexivity|].
  assert ((λ pl, Z.to_nat (max_threads pl - len pl) <? 1) <$> objects queued_pool !! 0
          = Some true) as Hfuel by (vm_compute; reflexivity).
  by_evaluation Hfuel Hp. apply Nat.ltb_lt in Hfuel.
  split; [exact Hfuel|].
  exact (nonblocking_AddTask_never_waits queued_pool 0 pl 1 fine 7 "t" true true
           queued_pool_reachable Hp (or_introl eq_refl) Hfuel).
Defined.

(** Stop on "p", Stop again, and Start again. *)
Lemma Stop_twice_and_Start_again_witness :
  ∃ pl, objects (started_pool (mk_Env [] [] [] [[1; 1]])) !! 0 = Some pl
        ∧ fst (Stop 1 0 (started_pool (mk_Env [] [] [] [[1; 1]]))) = Returns tt
        ∧ started pl = true
        ∧ (0 ≤ min_threads pl)%Z
        ∧ fst (Start 0 (snd (Stop 1 0 (started_pool (mk_Env [] [] [] [[1; 1]])))))
          = Returns tt
        ∧ Stop 0 0 (snd (Stop 1 0 (started_pool (mk_Env [] [] [] [[1; 1]]))))
          = log (LogWarning "Tried to stop a thread pool that was not running.")
                (add_event (EvStop 0)
                   (snd (Stop 1 0 (started_pool (mk_Env [] [] [] [[1; 1]])))))
        ∧ ∃ pl', objects (snd (Start 0 (snd (Stop 1 0
                            (started_pool (mk_Env [] [] [] [[1; 1]])))))) !! 0
                 = Some pl'
                 ∧ started pl' = true ∧ len pl' = min_threads pl ∧ size_band pl'.
Proof.
  the_pool (started_pool (mk_Env [] [] [] [[1; 1]])) 0 pl Hp.
  exists pl. split; [reflexivity|].
  assert (fst (Stop 1 0 (started_pool (mk_Env [] [] [] [[1; 1]]))) = Returns tt)
    as Hret by (vm_compute; reflexivity).
  split; [exact Hret|].
  assert (started <$> objects (started_pool (mk_Env [] [] [] [[1; 1]])) !! 0
          = Some true) as Hs by (vm_compute; reflexivity).
  by_evaluation Hs Hp. split; [exact Hs|].
  assert (min_threads <$> objects (started_pool (mk_Env [] [] [] [[1; 1]])) !! 0
          = Some 1%Z) as Hmin by (vm_compute; reflexivity).
  by_evaluation Hmin Hp.
  assert (0 ≤ min_threads pl)%Z as Hmin0 by (rewrite Hmin; lia).
  split; [exact Hmin0|].
  assert (fst (Start 0 (snd (Stop 1 0 (started_pool (mk_Env [] [] [] [[1; 1]])))))
          = Returns tt) as Hstart by (vm_compute; reflexivity).
  split; [exact Hstart|].
  destruct (Stop_twice_and_Start_again 1
              (started_pool (mk_Env [] [] [] [[1; 1]])) 0 pl
              (started_pool_reachable _) Hp Hret) as [Htwice Hagain].
  split; [exact (Htwice 0)|]. exact (Hagain Hs Hmin0 Hstart).
Defined.

(** The queue of "p" is empty: the task goes into it. *)
Lemma AddTask_queues_when_there_is_room_witness :
  ∃ pl pl1,
    objects (started_pool quiet_env) !! 0 = Some pl
    ∧ max_threads pl ≠ 0%Z
    ∧ objects (at_put 0 (add_event (EvAddTask 0 fine 7 "t" true true)
                           (started_pool quiet_env))) !! 0 = Some pl1
    ∧ full (_queue pl1) = false
    ∧ fst (AddTask 1 0 fine 7 "t" true true (started_pool quiet_env)) = Returns tt.
Proof.
  the_pool (started_pool quiet_env) 0 pl Hp.
  the_pool (at_put 0 (add_event (EvAddTask 0 fine 7 "t" true true)
                        (started_pool quiet_env))) 0 pl1 Hp1.
  exists pl, pl1. split; [reflexivity|].
  assert (max_threads <$> objects (started_pool quiet_env) !! 0 = Some 1%Z) as Hmax
    by (vm_compute; reflexivity).
  by_evaluation Hmax Hp.
  assert (max_threads pl ≠ 0%Z) as Hnz by (rewrite Hmax; discriminate).
  split; [exact Hnz|]. split; [reflexivity|].
  assert ((λ pl, full (_queue pl))
            <$> objects (at_put 0 (add_event (EvAddTask 0 fine 7 "t" true true)
                                     (started_pool quiet_env))) !! 0
          = Some false) as Hroom by (vm_compute; reflexivity).
  by_evaluation Hroom Hp1.
  split; [exact Hroom|].
  by rewrite (AddTask_queues_when_there_is_room (started_pool quiet_env) 0 pl 0
                fine 7 "t" true true pl1 Hp Hnz Hp1 Hroom).
Defined.

Lemma idle_timeout_reachable : reachable idle_timeout.
Proof. by exists quiet_env, [OpInit "p" 1%Z None true; OpStart 0; OpWorker 1]. Qed.

(** The worker of "p" has found the queue empty and waits for the lock of
    the pool; Stop takes the lock first. *)
Lemma Stop_waits_for_the_workers_it_locks_out_witness :
  ∃ pl, objects idle_timeout !! 0 = Some pl
        ∧ started pl = true
        ∧ captured pl = [1]
        ∧ all_wait_for_lock 0 idle_timeout
        ∧ fst (Stop 5 0 idle_timeout) = Blocked.
Proof.
  the_pool idle_timeout 0 pl Hp. exists pl. split; [reflexivity|].
  assert (started <$> objects idle_timeout !! 0 = Some true) as Hs
    by (vm_compute; reflexivity).
  by_evaluation Hs Hp. split; [exact Hs|].
  assert (captured <$> objects idle_timeout !! 0 = Some [1]) as Hcap
    by (vm_compute; reflexivity).
  by_evaluation Hcap Hp. split; [exact Hcap|].
  assert (all_wait_for_lock 0 idle_timeout) as Hall.
  { intros t wk Ht.
    assert (t ≤ 1) as Hle.
    { destruct (reachable_Inv _ idle_timeout_reachable) as [Hwf _].
      apply (wf_threads_bound _ Hwf). by eexists. }
    destruct t as [|[|t]]; [exfalso; vm_compute in Ht; discriminate Ht| |lia].
    right.
    assert (w_pool <$> threads idle_timeout !! 1 = Some 0) as Hpool
      by (vm_compute; reflexivity).
    by_evaluation Hpool Ht.
    assert (w_pc <$> threads idle_timeout !! 1 = Some AtRemoveIdle) as Hpc
      by (vm_compute; reflexivity).
    by_evaluation Hpc Ht.
    split; [exact Hpool|]. left. exact Hpc. }
  split; [exact Hall|].
  apply (Stop_waits_for_the_workers_it_locks_out 5 idle_timeout 0 pl
           idle_timeout_reachable Hp Hs).
  - rewrite Hcap. discriminate.
  - exact Hall.
Defined.
